(** * Fire-incident dashboard: normalization and analytics pipeline

    A shallow embedding of [streamlit_app.py]: the preprocessing stages
    ([preprocess_data], [process_numeric_data], [process_geodata],
    [improve_cause_analysis], [clean_and_categorize_cause]) and the
    analytics that read the normalized frame ([analyze_fire_trends],
    [analyze_district_distribution], [analyze_causes],
    [analyze_comparison], [predict_fire_trend]).

    Modelling conventions.
    - A Python [str] is a list of Unicode code points ([Text.str]); the
      literals of the source are written as UTF-8 string literals and
      decoded by [Text.py].
    - A data frame is an ordered list of named columns of cells; frame
      objects live in a store and are passed by reference, so that in-place
      updates and [df.copy()] keep their meaning.
    - The integers of the casualty columns are 64-bit: the conversion of
      a float to an integer and the addition of two columns have the
      range of NumPy's [int64] ([astype_int], [wrap64]).  A float read
      from text is the decimal fraction the text denotes, or an infinity
      when its magnitude is beyond the floats; the rounding of a float to
      53 bits is not modelled, and what depends on the digits of a value
      is stated for readings of at most fifteen significant digits.
      Counts, and the floats of the analytics, are exact ([Z] and
      rationals [Q]), with the IEEE infinities and NaN where the code can
      produce them (division by zero).
    - The Streamlit calls ([st.sidebar.write], [st.metric], charts) only
      display values and are left out; each analysis returns the values it
      would display. *)

From Stdlib Require Import List ZArith NArith QArith Qround Bool Ascii String.
From Stdlib Require Import Lia Permutation Sorted PeanoNat DecimalN.
Import ListNotations.

Set Implicit Arguments.

(** ** Text: Python strings as code-point lists *)

Module Text.

Definition str := list N.

(** UTF-8 decoding of a literal; [need] continuation bytes are still
    expected and [acc] holds the bits read so far. *)
Fixpoint utf8_go (bs : list N) (need : nat) (acc : N) : str :=
  match bs with
  | [] => []
  | b :: bs' =>
      match need with
      | O =>
          if (b <? 128)%N then b :: utf8_go bs' 0 0%N
          else if (b <? 224)%N then utf8_go bs' 1 (N.land b 31)
          else if (b <? 240)%N then utf8_go bs' 2 (N.land b 15)
          else utf8_go bs' 3 (N.land b 7)
      | S k =>
          let acc' := (acc * 64 + N.land b 63)%N in
          match k with
          | O => acc' :: utf8_go bs' 0 0%N
          | S _ => utf8_go bs' k acc'
          end
      end
  end.

Definition py (s : string) : str :=
  utf8_go (map N_of_ascii (list_ascii_of_string s)) 0 0%N.

Fixpoint eqb (s t : str) : bool :=
  match s, t with
  | [], [] => true
  | a :: s', b :: t' => (a =? b)%N && eqb s' t'
  | _, _ => false
  end.

(** [x in xs] for a list of strings. *)
Definition mem (s : str) (l : list str) : bool := existsb (eqb s) l.

(** Lexicographic order on code points: Python's [<] on [str]. *)
Fixpoint compare (s t : str) : comparison :=
  match s, t with
  | [], [] => Eq
  | [], _ :: _ => Lt
  | _ :: _, [] => Gt
  | a :: s', b :: t' =>
      match (a ?= b)%N with
      | Eq => compare s' t'
      | c => c
      end
  end.

(** [str.lower()] on the Basic Latin, Latin-1 and Cyrillic blocks, the
    alphabets of the headers and patterns of the source; other code
    points are returned unchanged (Python lowers some of them too, and
    writes U+0130 as two code points). *)
Definition lower_cp (c : N) : N :=
  if ((65 <=? c) && (c <=? 90))%N then (c + 32)%N
  else if ((192 <=? c) && (c <=? 222) && negb (c =? 215))%N then (c + 32)%N
  else if ((1024 <=? c) && (c <=? 1039))%N then (c + 80)%N
  else if ((1040 <=? c) && (c <=? 1071))%N then (c + 32)%N
  else c.

Definition lower (s : str) : str := map lower_cp s.

(** [str.isspace()] for one code point. *)
Definition is_space (c : N) : bool :=
  (((9 <=? c) && (c <=? 13)) || ((28 <=? c) && (c <=? 32))
   || (c =? 133) || (c =? 160) || (c =? 5760)
   || ((8192 <=? c) && (c <=? 8202)) || (c =? 8232) || (c =? 8233)
   || (c =? 8239) || (c =? 8287) || (c =? 12288))%N.

Fixpoint lstrip (s : str) : str :=
  match s with
  | c :: s' => if is_space c then lstrip s' else s
  | [] => []
  end.

Definition rstrip (s : str) : str := rev (lstrip (rev s)).

(** [str.strip()] *)
Definition strip (s : str) : str := rstrip (lstrip s).

Fixpoint prefix (p s : str) : bool :=
  match p, s with
  | [], _ => true
  | a :: p', b :: s' => (a =? b)%N && prefix p' s'
  | _ :: _, [] => false
  end.

(** [p in s] for strings: [p] occurs in [s] as a substring. *)
Fixpoint contains (p s : str) : bool :=
  prefix p s ||
  match s with
  | [] => false
  | _ :: s' => contains p s'
  end.

(** [s.replace(a, b)] for single characters. *)
Definition replace_cp (a b : N) (s : str) : str :=
  map (fun c => if (c =? a)%N then b else c) s.

(** [s.split(sep)] for a single-character separator: every occurrence
    splits, so consecutive separators give empty tokens. *)
Fixpoint split_go (sep : N) (cur : str) (s : str) : list str :=
  match s with
  | [] => [rev cur]
  | c :: s' =>
      if (c =? sep)%N then rev cur :: split_go sep [] s'
      else split_go sep (c :: cur) s'
  end.

Definition split (sep : N) (s : str) : list str := split_go sep [] s.

(** [sep.join(parts)] *)
Fixpoint join (sep : str) (parts : list str) : str :=
  match parts with
  | [] => []
  | [p] => p
  | p :: rest => p ++ sep ++ join sep rest
  end.

Lemma eqb_refl (s : str) : eqb s s = true.
Proof.
  induction s as [|c s IH]; simpl; [reflexivity|].
  now rewrite N.eqb_refl, IH.
Qed.

Lemma eqb_eq (s t : str) : eqb s t = true <-> s = t.
Proof.
  split.
  - revert t; induction s as [|c s IH]; intros [|d t]; simpl;
      try discriminate; [reflexivity|].
    intro H; apply andb_true_iff in H as [H1 H2].
    apply N.eqb_eq in H1; subst; f_equal; auto.
  - intros ->; apply eqb_refl.
Qed.

Lemma eqb_sym (s t : str) : eqb s t = eqb t s.
Proof.
  destruct (eqb s t) eqn:E.
  - apply eqb_eq in E; subst; symmetry; apply eqb_refl.
  - destruct (eqb t s) eqn:E'; [|reflexivity].
    apply eqb_eq in E'; subst; rewrite eqb_refl in E; discriminate.
Qed.

End Text.

Definition str := Text.str.
Definition py : string -> str := Text.py.

Arguments Text.py : simpl never.
Arguments py : simpl never.

Example py_ascii : py "3,0" = [51; 44; 48]%N.
Proof. reflexivity. Qed.

Example py_cyrillic : py "год" = [1075; 1086; 1076]%N.
Proof. reflexivity. Qed.

Example lower_cyrillic : Text.lower (py "Не Указана") = py "не указана".
Proof. reflexivity. Qed.

(** ** Numbers as [pd.to_numeric] reads them *)

(** A finite value is a decimal fraction [mant / 10 ^ scale]: the number a
    decimal literal denotes, and the number [repr] prints for a float. *)
Record dec := Dec { mant : Z; scale : nat }.

(** A float as [pd.to_numeric] returns it. *)
Inductive num :=
| NaN
| Fin (d : dec)
| Inf (negative : bool).

Definition pow10 (k : nat) : Z := 10 ^ Z.of_nat k.

Definition dec_Q (d : dec) : Q := Qmake (mant d) (Z.to_pos (pow10 (scale d))).

(** Conversion of a finite float to an integer: the fractional part is
    dropped (rounding toward zero). *)
Definition trunc (d : dec) : Z := Z.quot (mant d) (pow10 (scale d)).

Definition dec_of_Z (z : Z) : dec := Dec z 0.

Module Parse.

Definition is_digit (c : N) : bool := ((48 <=? c) && (c <=? 57))%N.

(** Longest prefix of ASCII digits (as digit values) and the remainder. *)
Fixpoint span_digits (s : str) : list N * str :=
  match s with
  | c :: s' =>
      if is_digit c
      then let (ds, r) := span_digits s' in ((c - 48)%N :: ds, r)
      else ([], s)
  | [] => ([], [])
  end.

Definition digits_val (ds : list N) : N :=
  fold_left (fun acc d => (acc * 10 + d)%N) ds 0%N.

(** Optional sign: [true] for a leading minus. *)
Definition take_sign (s : str) : bool * str :=
  match s with
  | c :: r =>
      if (c =? 45)%N then (true, r)
      else if (c =? 43)%N then (false, r)
      else (false, s)
  | [] => (false, [])
  end.

Definition signed (neg : bool) (n : N) : Z :=
  if neg then (- Z.of_N n)%Z else Z.of_N n.

(** Exponent part: empty, or [e]/[E], an optional sign and at least one
    digit, up to the end of the text. *)
Definition exponent (s : str) : option Z :=
  match s with
  | [] => Some 0%Z
  | c :: r =>
      if ((c =? 101) || (c =? 69))%N then
        let (neg, r1) := take_sign r in
        match span_digits r1 with
        | ((_ :: _) as ds, []) => Some (signed neg (digits_val ds))
        | _ => None
        end
      else None
  end.

(** [m * 10 ^ (e - sc)] as a decimal fraction. *)
Definition scaled (m : Z) (sc : nat) (e : Z) : dec :=
  if (Z.of_nat sc <=? e)%Z
  then Dec (m * 10 ^ (e - Z.of_nat sc)) 0
  else Dec m (Z.to_nat (Z.of_nat sc - e)).

(** A decimal literal: sign, digits with an optional point (at least one
    digit in all), optional exponent. *)
Definition decimal (s : str) : option dec :=
  let (neg, r0) := take_sign s in
  let (ip, r1) := span_digits r0 in
  let (fp, r2) :=
    match r1 with
    | c :: r => if (c =? 46)%N then span_digits r else ([], r1)
    | [] => ([], r1)
    end in
  match ip ++ fp with
  | [] => None
  | ds =>
      match exponent r2 with
      | Some e => Some (scaled (signed neg (digits_val ds)) (List.length fp) e)
      | None => None
      end
  end.

(** The spellings of the IEEE special values that are accepted besides
    decimal literals, compared case-insensitively. *)
Definition special (s : str) : option num :=
  let l := Text.lower s in
  if Text.mem l [py "nan"; py "+nan"; py "-nan"] then Some NaN
  else if Text.mem l [py "inf"; py "+inf"; py "infinity"; py "+infinity"]
  then Some (Inf false)
  else if Text.mem l [py "-inf"; py "-infinity"] then Some (Inf true)
  else None.

End Parse.

(** A float holds magnitudes below [2 ^ 1024] only: a decimal literal at
    or above the midpoint between the largest float and [2 ^ 1024] reads
    as an infinity. *)
Definition float_limit : Z := 2 ^ 1024 - 2 ^ 970.

Definition overflows (d : dec) : bool :=
  (float_limit * pow10 (scale d) <=? Z.abs (mant d))%Z.

(** The float a decimal literal is read as.  Below the limit the value is
    kept as the literal denotes it: the rounding of a float to 53 bits is
    not modelled, and the properties that depend on the digits of a value
    are stated for readings short enough for a float to tell them
    apart. *)
Definition of_decimal (d : dec) : num :=
  if overflows d then Inf (mant d <? 0)%Z else Fin d.

(** [pd.to_numeric(s, errors='coerce')] on one text cell: text that is not
    a number becomes [NaN]. *)
Definition to_numeric (s : str) : num :=
  match Parse.decimal s with
  | Some d => of_decimal d
  | None =>
      match Parse.special s with
      | Some v => v
      | None => NaN
      end
  end.

Example to_numeric_3_0 : to_numeric (py "3.0") = Fin (Dec 30 1).
Proof. vm_compute; reflexivity. Qed.

Example to_numeric_neg : to_numeric (py "-12") = Fin (Dec (-12) 0).
Proof. vm_compute; reflexivity. Qed.

Example to_numeric_exp : to_numeric (py "1.5e3") = Fin (Dec 1500 0).
Proof. vm_compute; reflexivity. Qed.

Example to_numeric_exp_neg : to_numeric (py "25E-1") = Fin (Dec 25 1).
Proof. vm_compute; reflexivity. Qed.

Example to_numeric_words : to_numeric (py "двое") = NaN.
Proof. reflexivity. Qed.

Example to_numeric_two_points : to_numeric (py "1.234.567") = NaN.
Proof. reflexivity. Qed.

Example to_numeric_empty : to_numeric [] = NaN.
Proof. reflexivity. Qed.

Example to_numeric_inf : to_numeric (py "-Inf") = Inf true.
Proof. reflexivity. Qed.

Example to_numeric_too_large : to_numeric (py "1e400") = Inf false.
Proof. vm_compute; reflexivity. Qed.

Example to_numeric_large : to_numeric (py "1e19") = Fin (Dec (10 ^ 19) 0).
Proof. vm_compute; reflexivity. Qed.

Example trunc_neg : trunc (Dec (-37) 1) = (-3)%Z.
Proof. reflexivity. Qed.

(** ** Cells and frames *)

(** A [pd.Timestamp]: the two fields the pipeline reads and the text
    [str()] prints for it. *)
Record timestamp := Timestamp { ts_year : Z; ts_month : Z; ts_text : str }.

(** One cell of a frame.  [CNull] stands for [None], [NaN] and [NaT]. *)
Inductive cell :=
| CNull
| CInt (z : Z)
| CFloat (d : dec)
| CStr (s : str)
| CDate (t : timestamp).

Definition isna (c : cell) : bool :=
  match c with CNull => true | _ => false end.

Definition notna (c : cell) : bool := negb (isna c).

Module Render.

Fixpoint uint_codes (u : Decimal.uint) : str :=
  match u with
  | Decimal.Nil => []
  | Decimal.D0 r => 48%N :: uint_codes r
  | Decimal.D1 r => 49%N :: uint_codes r
  | Decimal.D2 r => 50%N :: uint_codes r
  | Decimal.D3 r => 51%N :: uint_codes r
  | Decimal.D4 r => 52%N :: uint_codes r
  | Decimal.D5 r => 53%N :: uint_codes r
  | Decimal.D6 r => 54%N :: uint_codes r
  | Decimal.D7 r => 55%N :: uint_codes r
  | Decimal.D8 r => 56%N :: uint_codes r
  | Decimal.D9 r => 57%N :: uint_codes r
  end.

Definition of_N (n : N) : str := uint_codes (N.to_uint n).

(** [str(z)] for an integer. *)
Definition of_Z (z : Z) : str :=
  if (z <? 0)%Z then 45%N :: of_N (Z.abs_N z) else of_N (Z.abs_N z).

Fixpoint drop_zeros (l : str) : str :=
  match l with
  | c :: r => if (c =? 48)%N then drop_zeros r else l
  | [] => []
  end.

(** The exponent of the scientific notation: a sign and at least two
    digits. *)
Definition exp_text (e : Z) : str :=
  let ds := of_N (Z.abs_N e) in
  101%N :: (if (e <? 0)%Z then 45%N else 43%N) ::
  match ds with
  | [_] => 48%N :: ds
  | _ => ds
  end.

(** [str(x)] for a finite float.  With [digits] the significant digits
    and [decpt] the place of the point after them ([x] is
    [0.digits * 10 ^ decpt]), Python writes the number in positional
    notation, with at least one digit on each side of the point, when
    [-4 < decpt <= 16], and in scientific notation otherwise. *)
Definition of_dec (d : dec) : str :=
  let all := of_N (Z.abs_N (mant d)) in
  let digits := rev (drop_zeros (rev all)) in
  let decpt := (Z.of_nat (List.length all) - Z.of_nat (scale d))%Z in
  let body :=
    match digits with
    | [] => [48; 46; 48]%N
    | d1 :: rest =>
        if ((decpt <=? -4) || (16 <? decpt))%Z then
          d1 :: match rest with [] => [] | _ => 46%N :: rest end
          ++ exp_text (decpt - 1)
        else if (decpt <=? 0)%Z then
          [48; 46]%N ++ repeat 48%N (Z.to_nat (- decpt)) ++ digits
        else
          let k := Z.to_nat decpt in
          if (List.length digits <=? k)%nat
          then digits ++ repeat 48%N (k - List.length digits) ++ [46; 48]%N
          else firstn k digits ++ 46%N :: skipn k digits
    end in
  if (mant d <? 0)%Z then 45%N :: body else body.

End Render.

(** [str(c)], as [astype(str)] applies it to each cell. *)
Definition astype_str (c : cell) : str :=
  match c with
  | CNull => py "nan"
  | CInt z => Render.of_Z z
  | CFloat d => Render.of_dec d
  | CStr s => s
  | CDate t => ts_text t
  end.

Example astype_str_int : astype_str (CInt (-120)) = py "-120".
Proof. reflexivity. Qed.

Example astype_str_float : astype_str (CFloat (Dec 3005 2)) = py "30.05".
Proof. reflexivity. Qed.

Example astype_str_float_small : astype_str (CFloat (Dec (-5) 2)) = py "-0.05".
Proof. reflexivity. Qed.

Example astype_str_float_whole : astype_str (CFloat (Dec 3 0)) = py "3.0".
Proof. reflexivity. Qed.

Example astype_str_float_zeros : astype_str (CFloat (Dec 1500 2)) = py "15.0".
Proof. reflexivity. Qed.

Example astype_str_float_large :
  astype_str (CFloat (Dec (10 ^ 16) 0)) = py "1e+16".
Proof. vm_compute; reflexivity. Qed.

Example astype_str_float_15 :
  astype_str (CFloat (Dec (10 ^ 15) 0)) = py "1000000000000000.0".
Proof. vm_compute; reflexivity. Qed.

Example astype_str_float_tiny :
  astype_str (CFloat (Dec (-15) 6)) = py "-1.5e-05".
Proof. vm_compute; reflexivity. Qed.

Example astype_str_float_fraction :
  astype_str (CFloat (Dec 1 4)) = py "0.0001".
Proof. vm_compute; reflexivity. Qed.

Definition column := list cell.

(** A [DataFrame]: [nrows] rows under a default range index, and the
    columns in their order.  A name denotes the first column that carries
    it. *)
Record frame := Frame { nrows : nat; cols : list (str * column) }.

Definition columns (f : frame) : list str := map fst (cols f).

(** [name in df.columns] *)
Definition has_col (name : str) (f : frame) : bool :=
  Text.mem name (columns f).

Fixpoint assoc (name : str) (l : list (str * column)) : option column :=
  match l with
  | [] => None
  | (n, c) :: l' => if Text.eqb name n then Some c else assoc name l'
  end.

Fixpoint assoc_set (name : str) (c : column) (l : list (str * column))
  : list (str * column) :=
  match l with
  | [] => [(name, c)]
  | (n, c0) :: l' =>
      if Text.eqb name n then (n, c) :: l' else (n, c0) :: assoc_set name c l'
  end.

Definition get_col (name : str) (f : frame) : option column :=
  assoc name (cols f).

(** [df[name] = values]: replaces the column in place, or appends it. *)
Definition set_col (name : str) (c : column) (f : frame) : frame :=
  Frame (nrows f) (assoc_set name c (cols f)).

(** [df[name] = scalar] *)
Definition set_scalar (name : str) (v : cell) (f : frame) : frame :=
  set_col name (repeat v (nrows f)) f.

(** [df.columns = new_names] with one new name per column. *)
Definition rename_columns (g : str -> str) (f : frame) : frame :=
  Frame (nrows f) (map (fun nc => (g (fst nc), snd nc)) (cols f)).

(** Every column has one cell per row. *)
Definition wf_frame (f : frame) : Prop :=
  Forall (fun nc => List.length (snd nc) = nrows f) (cols f).

(** ** Exceptions and the object store *)

Inductive exn :=
| KeyError (name : str)
| ValueError
| BadReference.

Inductive result (A : Type) :=
| Ok (a : A)
| Raise (e : exn).

Arguments Ok {A} a.
Arguments Raise {A} e.

Definition rbind {A B} (r : result A) (k : A -> result B) : result B :=
  match r with
  | Ok a => k a
  | Raise e => Raise e
  end.

(** [df[name]] as an expression. *)
Definition getitem (name : str) (f : frame) : result column :=
  match get_col name f with
  | Some c => Ok c
  | None => Raise (KeyError name)
  end.

Module Store.

(** Frame objects by reference: a reference is a position in the heap. *)
Definition ref := nat.
Definition heap := list frame.

Definition M (A : Type) := heap -> result A * heap.

Definition ret {A} (a : A) : M A := fun h => (Ok a, h).

Definition bind {A B} (m : M A) (k : A -> M B) : M B :=
  fun h =>
    match m h with
    | (Ok a, h') => k a h'
    | (Raise e, h') => (Raise e, h')
    end.

Definition raise {A} (e : exn) : M A := fun h => (Raise e, h).

Definition load (r : ref) : M frame :=
  fun h =>
    match nth_error h r with
    | Some f => (Ok f, h)
    | None => (Raise BadReference, h)
    end.

Fixpoint update (r : ref) (f : frame) (h : heap) : heap :=
  match h, r with
  | [], _ => []
  | _ :: h', O => f :: h'
  | g :: h', S r' => g :: update r' f h'
  end.

Definition store (r : ref) (f : frame) : M unit :=
  fun h => (Ok tt, update r f h).

Definition alloc (f : frame) : M ref :=
  fun h => (Ok (List.length h), h ++ [f]).

(** An in-place change of the object behind [r]; when the change raises,
    the exception propagates. *)
Definition modify (r : ref) (g : frame -> result frame) : M unit :=
  bind (load r) (fun f =>
    match g f with
    | Ok f' => store r f'
    | Raise e => raise e
    end).

(** [df.copy()]: a new object with the same content. *)
Definition copy (r : ref) : M ref := bind (load r) alloc.

End Store.

Declare Scope store_scope.
Delimit Scope store_scope with store.
Notation "x <- m ;; k" := (Store.bind m (fun x => k))
  (at level 61, m at next level, right associativity) : store_scope.
Notation "m ;; k" := (Store.bind m (fun _ => k))
  (at level 61, right associativity) : store_scope.

Declare Scope result_scope.
Delimit Scope result_scope with result.
Notation "x <- r ;; k" := (rbind r (fun x => k))
  (at level 61, r at next level, right associativity) : result_scope.

(** ** Column names of the canonical schema *)

Module Col.
Definition fires := py "количество_пожаров".
Definition date := py "дата".
Definition year := py "год".
Definition month := py "месяц".
Definition month_name := py "месяц_название".
Definition district := py "район".
Definition object := py "объект".
Definition cause := py "причина".
Definition settlement := py "населенный_пункт".
Definition deaths := py "погибло".
Definition injuries := py "травмы".
Definition deaths_child := py "погибло_детей".
Definition injuries_child := py "травмы_детей".
Definition rescued := py "спасено".
Definition evacuated := py "эвакуировано".
Definition total_deaths := py "всего_погибло".
Definition total_injuries := py "всего_травмы".
Definition geopoint := py "геоточка".
Definition lat := py "lat".
Definition lon := py "lon".
Definition cause_merged := py "причина_объединенная".
Definition cause_clean := py "причина_очищенная".
End Col.

(** ** [process_numeric_data] *)

Fixpoint mapM {A B} (g : A -> result B) (l : list A) : result (list B) :=
  match l with
  | [] => Ok []
  | a :: l' =>
      match g a with
      | Ok b =>
          match mapM g l' with
          | Ok bs => Ok (b :: bs)
          | Raise e => Raise e
          end
      | Raise e => Raise e
      end
  end.

(** The values [.replace([...], 0)] turns into zero. *)
Definition blank_markers : list str :=
  [py ""; py " "; py "  "; py "None"; py "NaN"; py "nan"].

Definition replace_blank (c : cell) : cell :=
  match c with
  | CNull => CInt 0
  | CStr s => if Text.mem s blank_markers then CInt 0 else c
  | _ => c
  end.

(** [.fillna(0)] on a float column. *)
Definition fillna0 (x : num) : num :=
  match x with
  | NaN => Fin (dec_of_Z 0)
  | _ => x
  end.

(** The integers of a column are 64-bit. *)
Definition int64_min : Z := - 2 ^ 63.

Definition int64_max : Z := 2 ^ 63 - 1.

Definition in_int64 (z : Z) : bool :=
  (int64_min <=? z)%Z && (z <=? int64_max)%Z.

(** Two's-complement wrap-around: the result of NumPy's arithmetic on
    64-bit integers. *)
Definition wrap64 (z : Z) : Z := ((z + 2 ^ 63) mod 2 ^ 64 - 2 ^ 63)%Z.

(** [.astype(int)] on one float: an infinite value cannot be converted and
    the conversion of the column raises.  A finite value loses its
    fractional part; outside the 64-bit range the conversion stores the
    least 64-bit integer (the answer of the x86-64 conversion
    instruction). *)
Definition astype_int (x : num) : result Z :=
  match x with
  | Fin d => Ok (if in_int64 (trunc d) then trunc d else int64_min)
  | _ => Raise ValueError
  end.

(** The six statements of the loop body, on one cell. *)
Definition normalize_cell (c : cell) : result Z :=
  let c1 := replace_blank c in
  let s2 := Text.replace_cp 44 46 (astype_str c1) in
  let s3 := Text.strip s2 in
  let x4 := to_numeric s3 in
  let x5 := fillna0 x4 in
  astype_int x5.

Definition numeric_columns : list str :=
  [Col.deaths; Col.injuries; Col.deaths_child; Col.injuries_child;
   Col.rescued; Col.evacuated].

Definition normalize_column (col : str) (f : frame) : result frame :=
  if has_col col f then
    (c <- getitem col f ;;
     zs <- mapM normalize_cell c ;;
     Ok (set_col col (map CInt zs) f))%result
  else Ok (set_scalar col (CInt 0) f).

Fixpoint for_each (names : list str) (body : str -> frame -> result frame)
  (f : frame) : result frame :=
  match names with
  | [] => Ok f
  | n :: rest => (f' <- body n f ;; for_each rest body f')%result
  end.

(** [a + b] on two cells of integer columns: 64-bit addition. *)
Definition cell_add (a b : cell) : cell :=
  match a, b with
  | CInt x, CInt y => CInt (wrap64 (x + y))
  | _, _ => CNull
  end.

Definition series_add (a b : column) : column :=
  map (fun ab => cell_add (fst ab) (snd ab)) (combine a b).

Definition process_numeric_frame (f : frame) : result frame :=
  (f1 <- for_each numeric_columns normalize_column f ;;
   d <- getitem Col.deaths f1 ;;
   dc <- getitem Col.deaths_child f1 ;;
   let f2 := set_col Col.total_deaths (series_add d dc) f1 in
   i <- getitem Col.injuries f2 ;;
   ic <- getitem Col.injuries_child f2 ;;
   Ok (set_col Col.total_injuries (series_add i ic) f2))%result.

(** ** [process_geodata] *)

(** [x <= y] on decimal fractions. *)
Definition dec_leb (x y : dec) : bool :=
  (mant x * pow10 (scale y) <=? mant y * pow10 (scale x))%Z.

(** [lo <= x <= hi] on a float; false for infinities and NaN. *)
Definition between (lo hi : Z) (x : num) : bool :=
  match x with
  | Fin d => dec_leb (dec_of_Z lo) d && dec_leb d (dec_of_Z hi)
  | _ => false
  end.

Definition num_isna (x : num) : bool :=
  match x with NaN => true | _ => false end.

Definition cell_of_num (x : num) : cell :=
  match x with
  | Fin d => CFloat d
  | _ => CNull
  end.

(** The body of the loop over rows: the pair of cells left in
    [lat] and [lon]. *)
Definition resolve (num1 num2 : num) : cell * cell :=
  if num_isna num1 || num_isna num2 then (CNull, CNull)
  else if between (-90) 90 num1 && between (-180) 180 num2
  then (cell_of_num num1, cell_of_num num2)
  else if between (-90) 90 num2 && between (-180) 180 num1
  then (cell_of_num num2, cell_of_num num1)
  else (CNull, CNull).

(** Column [k] of [.str.split(' ', expand=True)], converted by
    [pd.to_numeric]: a row with too few tokens holds [None] there. *)
Definition token_num (k : nat) (tokens : list str) : num :=
  match nth_error tokens k with
  | Some t => to_numeric t
  | None => NaN
  end.

Definition geo_tokens (c : cell) : list str := Text.split 32 (astype_str c).

Definition resolve_cell (c : cell) : cell * cell :=
  let tokens := geo_tokens c in
  resolve (token_num 0 tokens) (token_num 1 tokens).

(** [len(coords.columns)]: the largest number of tokens in a row. *)
Definition coords_width (c : column) : nat :=
  fold_right (fun x w => Nat.max (List.length (geo_tokens x)) w) 0%nat c.

Definition process_geodata_frame (f : frame) : frame :=
  match get_col Col.geopoint f with
  | Some c =>
      if (2 <=? coords_width c)%nat then
        let r := map resolve_cell c in
        set_col Col.lon (map snd r) (set_col Col.lat (map fst r) f)
      else f
  | None => f
  end.

(** ** [clean_and_categorize_cause] *)

Inductive category :=
| Electrical
| CarelessFire
| Appliances
| NaturalCauses
| Technogenic
| Construction
| SafetyViolation
| OtherCauses
| Unspecified.

(** The label the source returns for each category. *)
Definition category_label (c : category) : str :=
  match c with
  | Electrical => py "Электрооборудование"
  | CarelessFire => py "Неосторожное обращение с огнем"
  | Appliances => py "Бытовая техника"
  | NaturalCauses => py "Природные причины"
  | Technogenic => py "Техногенные причины"
  | Construction => py "Строительные причины"
  | SafetyViolation => py "Нарушение правил пожарной безопасности"
  | OtherCauses => py "Другие причины"
  | Unspecified => py "Причина не указана"
  end.

(** The dictionary [cause_patterns], in insertion order. *)
Definition cause_patterns : list (category * list str) :=
  [ (Electrical,
     [py "электр"; py "проводка"; py "короткое замыкание"; py "электрич";
      py "розетка"; py "выключатель"; py "сеть"; py "напряжение"; py "эл.";
      py "эл.оборудование"]);
    (CarelessFire,
     [py "неосторож"; py "курение"; py "спички"; py "зажигалка"; py "огонь";
      py "костер"; py "поджог"; py "умышлен"; py "детская шалость"]);
    (Appliances,
     [py "телевизор"; py "холодильник"; py "чайник"; py "утюг";
      py "микроволновка"; py "обогреватель"; py "отопление"; py "печь";
      py "камин"]);
    (NaturalCauses,
     [py "молния"; py "гроза"; py "солнце"; py "засуха"; py "природн";
      py "самовозгорание"]);
    (Technogenic,
     [py "производств"; py "техник"; py "оборудование"; py "автомобиль";
      py "транспорт"; py "газ"; py "топливо"; py "химич"; py "горюч"]);
    (Construction,
     [py "ремонт"; py "строительств"; py "сварка"; py "отделк";
      py "покраска"]);
    (SafetyViolation,
     [py "нарушение"; py "правила"; py "пожарная безопасность"; py "ппб";
      py "нормы"]) ].

(** The two nested loops: the first category, in order, one of whose
    patterns occurs in the text. *)
Fixpoint first_category (ps : list (category * list str)) (text : str)
  : option category :=
  match ps with
  | [] => None
  | (cat, patterns) :: rest =>
      if existsb (fun pattern => Text.contains pattern text) patterns
      then Some cat
      else first_category rest text
  end.

(** [cause_text in [...]]: only a string can be equal to one of them. *)
Definition cell_in (c : cell) (l : list str) : bool :=
  match c with
  | CStr s => Text.mem s l
  | _ => false
  end.

Definition clean_and_categorize_cause (cause_text : cell) : category :=
  if isna cause_text
     || cell_in cause_text [py ""; py "nan"; py "None"; py "Не указана"]
  then Unspecified
  else
    let text := Text.strip (Text.lower (astype_str cause_text)) in
    match first_category cause_patterns text with
    | Some cat => cat
    | None =>
        if (10 <? List.length text)%nat
           && negb (Text.mem text
                      [py "не указана"; py "нет"; py "не установлена"])
        then OtherCauses
        else Unspecified
    end.

(** ** [improve_cause_analysis] *)

Definition cause_keywords : list str := [py "причина"; py "cause"; py "reason"].

Definition is_cause_column (col : str) : bool :=
  existsb (fun keyword => Text.contains keyword (Text.lower col)) cause_keywords.

Definition cause_columns (f : frame) : list str :=
  filter is_cause_column (columns f).

(** [row[col]] for the row at position [i]. *)
Definition cell_at (col : str) (i : nat) (f : frame) : cell :=
  match get_col col f with
  | Some c => nth i c CNull
  | None => CNull
  end.

(** The merged cause of one row, from the cells of its cause columns. *)
Definition merge_causes (values : list cell) : cell :=
  let causes :=
    map (fun v => Text.strip (astype_str v))
      (filter (fun v =>
                 notna v
                 && negb (Text.mem (Text.strip (astype_str v))
                            [py ""; py "nan"; py "None"]))
         values) in
  match causes with
  | [] => CStr (py "Не указана")
  | _ => CStr (Text.join (py "; ") causes)
  end.

Definition improve_cause_frame (f : frame) : result frame :=
  let cc := cause_columns f in
  let f1 :=
    match cc with
    | [] => set_scalar Col.cause_merged (CStr (py "Не указана")) f
    | _ =>
        set_col Col.cause_merged
          (map (fun idx => merge_causes (map (fun col => cell_at col idx f) cc))
             (seq 0 (nrows f))) f
    end in
  (merged <- getitem Col.cause_merged f1 ;;
   Ok (set_col Col.cause_clean
         (map (fun c => CStr (category_label (clean_and_categorize_cause c)))
            merged) f1))%result.

(** ** [preprocess_data] *)

Definition column_mapping : list (str * str) :=
  [ (py "муниципальный район", Col.district);
    (py "населенный пункт", Col.settlement);
    (py "улица", py "улица");
    (py "дом", py "дом");
    (py "геоточка", Col.geopoint);
    (py "объединенный адрес", py "адрес");
    (py "объект пожара (загорания)", Col.object);
    (py "объект пожара", Col.object);
    (py "причина пожара", Col.cause);
    (py "погибло людей: всего", Col.deaths);
    (py "в  т.ч. погибло детей", Col.deaths_child);
    (py "получили травмы: всего", Col.injuries);
    (py "в  т.ч. получили травмы: детей", Col.injuries_child);
    (py "спасено на пожаре людей", Col.rescued);
    (py "эвакуировано на пожаре людей", Col.evacuated) ].

Definition map_column (on : str * str) (f : frame) : result frame :=
  let (old_col, new_col) := on in
  if has_col old_col f && negb (has_col new_col f)
  then (c <- getitem old_col f ;; Ok (set_col new_col c f))%result
  else Ok f.

Fixpoint apply_column_mapping (m : list (str * str)) (f : frame)
  : result frame :=
  match m with
  | [] => Ok f
  | on :: rest => (f' <- map_column on f ;; apply_column_mapping rest f')%result
  end.

Definition text_columns : list str :=
  [Col.district; Col.object; Col.cause; Col.settlement].

Definition fillna_text (v : str) (c : cell) : cell :=
  match c with
  | CNull => CStr v
  | _ => c
  end.

Definition fill_text_column (col : str) (f : frame) : result frame :=
  if has_col col f
  then (c <- getitem col f ;;
        Ok (set_col col (map (fillna_text (py "Не указано")) c) f))%result
  else Ok (set_scalar col (CStr (py "Не указано")) f).

Definition date_columns : list str := [py "дата возникновения"; Col.date].

(** The loop with [break]: the first candidate that is a column. *)
Definition find_date_column (f : frame) : option str :=
  find (fun col => has_col col f) date_columns.

(** [Series.dt.month_name()] with the default (English) locale. *)
Definition month_names : list str :=
  [py "January"; py "February"; py "March"; py "April"; py "May"; py "June";
   py "July"; py "August"; py "September"; py "October"; py "November";
   py "December"].

Definition dt_year (t : option timestamp) : cell :=
  match t with Some t => CInt (ts_year t) | None => CNull end.

Definition dt_month (t : option timestamp) : cell :=
  match t with Some t => CInt (ts_month t) | None => CNull end.

Definition dt_month_name (t : option timestamp) : cell :=
  match t with
  | Some t =>
      match nth_error month_names (Z.to_nat (ts_month t - 1)) with
      | Some n => CStr n
      | None => CNull
      end
  | None => CNull
  end.

Definition dt_cell (t : option timestamp) : cell :=
  match t with Some t => CDate t | None => CNull end.

Section Pipeline.

(** [pd.to_datetime(x, errors='coerce')] on one cell: the timestamp read
    from it, or [None] for [NaT].  The conversion belongs to pandas; the
    pipeline is defined, and its properties hold, for any such function. *)
Variable to_datetime : cell -> option timestamp.

Definition process_dates (f : frame) : result frame :=
  match find_date_column f with
  | Some date_column =>
      (c <- getitem date_column f ;;
       let f1 := set_col Col.date (map (fun x => dt_cell (to_datetime x)) c) f in
       d <- getitem Col.date f1 ;;
       let ts := map (fun x => match x with CDate t => Some t | _ => None end) d in
       let f2 := set_col Col.year (map dt_year ts) f1 in
       let f3 := set_col Col.month (map dt_month ts) f2 in
       Ok (set_col Col.month_name (map dt_month_name ts) f3))%result
  | None =>
      let f1 := set_scalar Col.year (CInt 2023) f in
      let f2 := set_scalar Col.month (CInt 1) f1 in
      Ok (set_scalar Col.month_name (CStr (py "Январь")) f2)
  end.

(** Everything [preprocess_data] does to its own copy, in order. *)
Definition preprocess_frame (f : frame) : result frame :=
  (let f0 := set_scalar Col.fires (CInt 1) f in
   f1 <- process_dates f0 ;;
   f2 <- apply_column_mapping column_mapping f1 ;;
   f3 <- process_numeric_frame f2 ;;
   let f4 := process_geodata_frame f3 in
   f5 <- improve_cause_frame f4 ;;
   for_each text_columns fill_text_column f5)%result.

Definition normalize_header (c : str) : str := Text.strip (Text.lower c).

Definition process_numeric_data (df : Store.ref) : Store.M Store.ref :=
  (Store.modify df process_numeric_frame ;; Store.ret df)%store.

Definition process_geodata (df : Store.ref) : Store.M Store.ref :=
  (Store.modify df (fun f => Ok (process_geodata_frame f)) ;;
   Store.ret df)%store.

Definition improve_cause_analysis (df : Store.ref) : Store.M Store.ref :=
  (Store.modify df improve_cause_frame ;; Store.ret df)%store.

(** [preprocess_data(df)]: [df] is the caller's object. *)
Definition preprocess_data (df : Store.ref) : Store.M Store.ref :=
  (Store.modify df (fun f => Ok (rename_columns normalize_header f)) ;;
   df_processed <- Store.copy df ;;
   Store.modify df_processed (fun f => Ok (set_scalar Col.fires (CInt 1) f)) ;;
   Store.modify df_processed process_dates ;;
   Store.modify df_processed (apply_column_mapping column_mapping) ;;
   df_processed <- process_numeric_data df_processed ;;
   df_processed <- process_geodata df_processed ;;
   df_processed <- improve_cause_analysis df_processed ;;
   Store.modify df_processed (for_each text_columns fill_text_column) ;;
   Store.ret df_processed)%store.

End Pipeline.

(** ** Floats of the analytics: exact rationals and the IEEE specials *)

Inductive xfloat :=
| XNaN
| XFin (q : Q)
| XInf (negative : bool).

Module X.

Definition of_Z (z : Z) : xfloat := XFin (inject_Z z).

Definition is_zero (q : Q) : bool := Qeq_bool q 0.

Definition is_neg (q : Q) : bool := negb (Qle_bool 0 q).

Definition add (a b : xfloat) : xfloat :=
  match a, b with
  | XNaN, _ | _, XNaN => XNaN
  | XFin x, XFin y => XFin (x + y)
  | XInf s, XFin _ | XFin _, XInf s => XInf s
  | XInf s, XInf t => if Bool.eqb s t then XInf s else XNaN
  end.

Definition opp (a : xfloat) : xfloat :=
  match a with
  | XNaN => XNaN
  | XFin x => XFin (- x)
  | XInf s => XInf (negb s)
  end.

Definition sub (a b : xfloat) : xfloat := add a (opp b).

Definition mul (a b : xfloat) : xfloat :=
  match a, b with
  | XNaN, _ | _, XNaN => XNaN
  | XFin x, XFin y => XFin (x * y)
  | XInf s, XFin y | XFin y, XInf s =>
      if is_zero y then XNaN else XInf (xorb s (is_neg y))
  | XInf s, XInf t => XInf (xorb s t)
  end.

(** Division as NumPy performs it: a zero divisor gives an infinity, or
    NaN for [0 / 0], and nothing is raised. *)
Definition div (a b : xfloat) : xfloat :=
  match a, b with
  | XNaN, _ | _, XNaN => XNaN
  | XFin x, XFin y =>
      if is_zero y then
        if is_zero x then XNaN else XInf (is_neg x)
      else XFin (x / y)
  | XInf s, XFin y => XInf (xorb s (is_neg y))
  | XFin _, XInf _ => XFin 0
  | XInf _, XInf _ => XNaN
  end.

(** [x > y]; false when either side is NaN. *)
Definition gtb (a b : xfloat) : bool :=
  match a, b with
  | XFin x, XFin y => negb (Qle_bool x y)
  | XInf false, XFin _ | XFin _, XInf true | XInf false, XInf true => true
  | _, _ => false
  end.

(** Rounding to the nearest integer, ties to the even one. *)
Definition rint (q : Q) : Z :=
  let f := Qfloor q in
  let r := (q - inject_Z f)%Q in
  match (r ?= 1 # 2)%Q with
  | Lt => f
  | Gt => (f + 1)%Z
  | Eq => if Z.even f then f else (f + 1)%Z
  end.

(** [.round(1)] *)
Definition round1 (a : xfloat) : xfloat :=
  match a with
  | XFin q => XFin (inject_Z (rint (q * 10)) / 10)
  | _ => a
  end.

Definition isnan (a : xfloat) : bool :=
  match a with XNaN => true | _ => false end.

(** [Series.mean()]: NaN entries are skipped. *)
Definition mean (l : list xfloat) : xfloat :=
  let vs := filter (fun a => negb (isnan a)) l in
  match vs with
  | [] => XNaN
  | _ => div (fold_left add vs (of_Z 0)) (of_Z (Z.of_nat (List.length vs)))
  end.

(** Equality up to the representation of the rational. *)
Definition eq (a b : xfloat) : Prop :=
  match a, b with
  | XNaN, XNaN => True
  | XFin x, XFin y => (x == y)%Q
  | XInf s, XInf t => s = t
  | _, _ => False
  end.

End X.

(** ** Grouping *)

Definition dec_compare (x y : dec) : comparison :=
  (mant x * pow10 (scale y) ?= mant y * pow10 (scale x))%Z.

Definition cell_rank (c : cell) : nat :=
  match c with
  | CNull => 0
  | CInt _ | CFloat _ => 1
  | CDate _ => 2
  | CStr _ => 3
  end.

(** The order of group keys.  The keys of one column are of one kind in
    the normalized frame (integers for years, strings for names), where
    this is the order of Python; between kinds it is a convention. *)
Definition cell_compare (a b : cell) : comparison :=
  match a, b with
  | CInt x, CInt y => (x ?= y)%Z
  | CInt x, CFloat y => dec_compare (dec_of_Z x) y
  | CFloat x, CInt y => dec_compare x (dec_of_Z y)
  | CFloat x, CFloat y => dec_compare x y
  | CStr s, CStr t => Text.compare s t
  | CDate s, CDate t =>
      match (ts_year s ?= ts_year t)%Z with
      | Eq =>
          match (ts_month s ?= ts_month t)%Z with
          | Eq => Text.compare (ts_text s) (ts_text t)
          | c => c
          end
      | c => c
      end
  | _, _ => Nat.compare (cell_rank a) (cell_rank b)
  end.

Definition group := (cell * list nat)%type.

(** Adds row [i] under key [k], keeping the groups in key order and the
    rows of a group in row order. *)
Fixpoint insert_row (k : cell) (i : nat) (gs : list group) : list group :=
  match gs with
  | [] => [(k, [i])]
  | (k', rows) :: rest =>
      match cell_compare k k' with
      | Lt => (k, [i]) :: gs
      | Eq => (k', rows ++ [i]) :: rest
      | Gt => (k', rows) :: insert_row k i rest
      end
  end.

Definition add_row (keys : column) (gs : list group) (i : nat) : list group :=
  let k := nth i keys CNull in
  if isna k then gs else insert_row k i gs.

(** [groupby(key)] over the rows [rows] of a frame, with the defaults
    [sort=True] and [dropna=True]: rows whose key is missing belong to no
    group. *)
Definition groupby_rows (keys : column) (rows : list nat) : list group :=
  fold_left (add_row keys) rows [].

Definition groupby (keys : column) : list group :=
  groupby_rows keys (seq 0 (List.length keys)).

(** ['count']: the non-missing cells of the column within the group. *)
Definition agg_count (c : column) (rows : list nat) : Z :=
  Z.of_nat (List.length (filter (fun i => notna (nth i c CNull)) rows)).

Definition cell_Z (c : cell) : Z :=
  match c with
  | CInt z => z
  | _ => 0
  end.

(** ['sum'] on an integer column: a 64-bit sum. *)
Definition agg_sum (c : column) (rows : list nat) : Z :=
  wrap64 (fold_right (fun i acc => (cell_Z (nth i c CNull) + acc)%Z) 0%Z rows).

(** One row of [groupby(key).agg({...}).reset_index()]. *)
Record group_stats := GroupStats {
  g_key : cell;
  g_fires : Z;
  g_total_deaths : Z;
  g_total_injuries : Z;
  g_deaths_child : Z;
  g_injuries_child : Z
}.

Definition agg_stats (key : str) (df : frame) : result (list group_stats) :=
  (keys <- getitem key df ;;
   fires <- getitem Col.fires df ;;
   td <- getitem Col.total_deaths df ;;
   ti <- getitem Col.total_injuries df ;;
   dc <- getitem Col.deaths_child df ;;
   ic <- getitem Col.injuries_child df ;;
   Ok (map (fun g : group =>
              let rows := snd g in
              GroupStats (fst g) (agg_count fires rows) (agg_sum td rows)
                (agg_sum ti rows) (agg_sum dc rows) (agg_sum ic rows))
         (groupby keys)))%result.

(** ** [analyze_fire_trends] *)

(** The table [yearly_data]; [None] when the frame has no year column. *)
Definition analyze_fire_trends (df : frame)
  : result (option (list group_stats)) :=
  if has_col Col.year df
  then (yearly_data <- agg_stats Col.year df ;; Ok (Some yearly_data))%result
  else Ok None.

Definition sum_fires (l : list group_stats) : Z :=
  fold_right (fun g acc => (g_fires g + acc)%Z) 0%Z l.

(** ** Rankings: [analyze_district_distribution], [analyze_causes] *)

(** Rows of a table by position, as [take] does. *)
Definition take_rows {A} (t : list A) (indexer : list nat) : list A :=
  flat_map (fun i => match nth_error t i with Some x => [x] | None => [] end)
    indexer.

Section Ranking.

(** [ndarray.argsort(kind='quicksort')], the kind [sort_values] uses when
    none is given: the positions of the items in ascending order of the
    items.  NumPy leaves the order of equal items open for this kind, so
    the function is a parameter. *)
Variable argsort : list Z -> list nat.

(** [nargsort(items, ascending=False)]: both arrays are reversed, sorted
    in ascending order, and the result is reversed. *)
Definition nargsort_desc (items : list Z) : list nat :=
  let non_nans := rev items in
  let non_nan_idx := rev (seq 0 (List.length items)) in
  let indexer := map (fun j => nth j non_nan_idx 0%nat) (argsort non_nans) in
  rev indexer.

(** [t.sort_values('количество_пожаров', ascending=False)] *)
Definition sort_values_desc (t : list group_stats) : list group_stats :=
  take_rows t (nargsort_desc (map g_fires t)).

Definition analyze_district_distribution (df : frame)
  : result (option (list group_stats)) :=
  if has_col Col.district df
  then (district_data <- agg_stats Col.district df ;;
        Ok (Some (sort_values_desc district_data)))%result
  else Ok None.

(** The table [causes_data] of [analyze_causes]. *)
Definition analyze_causes (df : frame) : result (option (list group_stats)) :=
  if has_col Col.cause_clean df
  then (causes_data <- agg_stats Col.cause_clean df ;;
        Ok (Some (sort_values_desc causes_data)))%result
  else Ok None.

End Ranking.

(** What NumPy promises of [argsort] for every kind: a permutation of the
    positions that puts the items in ascending order. *)
Definition argsort_ok (argsort : list Z -> list nat) : Prop :=
  forall items,
    Permutation (argsort items) (seq 0 (List.length items)) /\
    Sorted Z.le (map (fun i => nth i items 0%Z) (argsort items)).

(** Two sorts that keep the promise: insertion sorts that differ in where
    an item goes among its equals.  [argsort_stable] keeps equal items in
    their order; [argsort_ties_reversed] puts them in the opposite
    order. *)
Fixpoint insert_by (before : Z -> Z -> bool) (x : nat * Z)
  (l : list (nat * Z)) : list (nat * Z) :=
  match l with
  | [] => [x]
  | y :: l' =>
      if before (snd x) (snd y) then x :: l else y :: insert_by before x l'
  end.

Definition indexed (items : list Z) : list (nat * Z) :=
  combine (seq 0 (List.length items)) items.

Definition argsort_by (before : Z -> Z -> bool) (items : list Z) : list nat :=
  map fst (fold_right (insert_by before) [] (indexed items)).

Definition argsort_stable : list Z -> list nat := argsort_by Z.leb.

Definition argsort_ties_reversed : list Z -> list nat := argsort_by Z.ltb.

(** ** [analyze_comparison] *)

Definition int_cell (c : cell) : option Z :=
  match c with
  | CInt z => Some z
  | _ => None
  end.

(** [df['год'].max()]; [None] when no year is present. *)
Definition col_max (c : column) : option Z :=
  fold_right
    (fun x acc =>
       match int_cell x, acc with
       | Some z, Some m => Some (Z.max z m)
       | Some z, None => Some z
       | None, _ => acc
       end) None c.

(** The rows selected by [df[df['год'] == y]]. *)
Definition rows_of_year (years : column) (y : Z) : list nat :=
  filter (fun i => match int_cell (nth i years CNull) with
                   | Some z => (z =? y)%Z
                   | None => false
                   end)
    (seq 0 (List.length years)).

Record district_totals := DistrictTotals {
  d_key : cell;
  d_fires : Z;
  d_deaths : Z;
  d_injuries : Z
}.

Definition totals_by_district (districts fires deaths injuries : column)
  (rows : list nat) : list district_totals :=
  map (fun g : group =>
         DistrictTotals (fst g) (agg_count fires (snd g))
           (agg_sum deaths (snd g)) (agg_sum injuries (snd g)))
    (groupby_rows districts rows).

Fixpoint insert_key (k : cell) (ks : list cell) : list cell :=
  match ks with
  | [] => [k]
  | k' :: rest =>
      match cell_compare k k' with
      | Lt => k :: ks
      | Eq => ks
      | Gt => k' :: insert_key k rest
      end
  end.

(** The index of a frame built from series with different indexes: the
    sorted union. *)
Definition union_keys (a b : list cell) : list cell :=
  fold_left (fun acc k => insert_key k acc) (a ++ b) [].

Definition lookup_totals (k : cell) (t : list district_totals)
  : option district_totals :=
  find (fun d => match cell_compare k (d_key d) with Eq => true | _ => false end) t.

(** A value of an aligned column after [.fillna(0)]. *)
Definition aligned (proj : district_totals -> Z) (k : cell)
  (t : list district_totals) : Z :=
  match lookup_totals k t with
  | Some d => proj d
  | None => 0
  end.

Record comparison_row := ComparisonRow {
  c_key : cell;
  cur_fires : Z;
  prev_fires : Z;
  cur_deaths : Z;
  prev_deaths : Z;
  cur_injuries : Z;
  prev_injuries : Z;
  change_fires : Z;
  change_fires_pct : xfloat;
  change_deaths : Z;
  change_injuries : Z
}.

Definition compare_district (current_data previous_data : list district_totals)
  (k : cell) : comparison_row :=
  let cf := aligned d_fires k current_data in
  let pf := aligned d_fires k previous_data in
  let cd := aligned d_deaths k current_data in
  let pd := aligned d_deaths k previous_data in
  let ci := aligned d_injuries k current_data in
  let pi := aligned d_injuries k previous_data in
  let change := (cf - pf)%Z in
  ComparisonRow k cf pf cd pd ci pi change
    (X.round1 (X.mul (X.div (X.of_Z change) (X.of_Z pf)) (X.of_Z 100)))
    (cd - pd) (ci - pi).

Inductive comparison_report :=
| ComparisonNoColumns
| ComparisonInsufficient
| ComparisonTable (current_year : Z) (rows : list comparison_row).

Definition analyze_comparison (df : frame) : result comparison_report :=
  if has_col Col.year df && has_col Col.district df then
    (years <- getitem Col.year df ;;
     districts <- getitem Col.district df ;;
     fires <- getitem Col.fires df ;;
     deaths <- getitem Col.deaths df ;;
     injuries <- getitem Col.injuries df ;;
     match col_max years with
     | None => Ok ComparisonInsufficient
     | Some current_year =>
         let previous_year := (current_year - 1)%Z in
         let current_data :=
           totals_by_district districts fires deaths injuries
             (rows_of_year years current_year) in
         let previous_data :=
           totals_by_district districts fires deaths injuries
             (rows_of_year years previous_year) in
         match current_data, previous_data with
         | _ :: _, _ :: _ =>
             Ok (ComparisonTable current_year
                   (map (compare_district current_data previous_data)
                      (union_keys (map d_key current_data)
                         (map d_key previous_data))))
         | _, _ => Ok ComparisonInsufficient
         end
     end)%result
  else Ok ComparisonNoColumns.

(** ** [predict_fire_trend] *)

Inductive direction := Rising | Falling.

Record forecast := Forecast { next_year_pred : xfloat; avg_growth : xfloat }.

Inductive trend_report :=
| TrendNoYear
| TrendInsufficient
| TrendReport (fires_trend : direction) (fires_change : xfloat)
    (prediction : option forecast).

(** [s.shift(1)] *)
Definition shift1 (l : list xfloat) : list xfloat := XNaN :: removelast l.

(** [s.pct_change()], which is [s / s.shift(1) - 1]. *)
Definition pct_change (l : list xfloat) : list xfloat :=
  map (fun xy => X.sub (X.div (fst xy) (snd xy)) (X.of_Z 1))
    (combine l (shift1 l)).

(** The column [количество_пожаров] of [yearly_stats]. *)
Definition yearly_counts (years fires : column) : list Z :=
  map (fun g : group => agg_count fires (snd g)) (groupby years).

Definition trend_of_counts (counts : list Z) : trend_report :=
  let n := List.length counts in
  if (1 <? n)%nat then
    let current := nth (n - 1) counts 0%Z in
    let previous := nth (n - 2) counts 0%Z in
    let fires_trend := if (current >? previous)%Z then Rising else Falling in
    let fires_change :=
      X.mul (X.div (X.of_Z (current - previous)) (X.of_Z previous))
        (X.of_Z 100) in
    TrendReport fires_trend fires_change
      (if (2 <? n)%nat then
         let avg := X.mean (pct_change (map X.of_Z counts)) in
         Some (Forecast (X.mul (X.of_Z current) (X.add (X.of_Z 1) avg)) avg)
       else None)
  else TrendInsufficient.

Definition predict_fire_trend (df : frame) : result trend_report :=
  if has_col Col.year df then
    (years <- getitem Col.year df ;;
     fires <- getitem Col.fires df ;;
     Ok (trend_of_counts (yearly_counts years fires)))%result
  else Ok TrendNoYear.

(** * Properties *)

Unset Implicit Arguments.

(** ** Frames *)

Ltac names_differ := vm_compute; reflexivity.

(** Membership of a name in a list of names, decided on the syntax of the
    names (their literals are never unfolded). *)
Ltac in_names :=
  repeat first [ progress unfold numeric_columns, text_columns
               | progress cbn [In] ];
  repeat lazymatch goal with
         | |- ?x = ?y \/ _ =>
             first [constr_eq x y; left; exact eq_refl | right]
         end;
  try assumption.

Lemma assoc_set_same (n : str) (c : column) (l : list (str * column)) :
  assoc n (assoc_set n c l) = Some c.
Proof.
  induction l as [|[m c0] l IH]; simpl.
  - now rewrite Text.eqb_refl.
  - destruct (Text.eqb n m) eqn:E; simpl; rewrite E; auto.
Qed.

Lemma assoc_set_other (n m : str) (c : column) (l : list (str * column)) :
  Text.eqb n m = false -> assoc n (assoc_set m c l) = assoc n l.
Proof.
  intro D; induction l as [|[k c0] l IH]; simpl.
  - now rewrite D.
  - destruct (Text.eqb m k) eqn:E; simpl.
    + apply Text.eqb_eq in E; subst k; now rewrite D.
    + now rewrite IH.
Qed.

Lemma has_col_assoc (n : str) (f : frame) :
  has_col n f = match get_col n f with Some _ => true | None => false end.
Proof.
  unfold has_col, get_col, columns, Text.mem.
  induction (cols f) as [|[m c] l IH]; simpl; [reflexivity|].
  destruct (Text.eqb n m); simpl; auto.
Qed.

Lemma get_set_same (n : str) (c : column) (f : frame) :
  get_col n (set_col n c f) = Some c.
Proof. apply assoc_set_same. Qed.

Lemma get_set_other (n m : str) (c : column) (f : frame) :
  Text.eqb n m = false -> get_col n (set_col m c f) = get_col n f.
Proof. apply assoc_set_other. Qed.

Lemma has_set_same (n : str) (c : column) (f : frame) :
  has_col n (set_col n c f) = true.
Proof. now rewrite has_col_assoc, get_set_same. Qed.

Lemma has_set_other (n m : str) (c : column) (f : frame) :
  Text.eqb n m = false -> has_col n (set_col m c f) = has_col n f.
Proof. intro D; now rewrite !has_col_assoc, get_set_other. Qed.

Lemma getitem_Ok (n : str) (f : frame) (c : column) :
  getitem n f = Ok c <-> get_col n f = Some c.
Proof.
  unfold getitem; destruct (get_col n f); split; intro H;
    inversion H; reflexivity.
Qed.

Lemma getitem_has (n : str) (f : frame) :
  has_col n f = true -> exists c, getitem n f = Ok c /\ get_col n f = Some c.
Proof.
  rewrite has_col_assoc; unfold getitem.
  destruct (get_col n f) as [c|]; [eauto | discriminate].
Qed.

Lemma wf_get (n : str) (f : frame) (c : column) :
  wf_frame f -> get_col n f = Some c -> List.length c = nrows f.
Proof.
  unfold wf_frame, get_col; intros W.
  induction W as [|[m c0] l H W IH]; simpl; [discriminate|].
  destruct (Text.eqb n m); [|exact IH].
  intro E; inversion E; subst; exact H.
Qed.

Lemma wf_set_col (n : str) (c : column) (f : frame) :
  wf_frame f -> List.length c = nrows f -> wf_frame (set_col n c f).
Proof.
  unfold wf_frame, set_col; simpl; intros W L.
  induction W as [|[m c0] l H W IH]; simpl.
  - constructor; [exact L | constructor].
  - destruct (Text.eqb n m); constructor; auto.
Qed.

Lemma wf_set_scalar (n : str) (v : cell) (f : frame) :
  wf_frame f -> wf_frame (set_scalar n v f).
Proof. intro W; apply wf_set_col; [exact W | apply repeat_length]. Qed.

Lemma cell_at_get (n : str) (f : frame) (c : column) (i : nat) :
  get_col n f = Some c -> cell_at n i f = nth i c CNull.
Proof. unfold cell_at; now intros ->. Qed.

(** ** The numeric normalizer *)

Lemma mapM_Ok_length {A B} (g : A -> result B) (l : list A) (r : list B) :
  mapM g l = Ok r -> List.length r = List.length l.
Proof.
  revert r; induction l as [|a l IH]; simpl; intros r H.
  - inversion H; reflexivity.
  - destruct (g a); [|discriminate].
    destruct (mapM g l); [|discriminate].
    inversion H; subst; simpl; f_equal; auto.
Qed.


Lemma text_eqb_neq (s t : str) : Text.eqb s t = false <-> s <> t.
Proof.
  split.
  - intros E ->; rewrite Text.eqb_refl in E; discriminate.
  - intro D; destruct (Text.eqb s t) eqn:E; [|reflexivity].
    apply Text.eqb_eq in E; contradiction.
Qed.

(** The integer column the loop of [process_numeric_data] computes for
    [col] from frame [f]. *)
Definition normalized_of (f : frame) (col : str) (zs : list Z) : Prop :=
  match get_col col f with
  | Some c => mapM normalize_cell c = Ok zs
  | None => zs = repeat 0%Z (nrows f)
  end.

Definition zip_add (a b : list Z) : list Z :=
  map (fun ab => wrap64 (fst ab + snd ab)) (combine a b).

Lemma series_add_ints (a b : list Z) :
  series_add (map CInt a) (map CInt b) = map CInt (zip_add a b).
Proof.
  unfold series_add, zip_add; revert b.
  induction a as [|x a IH]; intros [|y b]; simpl; try reflexivity.
  now rewrite IH.
Qed.

Lemma zip_add_length (a b : list Z) (n : nat) :
  List.length a = n -> List.length b = n -> List.length (zip_add a b) = n.
Proof.
  intros A B; unfold zip_add.
  rewrite length_map, length_combine; lia.
Qed.

Lemma zip_add_nth (a b : list Z) (i : nat) :
  (i < List.length a)%nat -> (i < List.length b)%nat ->
  nth i (zip_add a b) 0%Z = wrap64 (nth i a 0 + nth i b 0)%Z.
Proof.
  unfold zip_add; revert b i.
  induction a as [|x a IH]; intros [|y b] [|i]; cbn [combine map nth List.length];
    intros; try reflexivity; try lia.
  apply IH; lia.
Qed.

Lemma normalized_of_length (f : frame) (col : str) (zs : list Z) :
  wf_frame f -> normalized_of f col zs -> List.length zs = nrows f.
Proof.
  unfold normalized_of; intros W H.
  destruct (get_col col f) as [c|] eqn:G.
  - rewrite (mapM_Ok_length _ _ _ H); eapply wf_get; eauto.
  - subst; apply repeat_length.
Qed.

Lemma normalize_column_spec (col : str) (f f' : frame) :
  normalize_column col f = Ok f' ->
  exists zs, normalized_of f col zs /\ f' = set_col col (map CInt zs) f.
Proof.
  unfold normalize_column, normalized_of; rewrite has_col_assoc.
  unfold getitem; destruct (get_col col f) as [c|]; simpl.
  - destruct (mapM normalize_cell c) as [zs|] eqn:E; simpl; [|discriminate].
    intro H; inversion H; eauto.
  - intro H; inversion H; exists (repeat 0%Z (nrows f)); split; auto.
    unfold set_scalar; now rewrite map_repeat.
Qed.

Lemma for_each_normalize (names : list str) :
  NoDup names ->
  forall f f', for_each names normalize_column f = Ok f' ->
  nrows f' = nrows f /\
  (wf_frame f -> wf_frame f') /\
  (forall n, In n names ->
     exists zs, normalized_of f n zs /\ get_col n f' = Some (map CInt zs)) /\
  (forall n, ~ In n names -> get_col n f' = get_col n f).
Proof.
  induction 1 as [|m names Hm ND IH]; simpl; intros f f' H.
  - inversion H; subst; repeat split; auto; intros n [].
  - destruct (normalize_column m f) as [f0|] eqn:E0; simpl in H; [|discriminate].
    destruct (normalize_column_spec _ _ _ E0) as (zs0 & N0 & ->).
    destruct (IH _ _ H) as (R & W & In' & Out).
    split; [exact R|]. split; [|split].
    + intro Wf; apply W, wf_set_col; [exact Wf|].
      rewrite length_map; eapply normalized_of_length; eauto.
    + intros n [<- | Hn].
      * exists zs0; split; [exact N0|].
        rewrite (Out m Hm); apply get_set_same.
      * destruct (In' n Hn) as (zs & Nn & G); exists zs; split; [|exact G].
        unfold normalized_of in *; simpl in Nn.
        rewrite get_set_other in Nn; [exact Nn|].
        apply text_eqb_neq; intros ->; contradiction.
    + intros n Hn; rewrite (Out n); [|tauto].
      apply get_set_other, text_eqb_neq; intros ->; apply Hn; now left.
Qed.

Lemma numeric_columns_NoDup : NoDup numeric_columns.
Proof.
  unfold numeric_columns.
  repeat (constructor; [simpl; intros H;
    repeat (destruct H as [H|H]; [apply text_eqb_neq in H; [exact H|names_differ]|]);
    exact H|]).
  constructor.
Qed.

(** What [process_numeric_data] leaves in the frame. *)
Record numeric_result (f f' : frame) : Prop := {
  nr_rows : nrows f' = nrows f;
  nr_wf : wf_frame f -> wf_frame f';
  nr_field : forall n, In n numeric_columns ->
    exists zs, normalized_of f n zs /\ get_col n f' = Some (map CInt zs);
  nr_total_deaths : forall d dc,
    get_col Col.deaths f' = Some (map CInt d) ->
    get_col Col.deaths_child f' = Some (map CInt dc) ->
    get_col Col.total_deaths f' = Some (map CInt (zip_add d dc));
  nr_total_injuries : forall i ic,
    get_col Col.injuries f' = Some (map CInt i) ->
    get_col Col.injuries_child f' = Some (map CInt ic) ->
    get_col Col.total_injuries f' = Some (map CInt (zip_add i ic));
  nr_other : forall n,
    ~ In n (Col.total_deaths :: Col.total_injuries :: numeric_columns) ->
    get_col n f' = get_col n f
}.

Lemma map_CInt_inj (a b : list Z) : map CInt a = map CInt b -> a = b.
Proof.
  revert b; induction a as [|x a IH]; intros [|y b]; simpl; intro H;
    inversion H; subst; f_equal; auto.
Qed.

Lemma process_numeric_frame_spec (f f' : frame) :
  process_numeric_frame f = Ok f' -> numeric_result f f'.
Proof.
  unfold process_numeric_frame; intro H.
  destruct (for_each numeric_columns normalize_column f) as [f1|] eqn:E1;
    simpl in H; [|discriminate].
  destruct (for_each_normalize _ numeric_columns_NoDup _ _ E1) as (R & W & Inn & Out).
  destruct (Inn Col.deaths) as (zd & Nd & Gd); [in_names|].
  destruct (Inn Col.deaths_child) as (zdc & Ndc & Gdc); [in_names|].
  destruct (Inn Col.injuries) as (zi & Ni & Gi); [in_names|].
  destruct (Inn Col.injuries_child) as (zic & Nic & Gic); [in_names|].
  unfold getitem in H; rewrite Gd, Gdc in H; simpl in H.
  rewrite !get_set_other, Gi, Gic in H by names_differ; simpl in H.
  inversion H; subst f'; clear H.
  rewrite !series_add_ints.
  assert (Keep : forall n, In n numeric_columns ->
            forall c1 c2 g, get_col n
              (set_col Col.total_injuries c2 (set_col Col.total_deaths c1 g))
              = get_col n g).
  { intros n Hn c1 c2 g.
    rewrite !get_set_other; [reflexivity| |];
      simpl in Hn; repeat (destruct Hn as [<-|Hn]; [names_differ|]);
      destruct Hn. }
  constructor.
  - exact R.
  - intro Wf; specialize (W Wf).
    assert (L : forall n zs, In n numeric_columns -> normalized_of f n zs ->
                  List.length zs = nrows f1).
    { intros; rewrite R; eapply normalized_of_length; eauto. }
    apply wf_set_col; [apply wf_set_col; [exact W|]|];
      rewrite length_map; simpl; apply zip_add_length;
      eapply L; eauto; in_names.
  - intros n Hn; destruct (Inn n Hn) as (zs & N & G).
    exists zs; split; [exact N|]; now rewrite Keep.
  - intros d dc Hd Hdc.
    rewrite Keep in Hd, Hdc by in_names.
    rewrite Gd in Hd; rewrite Gdc in Hdc.
    inversion Hd as [Hd']; inversion Hdc as [Hdc'].
    apply map_CInt_inj in Hd', Hdc'; subst.
    rewrite get_set_other by names_differ; apply get_set_same.
  - intros i ic Hi Hic.
    rewrite Keep in Hi, Hic by in_names.
    rewrite Gi in Hi; rewrite Gic in Hic.
    inversion Hi as [Hi']; inversion Hic as [Hic'].
    apply map_CInt_inj in Hi', Hic'; subst.
    apply get_set_same.
  - intros n Hn.
    rewrite !get_set_other.
    + apply Out; intro Hin; apply Hn; right; right; exact Hin.
    + apply text_eqb_neq; intros ->; apply Hn; in_names.
    + apply text_eqb_neq; intros ->; apply Hn; in_names.
Qed.

(** The text [pd.to_numeric] receives for a cell. *)
Definition numeric_text (c : cell) : str :=
  Text.strip (Text.replace_cp 44 46 (astype_str (replace_blank c))).

Lemma normalize_cell_text (c : cell) :
  normalize_cell c = astype_int (fillna0 (to_numeric (numeric_text c))).
Proof. reflexivity. Qed.

Lemma pow10_pos (k : nat) : (0 < pow10 k)%Z.
Proof. unfold pow10; apply Z.pow_pos_nonneg; lia. Qed.





(** The number a cell is read as. *)
Definition reading (c : cell) : num := to_numeric (numeric_text c).

(** A reading of at most fifteen significant digits, or none: the float
    nearest to such a number has the same integer part, so what is proved
    of the number holds of the float. *)
Definition short_reading (x : num) : Prop :=
  match x with
  | NaN => True
  | Fin d => (Z.abs (mant d) < 10 ^ 15)%Z
  | Inf _ => False
  end.






(** The output of the normalizer is always a 64-bit integer. *)
Lemma normalize_cell_range (c : cell) (z : Z) :
  normalize_cell c = Ok z -> in_int64 z = true.
Proof.
  rewrite normalize_cell_text.
  destruct (to_numeric (numeric_text c)) as [|d|b];
    cbn [fillna0 astype_int]; try discriminate.
  - intro H; injection H as <-; reflexivity.
  - intro H; injection H as <-.
    destruct (in_int64 (trunc d)) eqn:E; [exact E | reflexivity].
Qed.


Lemma lstrip_spaces (s : str) : forallb Text.is_space s = true -> Text.lstrip s = [].
Proof.
  induction s as [|c s IH]; simpl; [reflexivity|].
  intro H; apply andb_true_iff in H as [H1 H2]; rewrite H1; auto.
Qed.




(** *** Integer cells pass through the text round trip unchanged *)

Fixpoint uint_vals (u : Decimal.uint) : list N :=
  match u with
  | Decimal.Nil => []
  | Decimal.D0 r => 0%N :: uint_vals r
  | Decimal.D1 r => 1%N :: uint_vals r
  | Decimal.D2 r => 2%N :: uint_vals r
  | Decimal.D3 r => 3%N :: uint_vals r
  | Decimal.D4 r => 4%N :: uint_vals r
  | Decimal.D5 r => 5%N :: uint_vals r
  | Decimal.D6 r => 6%N :: uint_vals r
  | Decimal.D7 r => 7%N :: uint_vals r
  | Decimal.D8 r => 8%N :: uint_vals r
  | Decimal.D9 r => 9%N :: uint_vals r
  end.

Lemma span_digits_uint (u : Decimal.uint) :
  Parse.span_digits (Render.uint_codes u) = (uint_vals u, []).
Proof. induction u; simpl; try rewrite IHu; reflexivity. Qed.

Lemma digits_acc (u : Decimal.uint) (acc : positive) :
  fold_left (fun a d => (a * 10 + d)%N) (uint_vals u) (Npos acc)
  = Npos (Pos.of_uint_acc u acc).
Proof.
  revert acc; induction u; intro acc;
    cbn [uint_vals fold_left Pos.of_uint_acc]; [reflexivity|..];
    rewrite <- IHu; f_equal; lia.
Qed.

Lemma digits_val_uint (u : Decimal.uint) :
  Parse.digits_val (uint_vals u) = N.of_uint u.
Proof.
  unfold Parse.digits_val, N.of_uint.
  induction u; cbn [uint_vals fold_left Pos.of_uint];
    [reflexivity | exact IHu |..]; apply digits_acc.
Qed.

Lemma digits_of_N (n : N) :
  exists v vs, uint_vals (N.to_uint n) = v :: vs /\
               Parse.digits_val (v :: vs) = n.
Proof.
  pose proof (digits_val_uint (N.to_uint n)) as V.
  rewrite DecimalN.Unsigned.of_to in V.
  destruct (uint_vals (N.to_uint n)) as [|v vs] eqn:E.
  - destruct n as [|p]; [discriminate E|discriminate V].
  - eauto.
Qed.

Lemma uint_codes_plain (u : Decimal.uint) :
  Forall (fun c => Text.is_space c = false /\ (c =? 44)%N = false)
    (Render.uint_codes u).
Proof. induction u; simpl; constructor; auto. Qed.

Lemma take_sign_digits (u : Decimal.uint) :
  Parse.take_sign (Render.uint_codes u) = (false, Render.uint_codes u).
Proof. destruct u; reflexivity. Qed.

Lemma replace_plain (s : str) :
  Forall (fun c => Text.is_space c = false /\ (c =? 44)%N = false) s ->
  Text.replace_cp 44 46 s = s.
Proof.
  induction 1 as [|c s [_ H] _ IH]; simpl; [reflexivity|].
  now rewrite H, IH.
Qed.

Lemma lstrip_plain (s : str) :
  Forall (fun c => Text.is_space c = false) s -> Text.lstrip s = s.
Proof. destruct 1 as [|c s H _]; simpl; [reflexivity|now rewrite H]. Qed.

Lemma strip_plain (s : str) :
  Forall (fun c => Text.is_space c = false /\ (c =? 44)%N = false) s ->
  Text.strip s = s.
Proof.
  intro H.
  assert (P : Forall (fun c => Text.is_space c = false) s)
    by (eapply Forall_impl; [|exact H]; simpl; tauto).
  unfold Text.strip, Text.rstrip.
  rewrite (lstrip_plain _ P), lstrip_plain, rev_involutive; [reflexivity|].
  now apply Forall_rev.
Qed.

Lemma decimal_of_N (n : N) :
  Parse.decimal (Render.of_N n) = Some (Dec (Z.of_N n * 1) 0) /\
  Parse.decimal (45%N :: Render.of_N n) = Some (Dec (- Z.of_N n * 1) 0).
Proof.
  destruct (digits_of_N n) as (v & vs & E & V).
  unfold Parse.decimal, Render.of_N.
  rewrite take_sign_digits; simpl Parse.take_sign.
  rewrite !span_digits_uint, E, app_nil_r.
  simpl Parse.exponent; cbv iota beta.
  rewrite V; split; reflexivity.
Qed.

Lemma of_decimal_int (z : Z) :
  in_int64 z = true -> of_decimal (Dec z 0) = Fin (Dec z 0).
Proof.
  unfold in_int64, int64_min, int64_max, of_decimal, overflows.
  intro H; apply andb_true_iff in H as [H1 H2]; apply Z.leb_le in H1, H2.
  cbn [mant scale]; change (pow10 0) with 1%Z; rewrite Z.mul_1_r.
  replace (float_limit <=? Z.abs z)%Z with false; [reflexivity|].
  symmetry; apply Z.leb_gt.
  assert (2 ^ 63 < float_limit)%Z by reflexivity; lia.
Qed.

(** The text of an integer cell is read as the integer. *)
Lemma reading_int (z : Z) :
  in_int64 z = true -> reading (CInt z) = Fin (Dec z 0).
Proof.
  intro R; unfold reading, numeric_text, replace_blank, astype_str.
  set (s := Render.of_Z z).
  assert (P : Forall (fun c => Text.is_space c = false /\ (c =? 44)%N = false) s).
  { unfold s, Render.of_Z, Render.of_N.
    destruct (z <? 0)%Z; [constructor; [split; reflexivity|]|];
      apply uint_codes_plain. }
  rewrite (replace_plain _ P), (strip_plain _ P).
  destruct (decimal_of_N (Z.abs_N z)) as [D1 D2].
  unfold to_numeric, s, Render.of_Z.
  destruct (Z.ltb_spec z 0) as [L|G].
  - rewrite D2, N2Z.inj_abs_N.
    replace (- Z.abs z * 1)%Z with z by lia.
    now apply of_decimal_int.
  - rewrite D1, N2Z.inj_abs_N.
    replace (Z.abs z * 1)%Z with z by lia.
    now apply of_decimal_int.
Qed.

Lemma trunc_int (z : Z) : trunc (Dec z 0) = z.
Proof. unfold trunc; cbn [mant scale]; apply Z.quot_1_r. Qed.

(** A 64-bit integer cell is returned as it is, negative or not. *)
Lemma normalize_cell_int (z : Z) :
  in_int64 z = true -> normalize_cell (CInt z) = Ok z.
Proof.
  intro R; rewrite normalize_cell_text.
  change (to_numeric (numeric_text (CInt z))) with (reading (CInt z)).
  rewrite (reading_int z R); cbn [fillna0 astype_int].
  now rewrite trunc_int, R.
Qed.

(** A frame with one casualty column, used to exercise the normalizer. *)
Definition casualties : frame :=
  Frame 4 [(Col.deaths,
            [CStr (py "3,0"); CStr (py "-3"); CNull; CStr (py "двое")])].

Definition result_frame (r : result frame) : frame :=
  match r with
  | Ok f => f
  | Raise _ => Frame 0 []
  end.


(** Readings outside the range of the column: ten to the nineteenth is
    stored as the least 64-bit integer, a negative number although the
    text has no minus sign, and a number too large for a float makes the
    conversion raise. *)
Example normalize_cell_out_of_range :
  normalize_cell (CStr (py "1e19")) = Ok int64_min /\
  normalize_cell (CStr (py "1e400")) = Raise ValueError.
Proof. split; vm_compute; reflexivity. Qed.



(** The reading of the second cell of the sample column is short: the
    amended statement applies to it. *)
Example casualties_short_reading :
  short_reading (reading (cell_at Col.deaths 1 casualties)).
Proof. vm_compute; reflexivity. Qed.

(** ** The cause classifier *)

Lemma space_range (c : N) :
  Text.is_space c = true ->
  (c <= 32 \/ c = 133 \/ c = 160 \/ 5760 <= c)%N.
Proof.
  unfold Text.is_space.
  rewrite !orb_true_iff, !andb_true_iff, !N.leb_le, !N.eqb_eq; lia.
Qed.

Lemma lower_space (c : N) : Text.is_space c = true -> Text.lower_cp c = c.
Proof.
  intro H; apply space_range in H; unfold Text.lower_cp.
  repeat match goal with
         | |- context [if ?b then _ else _] => destruct b eqn:?
         end; try reflexivity;
    repeat match goal with
           | E : (_ && _)%bool = true |- _ => apply andb_true_iff in E as [? ?]
           | E : (_ <=? _)%N = true |- _ => apply N.leb_le in E
           end; lia.
Qed.

Lemma lower_spaces (s : str) :
  forallb Text.is_space s = true -> Text.lower s = s.
Proof.
  induction s as [|c s IH]; simpl; [reflexivity|].
  intro H; apply andb_true_iff in H as [H1 H2].
  now rewrite (lower_space _ H1), (IH H2).
Qed.

Lemma categorize_blank (s : str) :
  forallb Text.is_space s = true ->
  clean_and_categorize_cause (CStr s) = Unspecified.
Proof.
  intro H; unfold clean_and_categorize_cause.
  destruct (isna (CStr s) || cell_in (CStr s) _); [reflexivity|].
  unfold astype_str; rewrite (lower_spaces _ H).
  unfold Text.strip; rewrite (lstrip_spaces _ H); reflexivity.
Qed.

(** C2, as stated, fails on its second example: no pattern of the
    careless-handling list occurs in the text (["спички"] is not a
    substring of ["спичками"]), and the classifier answers [OtherCauses]. *)
Lemma matches_text_not_careless :
  clean_and_categorize_cause (CStr (py "дети играли со спичками"))
  <> CarelessFire.
Proof. vm_compute; discriminate. Qed.

(** C2 (amended).  The classifier maps ["короткое замыкание в проводке"] to
    Electrical, maps ["дети играли со спичками"] to Other (no category
    pattern occurs in it and it is longer than ten characters), and maps
    empty or blank text to Unspecified. *)
Theorem cause_classifier_examples :
  clean_and_categorize_cause (CStr (py "короткое замыкание в проводке"))
  = Electrical /\
  clean_and_categorize_cause (CStr (py "дети играли со спичками"))
  = OtherCauses /\
  (forall s, forallb Text.is_space s = true ->
             clean_and_categorize_cause (CStr s) = Unspecified).
Proof.
  split; [vm_compute; reflexivity|].
  split; [vm_compute; reflexivity|].
  exact categorize_blank.
Qed.

Lemma cause_classifier_examples_witness :
  clean_and_categorize_cause (CStr (py "   ")) = Unspecified.
Proof.
  apply (proj2 (proj2 cause_classifier_examples) (py "   ")).
  reflexivity.
Defined.

(** ** The coordinate resolver *)

Lemma pow10_to_pos (k : nat) : Zpos (Z.to_pos (pow10 k)) = pow10 k.
Proof. apply Z2Pos.id, pow10_pos. Qed.

(** The test [lo <= x <= hi] of the source, on the rational value. *)
Lemma between_Q (lo hi : Z) (d : dec) :
  between lo hi (Fin d) = true <->
  (inject_Z lo <= dec_Q d /\ dec_Q d <= inject_Z hi)%Q.
Proof.
  unfold between, dec_leb, dec_Q, Qle, dec_of_Z; simpl.
  rewrite andb_true_iff, !Z.leb_le, pow10_to_pos.
  change (pow10 0) with 1%Z; lia.
Qed.

Lemma coords_width_ge (c : column) (x : cell) :
  In x c -> (List.length (geo_tokens x) <= coords_width c)%nat.
Proof.
  induction c as [|y c IH]; simpl; [tauto|].
  intros [->|H]; [lia|]; specialize (IH H); lia.
Qed.

Lemma token_num_length (k : nat) (tokens : list str) (d : dec) :
  token_num k tokens = Fin d -> (k < List.length tokens)%nat.
Proof.
  unfold token_num; destruct (nth_error tokens k) eqn:E; [|discriminate].
  intros _; apply nth_error_Some; congruence.
Qed.

Lemma nth_map_error {A B} (g : A -> B) (l : list A) (i : nat) (x : A) (d : B) :
  nth_error l i = Some x -> nth i (map g l) d = g x.
Proof.
  revert i; induction l as [|a l IH]; intros [|i]; simpl; try discriminate.
  - intro H; inversion H; reflexivity.
  - apply IH.
Qed.

(** The cells [process_geodata] leaves in [lat] and [lon] for a row. *)
Lemma process_geodata_row (f : frame) (c : column) (row : nat) (x : cell)
  (a b : dec) :
  get_col Col.geopoint f = Some c ->
  nth_error c row = Some x ->
  token_num 0 (geo_tokens x) = Fin a ->
  token_num 1 (geo_tokens x) = Fin b ->
  cell_at Col.lat row (process_geodata_frame f) = fst (resolve (Fin a) (Fin b)) /\
  cell_at Col.lon row (process_geodata_frame f) = snd (resolve (Fin a) (Fin b)).
Proof.
  intros G R A B; unfold process_geodata_frame; rewrite G.
  assert (W : (2 <=? coords_width c)%nat = true).
  { apply Nat.leb_le.
    pose proof (coords_width_ge c x (nth_error_In _ _ R)).
    pose proof (token_num_length _ _ _ B); lia. }
  rewrite W; unfold cell_at.
  rewrite get_set_other, !get_set_same by names_differ.
  rewrite !map_map, !(nth_map_error _ _ _ _ _ R).
  unfold resolve_cell; now rewrite A, B.
Qed.

(** A GeoPoint: latitude within [-90, 90], longitude within [-180, 180]. *)
Definition valid_pair (lat lon : dec) : Prop :=
  (inject_Z (-90) <= dec_Q lat /\ dec_Q lat <= inject_Z 90)%Q /\
  (inject_Z (-180) <= dec_Q lon /\ dec_Q lon <= inject_Z 180)%Q.

Lemma valid_pair_between (x y : dec) :
  between (-90) 90 (Fin x) && between (-180) 180 (Fin y) = true <->
  valid_pair x y.
Proof.
  unfold valid_pair; rewrite andb_true_iff, !between_Q; tauto.
Qed.

(** A one-row frame holding the coordinate string of the source's hint. *)
Definition one_point : frame :=
  Frame 1 [(Col.geopoint, [CStr (py "131.090314 60.465566")])].

(** C3.  For a record whose coordinate string parses to two numbers [a]
    and [b], the resolver stores [lat = a], [lon = b] when [a] is a
    latitude and [b] a longitude; otherwise [lat = b], [lon = a] when that
    ordering is valid; otherwise both are absent.  When both orderings are
    valid (45.0 and 45.0) the first wins, and ["131.090314 60.465566"]
    resolves to latitude 60.465566, longitude 131.090314. *)
Theorem geodata_axis_order :
  (forall f c row x a b,
      get_col Col.geopoint f = Some c ->
      nth_error c row = Some x ->
      token_num 0 (geo_tokens x) = Fin a ->
      token_num 1 (geo_tokens x) = Fin b ->
      let lat := cell_at Col.lat row (process_geodata_frame f) in
      let lon := cell_at Col.lon row (process_geodata_frame f) in
      (valid_pair a b -> lat = CFloat a /\ lon = CFloat b) /\
      (~ valid_pair a b -> valid_pair b a -> lat = CFloat b /\ lon = CFloat a) /\
      (~ valid_pair a b -> ~ valid_pair b a -> lat = CNull /\ lon = CNull)) /\
  resolve_cell (CStr (py "45.0 45.0")) = (CFloat (Dec 450 1), CFloat (Dec 450 1)) /\
  resolve_cell (CStr (py "131.090314 60.465566"))
  = (CFloat (Dec 60465566 6), CFloat (Dec 131090314 6)).
Proof.
  split; [|split; vm_compute; reflexivity].
  intros f c row x a b G R A B lat lon.
  destruct (process_geodata_row f c row x a b G R A B) as [L1 L2].
  subst lat lon; rewrite L1, L2; clear L1 L2.
  unfold resolve; simpl num_isna; cbv iota beta; simpl orb; cbv iota.
  pose proof (valid_pair_between a b) as V1.
  pose proof (valid_pair_between b a) as V2.
  destruct (between (-90) 90 (Fin a) && between (-180) 180 (Fin b));
    [|destruct (between (-90) 90 (Fin b) && between (-180) 180 (Fin a))];
    simpl; repeat split; intros; try reflexivity;
    try (exfalso; tauto);
    try (exfalso; assert (false = true) by tauto; discriminate).
Qed.

Lemma geodata_axis_order_witness :
  (valid_pair (Dec 131090314 6) (Dec 60465566 6) ->
   cell_at Col.lat 0 (process_geodata_frame one_point) = CFloat (Dec 131090314 6) /\
   cell_at Col.lon 0 (process_geodata_frame one_point) = CFloat (Dec 60465566 6)) /\
  (~ valid_pair (Dec 131090314 6) (Dec 60465566 6) ->
   valid_pair (Dec 60465566 6) (Dec 131090314 6) ->
   cell_at Col.lat 0 (process_geodata_frame one_point) = CFloat (Dec 60465566 6) /\
   cell_at Col.lon 0 (process_geodata_frame one_point) = CFloat (Dec 131090314 6)) /\
  (~ valid_pair (Dec 131090314 6) (Dec 60465566 6) ->
   ~ valid_pair (Dec 60465566 6) (Dec 131090314 6) ->
   cell_at Col.lat 0 (process_geodata_frame one_point) = CNull /\
   cell_at Col.lon 0 (process_geodata_frame one_point) = CNull).
Proof.
  apply (proj1 geodata_axis_order one_point
           [CStr (py "131.090314 60.465566")] 0%nat
           (CStr (py "131.090314 60.465566"))
           (Dec 131090314 6) (Dec 60465566 6));
    vm_compute; reflexivity.
Defined.

(** ** The stages of [preprocess_data], one by one *)

Ltac not_in_names :=
  let H := fresh "H" in
  simpl; intros H;
  repeat (destruct H as [H|H];
          [revert H; apply text_eqb_neq; names_differ|]);
  exact H.

(** A stage keeps the shape of the frame and every column outside
    [written]. *)
Definition stage (written : list str) (f f' : frame) : Prop :=
  nrows f' = nrows f /\
  (wf_frame f -> wf_frame f') /\
  (forall n, ~ In n written -> get_col n f' = get_col n f).

Lemma get_set_not_in (n m : str) (c : column) (f : frame) (l : list str) :
  ~ In n (m :: l) -> get_col n (set_col m c f) = get_col n f.
Proof.
  intro H; apply get_set_other, text_eqb_neq; intros ->; apply H; now left.
Qed.

Lemma stage_set_col (m : str) (c : column) (f : frame) :
  List.length c = nrows f -> stage [m] f (set_col m c f).
Proof.
  intro L; split; [reflexivity|]; split.
  - intro W; now apply wf_set_col.
  - intros n H; eapply get_set_not_in; eauto.
Qed.

Lemma stage_trans (w1 w2 : list str) (f g h : frame) :
  stage w1 f g -> stage w2 g h -> stage (w1 ++ w2) f h.
Proof.
  intros (R1 & W1 & K1) (R2 & W2 & K2); split; [congruence|]; split; [tauto|].
  intros n H; rewrite K2, K1; auto; intro; apply H, in_or_app; tauto.
Qed.

Lemma stage_refl (f : frame) : stage [] f f.
Proof. repeat split; auto. Qed.

Lemma stage_weaken (w w' : list str) (f g : frame) :
  incl w w' -> stage w f g -> stage w' f g.
Proof.
  intros I (R & W & K); split; [exact R|]; split; [exact W|].
  intros n H; apply K; intro; apply H, I; assumption.
Qed.

Section PipelineFacts.

Variable to_datetime : cell -> option timestamp.

(** The column [год] that [process_dates] computes from frame [f]. *)
Definition year_column_of (f : frame) (ys : column) : Prop :=
  match find_date_column f with
  | Some date_column =>
      exists c, get_col date_column f = Some c /\
                ys = map (fun x => dt_year (to_datetime x)) c
  | None => ys = repeat (CInt 2023) (nrows f)
  end.

Lemma timestamps_back (c : column) :
  map (fun x => match x with CDate t => Some t | _ => None end)
    (map (fun x => dt_cell (to_datetime x)) c)
  = map to_datetime c.
Proof.
  rewrite map_map; apply map_ext; intro x.
  now destruct (to_datetime x).
Qed.

Lemma process_dates_spec (f f' : frame) :
  process_dates to_datetime f = Ok f' ->
  stage [Col.date; Col.year; Col.month; Col.month_name] f f' /\
  exists ys, get_col Col.year f' = Some ys /\ year_column_of f ys.
Proof.
  unfold process_dates, year_column_of.
  destruct (find_date_column f) as [dc|] eqn:Fd.
  - unfold getitem at 1.
    destruct (get_col dc f) as [c|] eqn:G; simpl; [|discriminate].
    unfold getitem; rewrite get_set_same; simpl.
    rewrite timestamps_back, !map_map.
    intro H; inversion H; subst f'; clear H; split.
    + assert (L : wf_frame f -> List.length c = nrows f)
        by (intro W; eapply wf_get; eauto).
      split; [reflexivity|]; split.
      * intro W; specialize (L W).
        repeat apply wf_set_col; auto; rewrite length_map; exact L.
      * intros n Hn; rewrite !get_set_other; [reflexivity|..];
          apply text_eqb_neq; intros ->; apply Hn; in_names.
    + eexists; split.
      * rewrite !get_set_other by names_differ; apply get_set_same.
      * exists c; split; [reflexivity|]; reflexivity.
  - intro H; inversion H; subst f'; clear H; split.
    + split; [reflexivity|]; split.
      * intro W; now repeat apply wf_set_scalar.
      * intros n Hn; unfold set_scalar; rewrite !get_set_other;
          [reflexivity|..];
          apply text_eqb_neq; intros ->; apply Hn; in_names.
    + eexists; split; [|reflexivity].
      unfold set_scalar; rewrite !get_set_other by names_differ.
      apply get_set_same.
Qed.

End PipelineFacts.

Lemma map_column_spec (on : str * str) (f f' : frame) :
  map_column on f = Ok f' ->
  nrows f' = nrows f /\ (wf_frame f -> wf_frame f') /\
  (forall n c, get_col n f = Some c -> get_col n f' = Some c).
Proof.
  destruct on as [old_col new_col]; unfold map_column.
  destruct (has_col old_col f && negb (has_col new_col f)) eqn:E.
  - apply andb_true_iff in E as [_ E]; apply negb_true_iff in E.
    unfold getitem; destruct (get_col old_col f) as [c|] eqn:G; simpl;
      [|discriminate].
    intro H; inversion H; subst f'; clear H.
    split; [reflexivity|]; split.
    + intro W; apply wf_set_col; [exact W | eapply wf_get; eauto].
    + intros n c' Gn; rewrite get_set_other; [exact Gn|].
      apply text_eqb_neq; intros ->.
      rewrite has_col_assoc, Gn in E; discriminate.
  - intro H; inversion H; subst; auto.
Qed.

Lemma apply_column_mapping_spec (m : list (str * str)) (f f' : frame) :
  apply_column_mapping m f = Ok f' ->
  nrows f' = nrows f /\ (wf_frame f -> wf_frame f') /\
  (forall n c, get_col n f = Some c -> get_col n f' = Some c).
Proof.
  revert f; induction m as [|on m IH]; simpl; intros f H.
  - inversion H; subst; auto.
  - destruct (map_column on f) as [f0|] eqn:E; simpl in H; [|discriminate].
    destruct (map_column_spec _ _ _ E) as (R0 & W0 & K0).
    destruct (IH _ H) as (R & W & K).
    split; [congruence|]; split; [tauto|]; auto.
Qed.

Lemma process_geodata_spec (f : frame) :
  stage [Col.lat; Col.lon] f (process_geodata_frame f).
Proof.
  unfold process_geodata_frame.
  destruct (get_col Col.geopoint f) as [c|] eqn:G;
    [|apply (stage_weaken []); [intros ? []|apply stage_refl]].
  destruct (2 <=? coords_width c)%nat;
    [|apply (stage_weaken []); [intros ? []|apply stage_refl]].
  split; [reflexivity|]; split.
  - intro W; pose proof (wf_get _ _ _ W G) as L.
    repeat apply wf_set_col; auto; rewrite !length_map; exact L.
  - intros n Hn; rewrite !get_set_other; [reflexivity|..];
      apply text_eqb_neq; intros ->; apply Hn; in_names.
Qed.

Lemma improve_cause_spec (f f' : frame) :
  improve_cause_frame f = Ok f' ->
  stage [Col.cause_merged; Col.cause_clean] f f'.
Proof.
  unfold improve_cause_frame.
  set (merged := match cause_columns f with
                 | [] => set_scalar Col.cause_merged (CStr (py "Не указана")) f
                 | _ :: _ => _
                 end).
  assert (M : exists c, merged = set_col Col.cause_merged c f /\
                        List.length c = nrows f).
  { unfold merged; destruct (cause_columns f).
    - eexists; split; [reflexivity | apply repeat_length].
    - eexists; split; [reflexivity|]; now rewrite length_map, length_seq. }
  destruct M as (c & -> & L).
  unfold getitem; rewrite get_set_same; simpl.
  intro H; inversion H; subst f'; clear H.
  split; [reflexivity|]; split.
  - intro W; repeat apply wf_set_col; auto; rewrite length_map; exact L.
  - intros n Hn; rewrite !get_set_other; [reflexivity|..];
      apply text_eqb_neq; intros ->; apply Hn; in_names.
Qed.

Lemma fill_text_column_spec (col : str) (f f' : frame) :
  fill_text_column col f = Ok f' -> stage [col] f f'.
Proof.
  unfold fill_text_column; rewrite has_col_assoc; unfold getitem.
  destruct (get_col col f) as [c|] eqn:G; simpl; intro H;
    inversion H; subst f'; clear H.
  - split; [reflexivity|]; split.
    + intro W; apply wf_set_col; [exact W|].
      rewrite length_map; eapply wf_get; eauto.
    + intros n Hn; eapply get_set_not_in; eauto.
  - apply stage_set_col, repeat_length.
Qed.

Lemma fill_text_spec (names : list str) (f f' : frame) :
  for_each names fill_text_column f = Ok f' -> stage names f f'.
Proof.
  revert f; induction names as [|n names IH]; simpl; intros f H.
  - inversion H; subst; apply stage_refl.
  - destruct (fill_text_column n f) as [f0|] eqn:E; simpl in H; [|discriminate].
    apply (stage_trans [n] names f f0 f'); auto.
    now apply fill_text_column_spec.
Qed.

Lemma fill_text_column_has (col n : str) (f f' : frame) :
  fill_text_column col f = Ok f' ->
  n = col \/ has_col n f = true -> has_col n f' = true.
Proof.
  unfold fill_text_column; rewrite (has_col_assoc col); unfold getitem.
  destruct (get_col col f) as [c|] eqn:G; simpl; intro H;
    inversion H; subst f'; clear H; unfold set_scalar;
    (destruct (Text.eqb n col) eqn:E;
     [apply Text.eqb_eq in E; subst n; intros _; apply has_set_same
     |intros [->|Hn];
      [rewrite Text.eqb_refl in E; discriminate
      |now rewrite has_set_other]]).
Qed.

Lemma fill_text_has (names : list str) (n : str) (f f' : frame) :
  for_each names fill_text_column f = Ok f' ->
  In n names \/ has_col n f = true -> has_col n f' = true.
Proof.
  revert f; induction names as [|m names IH]; simpl; intros f H.
  - inversion H; subst; intros [[]|Hn]; exact Hn.
  - destruct (fill_text_column m f) as [f0|] eqn:E; simpl in H; [|discriminate].
    intros [[->|Hn]|Hn]; apply (IH _ H); auto; right;
      apply (fill_text_column_has _ _ _ _ E); auto.
Qed.

(** ** The normalized frame *)

Section Normalized.

Variable to_datetime : cell -> option timestamp.

(** What [preprocess_data] guarantees of its result [p] for the frame [f]
    it copied. *)
Record preprocessed (f p : frame) : Prop := {
  pp_rows : nrows p = nrows f;
  pp_wf : wf_frame f -> wf_frame p;
  pp_fires : get_col Col.fires p = Some (repeat (CInt 1) (nrows f));
  pp_year : exists ys,
      get_col Col.year p = Some ys /\ year_column_of to_datetime f ys;
  pp_numeric : exists d dc i ic,
      get_col Col.deaths p = Some (map CInt d) /\
      get_col Col.deaths_child p = Some (map CInt dc) /\
      get_col Col.injuries p = Some (map CInt i) /\
      get_col Col.injuries_child p = Some (map CInt ic) /\
      get_col Col.total_deaths p = Some (map CInt (zip_add d dc)) /\
      get_col Col.total_injuries p = Some (map CInt (zip_add i ic)) /\
      (wf_frame f ->
       List.length d = nrows f /\ List.length dc = nrows f /\
       List.length i = nrows f /\ List.length ic = nrows f);
  pp_district : has_col Col.district p = true
}.

Lemma find_date_column_fires (f : frame) (c : column) :
  find_date_column (set_col Col.fires c f) = find_date_column f.
Proof.
  unfold find_date_column, date_columns; cbn [find].
  rewrite !has_set_other by names_differ; reflexivity.
Qed.

Lemma year_column_of_fires (f : frame) (c ys : column) :
  year_column_of to_datetime (set_col Col.fires c f) ys ->
  year_column_of to_datetime f ys.
Proof.
  unfold year_column_of; rewrite find_date_column_fires.
  destruct (find_date_column f) as [dc|] eqn:F; [|auto].
  intros (c0 & G & E); exists c0; split; [|exact E].
  rewrite get_set_other in G; [exact G|].
  unfold find_date_column, date_columns in F; cbn [find] in F.
  destruct (has_col (py "дата возникновения") f);
    [inversion F; subst; names_differ|].
  destruct (has_col Col.date f); [inversion F; subst; names_differ|discriminate].
Qed.

Lemma rbind_Ok {A B} (r : result A) (k : A -> result B) (b : B) :
  rbind r k = Ok b -> exists a, r = Ok a /\ k a = Ok b.
Proof. destruct r as [a|e]; simpl; [eauto | discriminate]. Qed.

Lemma preprocess_frame_spec (f p : frame) :
  preprocess_frame to_datetime f = Ok p -> preprocessed f p.
Proof.
  unfold preprocess_frame; intro H.
  set (f0 := set_scalar Col.fires (CInt 1) f) in H.
  apply rbind_Ok in H as (f1 & E1 & H).
  apply rbind_Ok in H as (f2 & E2 & H).
  apply rbind_Ok in H as (f3 & E3 & H).
  apply rbind_Ok in H as (f5 & E5 & H).
  destruct (process_dates_spec to_datetime _ _ E1)
    as ((R1 & W1 & K1) & ys & Gy & Yc).
  destruct (apply_column_mapping_spec _ _ _ E2) as (R2 & W2 & K2).
  destruct (process_numeric_frame_spec _ _ E3) as [R3 W3 Fld Td Ti K3].
  destruct (process_geodata_spec f3) as (R4 & W4 & K4).
  destruct (improve_cause_spec _ _ E5) as (R5 & W5 & K5).
  destruct (fill_text_spec _ _ _ H) as (R6 & W6 & K6).
  assert (Late : forall n,
            ~ In n [Col.lat; Col.lon] ->
            ~ In n [Col.cause_merged; Col.cause_clean] ->
            ~ In n text_columns ->
            get_col n p = get_col n f3).
  { intros n A B C; now rewrite K6, K5, K4. }
  assert (W0 : wf_frame f -> wf_frame f0) by apply wf_set_scalar.
  constructor.
  - unfold f0 in *; simpl in *; congruence.
  - tauto.
  - rewrite Late, K3 by not_in_names.
    apply K2; rewrite K1 by not_in_names.
    unfold f0, set_scalar; apply get_set_same.
  - exists ys; split.
    + rewrite Late, K3 by not_in_names; now apply K2.
    + eapply year_column_of_fires; exact Yc.
  - destruct (Fld Col.deaths) as (d & Nd & Gd); [in_names|].
    destruct (Fld Col.deaths_child) as (dc & Ndc & Gdc); [in_names|].
    destruct (Fld Col.injuries) as (i & Ni & Gi); [in_names|].
    destruct (Fld Col.injuries_child) as (ic & Nic & Gic); [in_names|].
    exists d, dc, i, ic.
    rewrite !Late by not_in_names.
    split; [exact Gd|]. split; [exact Gdc|].
    split; [exact Gi|]. split; [exact Gic|].
    split; [exact (Td _ _ Gd Gdc)|]. split; [exact (Ti _ _ Gi Gic)|].
    intro W; assert (W2' : wf_frame f2) by tauto.
    assert (R : nrows f2 = nrows f) by (unfold f0 in *; simpl in *; congruence).
    rewrite <- R; repeat split; eapply normalized_of_length; eauto.
  - apply (fill_text_has _ _ _ _ H); left; in_names.
Qed.

End Normalized.

(** ** Sample data *)

(** A conversion that accepts the cells that already hold a timestamp, as
    the date cells of a spreadsheet do, and nothing else.  It is used to
    run the pipeline on the examples below. *)
Definition only_timestamps (c : cell) : option timestamp :=
  match c with
  | CDate t => Some t
  | _ => None
  end.

Definition day (y m : Z) (text : string) : cell :=
  CDate (Timestamp y m (py text)).

(** Three incidents in two districts over 2021 and 2022, with the headers
    of the source spreadsheet. *)
Definition incidents : frame :=
  Frame 3
    [ (py "дата",
       [day 2021 3 "2021-03-01 00:00:00"; day 2021 7 "2021-07-15 00:00:00";
        day 2022 1 "2022-01-09 00:00:00"]);
      (py "муниципальный район",
       [CStr (py "Алданский"); CStr (py "Вилюйский"); CStr (py "Вилюйский")]);
      (py "погибло людей: всего", [CInt 1; CStr (py "3,0"); CNull]);
      (py "в  т.ч. погибло детей", [CInt 1; CNull; CNull]);
      (py "геоточка",
       [CStr (py "131.090314 60.465566"); CStr (py "45.0 45.0"); CNull]);
      (py "причина пожара",
       [CStr (py "короткое замыкание в проводке");
        CStr (py "дети играли со спичками"); CNull]) ].

(** Two incidents, the second without a date. *)
Definition undated : frame :=
  Frame 2
    [ (py "дата", [day 2021 3 "2021-03-01 00:00:00"; CNull]);
      (py "район", [CStr (py "Алданский"); CStr (py "Алданский")]) ].

(** Two incidents in 2021, in two districts, and one in 2020. *)
Definition two_years : frame :=
  Frame 3
    [ (py "дата",
       [day 2021 3 "2021-03-01 00:00:00"; day 2021 4 "2021-04-01 00:00:00";
        day 2020 5 "2020-05-01 00:00:00"]);
      (py "район",
       [CStr (py "Алданский"); CStr (py "Вилюйский"); CStr (py "Вилюйский")]) ].

Definition processed (f : frame) : frame :=
  result_frame (preprocess_frame only_timestamps f).

Lemma incidents_processed :
  preprocess_frame only_timestamps incidents = Ok (processed incidents).
Proof. vm_compute; reflexivity. Qed.

Lemma undated_processed :
  preprocess_frame only_timestamps undated = Ok (processed undated).
Proof. vm_compute; reflexivity. Qed.

Lemma two_years_processed :
  preprocess_frame only_timestamps two_years = Ok (processed two_years).
Proof. vm_compute; reflexivity. Qed.

Lemma incidents_wf : wf_frame incidents.
Proof. repeat constructor. Qed.

(** ** Totals *)

Lemma nth_map_CInt (zs : list Z) (i : nat) :
  (i < List.length zs)%nat -> nth i (map CInt zs) CNull = CInt (nth i zs 0%Z).
Proof.
  intro L; rewrite (nth_indep _ CNull (CInt 0)) by (rewrite length_map; lia).
  apply (map_nth CInt).
Qed.

Lemma wrap64_in_range (z : Z) : in_int64 z = true -> wrap64 z = z.
Proof.
  unfold in_int64, int64_min, int64_max, wrap64; intro H.
  apply andb_true_iff in H as [H1 H2]; apply Z.leb_le in H1, H2.
  rewrite Z.mod_small; lia.
Qed.

(** One record with the largest 64-bit number of deaths and one child
    among them. *)
Definition largest_count : frame :=
  Frame 1
    [ (Col.deaths, [CStr (py "9223372036854775807")]);
      (Col.deaths_child, [CInt 1]) ].

(** C7, as stated for all integer values, fails at the end of the 64-bit
    range: the total of 9223372036854775807 and 1 is stored as
    -9223372036854775808, not as their sum. *)
Lemma total_wraps_around :
  cell_at Col.deaths 0 (processed largest_count)
  = CInt 9223372036854775807 /\
  cell_at Col.deaths_child 0 (processed largest_count) = CInt 1 /\
  cell_at Col.total_deaths 0 (processed largest_count)
  = CInt (-9223372036854775808) /\
  cell_at Col.total_deaths 0 (processed largest_count)
  <> CInt (9223372036854775807 + 1).
Proof.
  split; [vm_compute; reflexivity|].
  split; [vm_compute; reflexivity|].
  split; [vm_compute; reflexivity|].
  vm_compute; discriminate.
Qed.

(** C7 (amended).  In the normalized frame, for every record, the four
    casualty fields are integers, [всего_погибло] is the 64-bit sum of
    [погибло] and [погибло_детей], and [всего_травмы] the 64-bit sum of
    [травмы] and [травмы_детей]: the sum itself whenever it lies within
    the 64-bit range, and the sum wrapped around otherwise. *)
Theorem totals_are_sums :
  forall to_datetime f p row,
    wf_frame f ->
    preprocess_frame to_datetime f = Ok p ->
    (row < nrows p)%nat ->
    exists d dc i ic : Z,
      cell_at Col.deaths row p = CInt d /\
      cell_at Col.deaths_child row p = CInt dc /\
      cell_at Col.injuries row p = CInt i /\
      cell_at Col.injuries_child row p = CInt ic /\
      cell_at Col.total_deaths row p = CInt (wrap64 (d + dc)) /\
      cell_at Col.total_injuries row p = CInt (wrap64 (i + ic)) /\
      (in_int64 (d + dc) = true ->
       cell_at Col.total_deaths row p = CInt (d + dc)) /\
      (in_int64 (i + ic) = true ->
       cell_at Col.total_injuries row p = CInt (i + ic)).
Proof.
  intros td f p row W P Hr.
  destruct (preprocess_frame_spec td f p P) as [R _ _ _ N _].
  destruct N as (d & dc & i & ic & Gd & Gdc & Gi & Gic & Gtd & Gti & L).
  destruct (L W) as (Ld & Ldc & Li & Lic); rewrite R in Hr.
  exists (nth row d 0%Z), (nth row dc 0%Z), (nth row i 0%Z), (nth row ic 0%Z).
  rewrite (cell_at_get _ _ _ row Gd), (cell_at_get _ _ _ row Gdc),
    (cell_at_get _ _ _ row Gi), (cell_at_get _ _ _ row Gic),
    (cell_at_get _ _ _ row Gtd), (cell_at_get _ _ _ row Gti).
  rewrite !nth_map_CInt, !zip_add_nth;
    try (erewrite zip_add_length by eassumption); try lia.
  repeat split; try reflexivity; intro H; now rewrite (wrap64_in_range _ H).
Qed.

Lemma totals_are_sums_witness :
  exists d dc i ic : Z,
    cell_at Col.deaths 0 (processed incidents) = CInt d /\
    cell_at Col.deaths_child 0 (processed incidents) = CInt dc /\
    cell_at Col.injuries 0 (processed incidents) = CInt i /\
    cell_at Col.injuries_child 0 (processed incidents) = CInt ic /\
    cell_at Col.total_deaths 0 (processed incidents) = CInt (wrap64 (d + dc)) /\
    cell_at Col.total_injuries 0 (processed incidents)
    = CInt (wrap64 (i + ic)) /\
    (in_int64 (d + dc) = true ->
     cell_at Col.total_deaths 0 (processed incidents) = CInt (d + dc)) /\
    (in_int64 (i + ic) = true ->
     cell_at Col.total_injuries 0 (processed incidents) = CInt (i + ic)).
Proof.
  apply (totals_are_sums only_timestamps incidents (processed incidents) 0%nat).
  - exact incidents_wf.
  - exact incidents_processed.
  - vm_compute; lia.
Defined.

(** The first record of the sample table: one death, a child, and a total
    of two. *)
Example totals_of_incidents :
  cell_at Col.deaths 0 (processed incidents) = CInt 1 /\
  cell_at Col.deaths_child 0 (processed incidents) = CInt 1 /\
  cell_at Col.total_deaths 0 (processed incidents) = CInt 2.
Proof. repeat split; vm_compute; reflexivity. Qed.

(** ** Groups *)

(** The number of rows held by a list of groups. *)
Definition group_rows_total (gs : list group) : nat :=
  fold_right (fun g acc => (List.length (snd g) + acc)%nat) 0%nat gs.

(** Every group has a row, and the rows of the groups satisfy [P]. *)
Definition groups_inv (P : nat -> Prop) (gs : list group) : Prop :=
  Forall (fun g => snd g <> [] /\ Forall P (snd g)) gs.

Lemma insert_row_total (k : cell) (i : nat) (gs : list group) :
  group_rows_total (insert_row k i gs) = S (group_rows_total gs).
Proof.
  induction gs as [|[k' rows] gs IH]; simpl; [reflexivity|].
  destruct (cell_compare k k'); simpl.
  - rewrite length_app; simpl; lia.
  - reflexivity.
  - rewrite IH; lia.
Qed.

Lemma insert_row_inv (P : nat -> Prop) (k : cell) (i : nat) (gs : list group) :
  P i -> groups_inv P gs -> groups_inv P (insert_row k i gs).
Proof.
  intros Pi; unfold groups_inv.
  induction 1 as [|[k' rows] gs [N F] H IH]; simpl.
  - repeat constructor; [discriminate | exact Pi].
  - destruct (cell_compare k k').
    + constructor; [|exact H]; simpl in *; split.
      * destruct rows; discriminate.
      * apply Forall_app; split; [exact F | repeat constructor; exact Pi].
    + constructor; [|constructor; [split; assumption | exact H]].
      simpl; split; [discriminate | repeat constructor; exact Pi].
    + constructor; [split; assumption | exact IH].
Qed.

Lemma groupby_rows_total_acc (keys : column) (rows : list nat)
  (acc : list group) :
  group_rows_total (fold_left (add_row keys) rows acc)
  = (List.length (filter (fun i => notna (nth i keys CNull)) rows)
     + group_rows_total acc)%nat.
Proof.
  revert acc; induction rows as [|i rows IH]; intro acc; simpl;
    [reflexivity|].
  rewrite IH; unfold add_row, notna.
  destruct (isna (nth i keys CNull)); simpl; [reflexivity|].
  rewrite insert_row_total; lia.
Qed.

Lemma groupby_rows_total (keys : column) (rows : list nat) :
  group_rows_total (groupby_rows keys rows)
  = List.length (filter (fun i => notna (nth i keys CNull)) rows).
Proof.
  unfold groupby_rows; rewrite groupby_rows_total_acc; simpl; lia.
Qed.

Lemma groupby_rows_inv_acc (P : nat -> Prop) (keys : column)
  (rows : list nat) (acc : list group) :
  Forall P rows -> groups_inv P acc ->
  groups_inv P (fold_left (add_row keys) rows acc).
Proof.
  intro F; revert acc; induction F as [|i rows Pi F IH]; intros acc A; simpl;
    [exact A|].
  apply IH; unfold add_row.
  destruct (isna (nth i keys CNull)); [exact A|].
  now apply insert_row_inv.
Qed.

Lemma groupby_rows_inv (P : nat -> Prop) (keys : column) (rows : list nat) :
  Forall P rows -> groups_inv P (groupby_rows keys rows).
Proof. intro F; apply groupby_rows_inv_acc; [exact F | constructor]. Qed.

Lemma seq_below (n : nat) : Forall (fun i => (i < n)%nat) (seq 0 n).
Proof. apply Forall_forall; intros i H; apply in_seq in H; lia. Qed.

Lemma nth_repeat_lt {A} (a d : A) (n i : nat) :
  (i < n)%nat -> nth i (repeat a n) d = a.
Proof.
  revert i; induction n as [|n IH]; intros [|i] L; simpl; try lia;
    [reflexivity|].
  apply IH; lia.
Qed.

(** On a column without missing cells, ['count'] is the group size. *)
Lemma agg_count_full (n : nat) (rows : list nat) :
  Forall (fun i => (i < n)%nat) rows ->
  agg_count (repeat (CInt 1) n) rows = Z.of_nat (List.length rows).
Proof.
  unfold agg_count; intro F; f_equal; f_equal.
  induction F as [|i rows L F IH]; simpl; [reflexivity|].
  rewrite (nth_repeat_lt _ _ _ _ L); simpl; now rewrite IH.
Qed.

Lemma filter_seq_length (p : cell -> bool) (ys : column) (start : nat) :
  List.length
    (filter (fun i => p (nth (i - start) ys CNull)) (seq start (List.length ys)))
  = List.length (filter p ys).
Proof.
  revert start; induction ys as [|y ys IH]; intro start;
    cbn [List.length seq filter]; [reflexivity|].
  rewrite Nat.sub_diag; change (nth 0 (y :: ys) CNull) with y.
  assert (E : filter (fun i => p (nth (i - start) (y :: ys) CNull))
                (seq (S start) (List.length ys))
              = filter (fun i => p (nth (i - S start) ys CNull))
                  (seq (S start) (List.length ys))).
  { apply filter_ext_in; intros i Hi; apply in_seq in Hi.
    replace (i - start)%nat with (S (i - S start)) by lia; reflexivity. }
  rewrite E; destruct (p y); cbn [List.length]; now rewrite IH.
Qed.

Lemma filter_rows_length (p : cell -> bool) (ys : column) :
  List.length (filter (fun i => p (nth i ys CNull)) (seq 0 (List.length ys)))
  = List.length (filter p ys).
Proof.
  rewrite <- (filter_seq_length p ys 0); f_equal.
  apply filter_ext; intro i; now rewrite Nat.sub_0_r.
Qed.

(** Summing the counts of the groups of a normalized frame counts the
    rows whose key is present. *)
Lemma sum_counts_groups (n : nat) (gs : list group) :
  groups_inv (fun i => (i < n)%nat) gs ->
  fold_right (fun g acc => (agg_count (repeat (CInt 1) n) (snd g) + acc)%Z)
    0%Z gs
  = Z.of_nat (group_rows_total gs).
Proof.
  induction 1 as [|g gs [_ F] H IH]; simpl; [reflexivity|].
  rewrite IH, (agg_count_full _ _ F); lia.
Qed.

Lemma groups_count_positive (n : nat) (gs : list group) :
  groups_inv (fun i => (i < n)%nat) gs ->
  Forall (fun g => (1 <= agg_count (repeat (CInt 1) n) (snd g))%Z) gs.
Proof.
  intro H; eapply Forall_impl; [|exact H]; simpl.
  intros g [N F]; rewrite (agg_count_full _ _ F).
  destruct (snd g); [contradiction | simpl; lia].
Qed.

(** ** Aggregation by year *)

Lemma year_column_length (td : cell -> option timestamp) (f : frame)
  (ys : column) :
  wf_frame f -> year_column_of td f ys -> List.length ys = nrows f.
Proof.
  unfold year_column_of; intros W.
  destruct (find_date_column f).
  - intros (c & G & ->); rewrite length_map; eapply wf_get; eauto.
  - intros ->; apply repeat_length.
Qed.

(** The table of [agg_stats] on a normalized frame. *)
Lemma agg_stats_preprocessed (td : cell -> option timestamp) (f p : frame)
  (key : str) (keys : column) :
  preprocessed td f p ->
  get_col key p = Some keys ->
  exists mk : group -> group_stats,
    agg_stats key p = Ok (map mk (groupby keys)) /\
    forall g, g_key (mk g) = fst g /\
              g_fires (mk g) = agg_count (repeat (CInt 1) (nrows f)) (snd g).
Proof.
  intros [_ _ Gf _ N _] Gk.
  destruct N as (d & dc & i & ic & _ & Gdc & _ & Gic & Gtd & Gti & _).
  unfold agg_stats, getitem.
  rewrite Gk, Gf, Gtd, Gti, Gdc, Gic; simpl.
  eexists; split; [reflexivity|].
  intro g; split; reflexivity.
Qed.

Lemma sum_fires_map (mk : group -> group_stats) (c : column)
  (gs : list group) :
  (forall g, g_fires (mk g) = agg_count c (snd g)) ->
  sum_fires (map mk gs)
  = fold_right (fun g acc => (agg_count c (snd g) + acc)%Z) 0%Z gs.
Proof.
  intro E; induction gs as [|g gs IH]; simpl; [reflexivity|].
  now rewrite E, IH.
Qed.

Lemma groupby_inv (n : nat) (keys : column) :
  List.length keys = n -> groups_inv (fun i => (i < n)%nat) (groupby keys).
Proof. intros <-; apply groupby_rows_inv, seq_below. Qed.

Lemma filter_all {A} (p : A -> bool) (l : list A) :
  forallb p l = true -> filter p l = l.
Proof.
  induction l as [|a l IH]; simpl; [reflexivity|].
  intro H; apply andb_true_iff in H as [H1 H2]; now rewrite H1, IH.
Qed.

(** C4, as stated, fails: a record whose date is missing has no year and
    belongs to no group, so the per-year counts sum to less than the number
    of records. *)
Lemma undated_record_not_counted :
  exists yearly,
    analyze_fire_trends (processed undated) = Ok (Some yearly) /\
    sum_fires yearly = 1%Z /\
    nrows (processed undated) = 2%nat.
Proof.
  eexists; split; [vm_compute; reflexivity|].
  split; vm_compute; reflexivity.
Qed.

(** C4 (amended).  Aggregation by year counts the records whose year is
    known: the per-year counts sum to the number of records with a year.
    The sum is the total number of records when the frame has no date
    column (the year 2023 is injected for every record) and when every
    date was read; a record whose date is missing or was not read is in no
    year group. *)
Theorem yearly_counts_cover_dated_records :
  forall to_datetime f p,
    wf_frame f ->
    preprocess_frame to_datetime f = Ok p ->
    exists yearly years,
      analyze_fire_trends p = Ok (Some yearly) /\
      get_col Col.year p = Some years /\
      sum_fires yearly = Z.of_nat (List.length (filter notna years)) /\
      (find_date_column f = None -> sum_fires yearly = Z.of_nat (nrows p)) /\
      (forallb notna years = true -> sum_fires yearly = Z.of_nat (nrows p)).
Proof.
  intros td f p W P.
  pose proof (preprocess_frame_spec td f p P) as PP.
  destruct (pp_year _ _ _ PP) as (years & Gy & Yc).
  pose proof (year_column_length td f years W Yc) as Ly.
  destruct (agg_stats_preprocessed td f p Col.year years PP Gy)
    as (mk & A & Mk).
  assert (S : sum_fires (map mk (groupby years))
              = Z.of_nat (List.length (filter notna years))).
  { rewrite (sum_fires_map mk (repeat (CInt 1) (nrows f)))
      by (intro g; apply Mk).
    rewrite (sum_counts_groups (nrows f)) by (now apply groupby_inv).
    unfold groupby; now rewrite groupby_rows_total, filter_rows_length. }
  exists (map mk (groupby years)), years.
  split.
  { unfold analyze_fire_trends; rewrite has_col_assoc, Gy, A; reflexivity. }
  split; [exact Gy|]. split; [exact S|].
  rewrite S, (pp_rows _ _ _ PP); split.
  - intro None_; unfold year_column_of in Yc; rewrite None_ in Yc; subst years.
    rewrite filter_all, repeat_length; [reflexivity|].
    clear; induction (nrows f); simpl; auto.
  - intro All; now rewrite (filter_all _ _ All), Ly.
Qed.

Lemma yearly_counts_cover_dated_records_witness :
  exists yearly years,
    analyze_fire_trends (processed incidents) = Ok (Some yearly) /\
    get_col Col.year (processed incidents) = Some years /\
    sum_fires yearly = Z.of_nat (List.length (filter notna years)) /\
    (find_date_column incidents = None ->
     sum_fires yearly = Z.of_nat (nrows (processed incidents))) /\
    (forallb notna years = true ->
     sum_fires yearly = Z.of_nat (nrows (processed incidents))).
Proof.
  apply (yearly_counts_cover_dated_records only_timestamps incidents
           (processed incidents)).
  - exact incidents_wf.
  - exact incidents_processed.
Defined.

(** ** The keys of a grouping by year *)

(** Sorted insertion without duplicates: what [insert_row] does to the
    keys when they are integers. *)
Fixpoint insert_Z (z : Z) (ks : list Z) : list Z :=
  match ks with
  | [] => [z]
  | k :: rest =>
      match (z ?= k)%Z with
      | Lt => z :: ks
      | Eq => ks
      | Gt => k :: insert_Z z rest
      end
  end.

Definition int_or_null (c : cell) : Prop := c = CNull \/ exists z, c = CInt z.

Lemma insert_row_int_keys (z : Z) (i : nat) (gs : list group) (ks : list Z) :
  map fst gs = map CInt ks ->
  map fst (insert_row (CInt z) i gs) = map CInt (insert_Z z ks).
Proof.
  revert ks; induction gs as [|[k rows] gs IH]; intros [|k0 ks]; simpl;
    try discriminate; [reflexivity|].
  intro H; inversion H; subst k; simpl.
  destruct (z ?= k0)%Z; simpl; f_equal; auto.
Qed.

Lemma insert_Z_In (x z : Z) (ks : list Z) :
  In x (insert_Z z ks) <-> x = z \/ In x ks.
Proof.
  induction ks as [|k ks IH]; simpl; [intuition|].
  destruct (Z.compare_spec z k); simpl; rewrite ?IH; intuition (subst; auto).
Qed.

Lemma insert_Z_sorted (z : Z) (ks : list Z) :
  Sorted Z.lt ks -> Sorted Z.lt (insert_Z z ks).
Proof.
  induction 1 as [|k ks S IH Hd]; simpl; [repeat constructor|].
  destruct (Z.compare_spec z k).
  - now constructor.
  - constructor; [now constructor | now constructor].
  - constructor; [exact IH|].
    destruct Hd as [|k' ks' L]; simpl; [now constructor|].
    destruct (z ?= k')%Z; now constructor.
Qed.

Lemma Forall_nth_default {A} (P : A -> Prop) (l : list A) (d : A) (i : nat) :
  Forall P l -> P d -> P (nth i l d).
Proof.
  intros F Pd; revert i; induction F as [|a l Pa F IH]; intros [|i]; simpl;
    auto.
Qed.

Lemma groupby_rows_int_keys (keys : column) (rows : list nat) :
  Forall int_or_null keys ->
  forall (acc : list group) (ks0 : list Z),
    map fst acc = map CInt ks0 -> Sorted Z.lt ks0 ->
    exists ks,
      map fst (fold_left (add_row keys) rows acc) = map CInt ks /\
      Sorted Z.lt ks /\
      (forall z, In z ks <->
                 In z ks0 \/ exists i, In i rows /\ nth i keys CNull = CInt z).
Proof.
  intro F; induction rows as [|i rows IH]; intros acc ks0 E S; simpl.
  - exists ks0; split; [exact E|]; split; [exact S|].
    intro z; split; [tauto|].
    intros [H|(i & [] & _)]; exact H.
  - unfold add_row at 2.
    destruct (Forall_nth_default int_or_null keys CNull i F (or_introl eq_refl))
      as [N|(z0 & N)]; rewrite N; simpl.
    + destruct (IH acc ks0 E S) as (ks & E' & S' & I').
      exists ks; split; [exact E'|]; split; [exact S'|].
      intro z; rewrite I'; split; intros [H|(j & Hj & Nj)]; auto.
      * right; exists j; auto.
      * destruct Hj as [<-|Hj]; [congruence|]; right; exists j; auto.
    + destruct (IH (insert_row (CInt z0) i acc) (insert_Z z0 ks0)
                  (insert_row_int_keys z0 i acc ks0 E)
                  (insert_Z_sorted z0 ks0 S)) as (ks & E' & S' & I').
      exists ks; split; [exact E'|]; split; [exact S'|].
      intro z; rewrite I', insert_Z_In; split.
      * intros [[->|H]|(j & Hj & Nj)]; auto.
        -- right; exists i; auto.
        -- right; exists j; auto.
      * intros [H|(j & [<-|Hj] & Nj)]; auto.
        -- left; left; congruence.
        -- right; exists j; auto.
Qed.

(** The groups of a column of years: one per distinct year present, in
    increasing order. *)
Lemma groupby_years (years : column) :
  Forall int_or_null years ->
  exists ks,
    map fst (groupby years) = map CInt ks /\
    Sorted Z.lt ks /\
    (forall z, In z ks <-> In (CInt z) years).
Proof.
  intro F.
  destruct (groupby_rows_int_keys years (seq 0 (List.length years)) F [] []
              eq_refl (Sorted_nil _)) as (ks & E & S & I).
  exists ks; split; [exact E|]; split; [exact S|].
  intro z; rewrite I; split.
  - intros [[]|(i & Hi & N)]; apply in_seq in Hi.
    rewrite <- N; apply nth_In; lia.
  - intro H; right; destruct (In_nth _ _ CNull H) as (i & L & N).
    exists i; split; [apply in_seq; lia | exact N].
Qed.

Lemma year_cells (td : cell -> option timestamp) (f : frame) (ys : column) :
  year_column_of td f ys -> Forall int_or_null ys.
Proof.
  unfold year_column_of; destruct (find_date_column f).
  - intros (c & _ & ->); apply Forall_forall; intros x H.
    apply in_map_iff in H as (y & <- & _).
    unfold dt_year, int_or_null; destruct (td y); eauto.
  - intros ->; apply Forall_forall; intros x H.
    apply repeat_spec in H; subst; right; eauto.
Qed.

(** ** Counts are never zero *)

Lemma is_zero_inject (z : Z) : X.is_zero (inject_Z z) = (z =? 0)%Z.
Proof.
  unfold X.is_zero; destruct (Z.eqb_spec z 0) as [->|N]; [reflexivity|].
  destruct (Qeq_bool (inject_Z z) 0) eqn:E; [|reflexivity].
  apply Qeq_bool_eq in E; unfold Qeq in E; simpl in E; lia.
Qed.

Lemma div_by_count (a b : Z) :
  (1 <= b)%Z ->
  X.div (X.of_Z a) (X.of_Z b) = XFin (inject_Z a / inject_Z b).
Proof.
  intro H; unfold X.div, X.of_Z; rewrite is_zero_inject.
  destruct (Z.eqb_spec b 0); [lia | reflexivity].
Qed.

Lemma yearly_counts_positive (n : nat) (years : column) :
  List.length years = n ->
  Forall (fun c => (1 <= c)%Z) (yearly_counts years (repeat (CInt 1) n)).
Proof.
  intro L; unfold yearly_counts; apply Forall_map.
  apply groups_count_positive, groupby_inv, L.
Qed.

Lemma predict_preprocessed (td : cell -> option timestamp) (f p : frame) :
  wf_frame f -> preprocessed td f p ->
  exists years,
    get_col Col.year p = Some years /\
    Forall int_or_null years /\
    List.length years = nrows p /\
    predict_fire_trend p
    = Ok (trend_of_counts (yearly_counts years (repeat (CInt 1) (nrows p)))).
Proof.
  intros W PP; destruct (pp_year _ _ _ PP) as (years & Gy & Yc).
  exists years; split; [exact Gy|].
  split; [eapply year_cells; eauto|].
  rewrite (pp_rows _ _ _ PP).
  split; [eapply year_column_length; eauto|].
  unfold predict_fire_trend, getitem.
  rewrite has_col_assoc, Gy, (pp_fires _ _ _ PP); reflexivity.
Qed.

Lemma trend_report_inv (counts : list Z) (dir : direction) (change : xfloat)
  (pred : option forecast) :
  Forall (fun c => (1 <= c)%Z) counts ->
  trend_of_counts counts = TrendReport dir change pred ->
  let n := List.length counts in
  let current := nth (n - 1) counts 0%Z in
  let previous := nth (n - 2) counts 0%Z in
  (2 <= n)%nat /\ (1 <= previous)%Z /\ (1 <= current)%Z /\
  dir = (if (current >? previous)%Z then Rising else Falling) /\
  change
  = XFin (inject_Z (current - previous) / inject_Z previous * inject_Z 100).
Proof.
  intros F; unfold trend_of_counts; cbv zeta.
  destruct (Nat.ltb_spec 1 (List.length counts)) as [L|L]; [|discriminate].
  assert (P : forall i, (i < List.length counts)%nat ->
                        (1 <= nth i counts 0)%Z).
  { intros i Hi; rewrite Forall_forall in F; apply F, nth_In, Hi. }
  assert (P1 := P (List.length counts - 1)%nat ltac:(lia)).
  assert (P2 := P (List.length counts - 2)%nat ltac:(lia)).
  rewrite (div_by_count _ _ P2).
  intro H; injection H as H1 H2 _; subst dir change.
  split; [lia|]. split; [exact P2|]. split; [exact P1|].
  split; reflexivity.
Qed.

(** C10.  Every record of the normalized frame carries the fire count 1;
    every group of a count aggregation therefore counts at least 1, and
    the previous-year count by which [predict_fire_trend] divides is at
    least 1, so that the percentage change is a finite number. *)
Theorem fire_count_never_zero :
  forall to_datetime f p,
    wf_frame f ->
    preprocess_frame to_datetime f = Ok p ->
    (forall row, (row < nrows p)%nat -> cell_at Col.fires row p = CInt 1) /\
    (forall key stats,
        agg_stats key p = Ok stats ->
        Forall (fun g => (1 <= g_fires g)%Z) stats) /\
    (forall dir change pred,
        predict_fire_trend p = Ok (TrendReport dir change pred) ->
        exists current previous : Z,
          (1 <= previous)%Z /\
          change
          = XFin (inject_Z (current - previous) / inject_Z previous
                  * inject_Z 100)).
Proof.
  intros td f p W P.
  pose proof (preprocess_frame_spec td f p P) as PP.
  pose proof (pp_rows _ _ _ PP) as R.
  split; [|split].
  - intros row Hr; rewrite (cell_at_get _ _ _ row (pp_fires _ _ _ PP)).
    apply nth_repeat_lt; lia.
  - intros key stats A.
    destruct (get_col key p) as [keys|] eqn:Gk;
      [|unfold agg_stats, getitem in A; rewrite Gk in A; discriminate].
    destruct (agg_stats_preprocessed td f p key keys PP Gk) as (mk & A' & Mk).
    rewrite A' in A; inversion A; subst stats; clear A.
    apply Forall_map.
    assert (L : List.length keys = nrows f)
      by (rewrite <- R; eapply wf_get; [apply (pp_wf _ _ _ PP W) | eauto]).
    eapply Forall_impl; [|apply (groups_count_positive (nrows f)),
                           groupby_inv, L].
    intros g H; simpl; now rewrite (proj2 (Mk g)).
  - intros dir change pred T.
    destruct (predict_preprocessed td f p W PP) as (years & _ & _ & L & E).
    rewrite E in T; inversion T as [T']; clear T.
    destruct (trend_report_inv _ _ _ _ (yearly_counts_positive _ _ L) T')
      as (_ & P2 & _ & _ & C).
    eexists _, _; split; [exact P2 | exact C].
Qed.

Lemma fire_count_never_zero_witness :
  (forall row, (row < nrows (processed incidents))%nat ->
               cell_at Col.fires row (processed incidents) = CInt 1) /\
  (forall key stats,
      agg_stats key (processed incidents) = Ok stats ->
      Forall (fun g => (1 <= g_fires g)%Z) stats) /\
  (forall dir change pred,
      predict_fire_trend (processed incidents)
      = Ok (TrendReport dir change pred) ->
      exists current previous : Z,
        (1 <= previous)%Z /\
        change
        = XFin (inject_Z (current - previous) / inject_Z previous
                * inject_Z 100)).
Proof.
  apply (fire_count_never_zero only_timestamps incidents (processed incidents)).
  - exact incidents_wf.
  - exact incidents_processed.
Defined.

(** ** The trend projection *)





















(** ** The year-over-year comparison *)

Lemma text_compare_refl (s : str) : Text.compare s s = Eq.
Proof.
  induction s as [|c s IH]; simpl; [reflexivity|].
  now rewrite N.compare_refl.
Qed.

Lemma cell_compare_refl (c : cell) : cell_compare c c = Eq.
Proof.
  destruct c as [|z|d|s|t]; simpl.
  - reflexivity.
  - apply Z.compare_refl.
  - apply Z.compare_refl.
  - apply text_compare_refl.
  - now rewrite !Z.compare_refl, text_compare_refl.
Qed.

Lemma insert_key_In (x k : cell) (ks : list cell) :
  In x (insert_key k ks) -> x = k \/ In x ks.
Proof.
  induction ks as [|k' ks IH]; simpl; [intuition auto|].
  destruct (cell_compare k k'); simpl; intuition auto.
Qed.

Lemma union_keys_In (x : cell) (a b : list cell) :
  In x (union_keys a b) -> In x a \/ In x b.
Proof.
  unfold union_keys.
  assert (G : forall l acc,
            In x (fold_left (fun acc k => insert_key k acc) l acc) ->
            In x acc \/ In x l).
  { induction l as [|k l IH]; simpl; intros acc H; [tauto|].
    destruct (IH _ H) as [H'|H']; [|tauto].
    apply insert_key_In in H'; intuition auto. }
  intro H; destruct (G _ _ H) as [[]|H']; now apply in_app_or.
Qed.

Lemma lookup_totals_found (k : cell) (t : list district_totals) :
  In k (map d_key t) ->
  exists d, lookup_totals k t = Some d /\ In d t.
Proof.
  unfold lookup_totals; induction t as [|d t IH]; simpl; [tauto|].
  intros [<-|H].
  - rewrite cell_compare_refl; eauto.
  - destruct (cell_compare k (d_key d)); eauto;
      destruct (IH H) as (d' & E & I); eauto.
Qed.

Lemma rows_of_year_below (years : column) (y : Z) :
  Forall (fun i => (i < List.length years)%nat) (rows_of_year years y).
Proof.
  apply Forall_forall; intros i H; unfold rows_of_year in H.
  apply filter_In in H as [H _]; apply in_seq in H; lia.
Qed.

Lemma totals_positive (n : nat) (districts deaths injuries : column)
  (rows : list nat) :
  Forall (fun i => (i < n)%nat) rows ->
  Forall (fun d => (1 <= d_fires d)%Z)
    (totals_by_district districts (repeat (CInt 1) n) deaths injuries rows).
Proof.
  intro F; unfold totals_by_district; apply Forall_map.
  eapply Forall_impl;
    [|apply (groups_count_positive n), groupby_rows_inv, F].
  intros g H; exact H.
Qed.

Lemma is_neg_inject (z : Z) : X.is_neg (inject_Z z) = (z <? 0)%Z.
Proof.
  unfold X.is_neg, Qle_bool; simpl; rewrite Z.mul_1_r.
  destruct (Z.leb_spec 0 z); destruct (Z.ltb_spec z 0); simpl; auto; lia.
Qed.

(** Dividing a positive change by a zero count gives plus infinity, and
    the percentage stays there. *)
Lemma pct_of_zero_prior (c : Z) :
  (1 <= c)%Z ->
  X.round1 (X.mul (X.div (X.of_Z (c - 0)) (X.of_Z 0)) (X.of_Z 100))
  = XInf false.
Proof.
  intro H; unfold X.div, X.of_Z.
  rewrite !is_zero_inject, is_neg_inject.
  destruct (Z.eqb_spec (c - 0) 0); [lia|].
  destruct (Z.ltb_spec (c - 0) 0); [lia|]; reflexivity.
Qed.

Lemma compare_district_zero_prior
  (current_data previous_data : list district_totals) (k : cell) :
  Forall (fun d => (1 <= d_fires d)%Z) current_data ->
  Forall (fun d => (1 <= d_fires d)%Z) previous_data ->
  In k (union_keys (map d_key current_data) (map d_key previous_data)) ->
  let r := compare_district current_data previous_data k in
  prev_fires r = 0%Z ->
  (1 <= cur_fires r)%Z /\ change_fires_pct r = XInf false.
Proof.
  intros Fc Fp Hk r Z0; subst r; simpl in *; unfold aligned in *.
  apply union_keys_In in Hk as [Hk|Hk].
  - destruct (lookup_totals_found _ _ Hk) as (d & E & I); rewrite E.
    rewrite Forall_forall in Fc; specialize (Fc d I).
    split; [exact Fc|].
    rewrite Z0; now apply pct_of_zero_prior.
  - destruct (lookup_totals_found _ _ Hk) as (d & E & I); rewrite E in Z0.
    rewrite Forall_forall in Fp; specialize (Fp d I); lia.
Qed.

(** C5, as stated, fails in its second half: for a district with
    incidents in the last year and none in the year before, the percentage
    change is the float plus infinity, a value and not the missing-value
    marker. *)
Lemma zero_prior_year_gives_infinity :
  exists rows r,
    analyze_comparison (processed two_years) = Ok (ComparisonTable 2021 rows) /\
    In r rows /\
    c_key r = CStr (py "Алданский") /\
    prev_fires r = 0%Z /\
    change_fires_pct r = XInf false /\
    change_fires_pct r <> XNaN.
Proof.
  eexists _, _; split; [vm_compute; reflexivity|].
  split; [left; reflexivity|].
  repeat split; discriminate.
Qed.

(** C5 (amended).  The year-over-year comparison never raises.  When no
    record falls in the prior year ([max_year - 1]) it reports
    insufficient data and computes no percentage.  Otherwise a district
    listed with zero incidents in the prior year has at least one in the
    last year, and its percentage change is plus infinity: the result of
    the float division by zero, not a marker of an unavailable value. *)
Theorem comparison_zero_prior_year :
  forall to_datetime f p,
    wf_frame f ->
    preprocess_frame to_datetime f = Ok p ->
    exists report,
      analyze_comparison p = Ok report /\
      (forall years y,
          get_col Col.year p = Some years ->
          col_max years = Some y ->
          rows_of_year years (y - 1) = [] ->
          report = ComparisonInsufficient) /\
      (forall y rows r,
          report = ComparisonTable y rows ->
          In r rows ->
          prev_fires r = 0%Z ->
          (1 <= cur_fires r)%Z /\ change_fires_pct r = XInf false).
Proof.
  intros td f p W P.
  pose proof (preprocess_frame_spec td f p P) as PP.
  destruct (pp_year _ _ _ PP) as (years & Gy & Yc).
  destruct (getitem_has _ _ (pp_district _ _ _ PP)) as (ds & _ & Gd).
  destruct (pp_numeric _ _ _ PP)
    as (d & dc & i & ic & Gde & _ & Gi & _ & _ & _ & _).
  pose proof (year_column_length td f years W Yc) as Ly.
  rewrite <- (pp_rows _ _ _ PP) in Ly.
  unfold analyze_comparison, getitem.
  rewrite (pp_district _ _ _ PP), has_col_assoc, Gy, Gd, Gde, Gi.
  rewrite (pp_fires _ _ _ PP), <- (pp_rows _ _ _ PP); simpl.
  destruct (col_max years) as [y|] eqn:M.
  2:{ eexists; split; [reflexivity|]; split; [reflexivity|].
      intros; discriminate. }
  cbv zeta.
  set (fires := repeat (CInt 1) (nrows p)).
  assert (Fc : Forall (fun t => (1 <= d_fires t)%Z)
                 (totals_by_district ds fires (map CInt d) (map CInt i)
                    (rows_of_year years y)))
    by (apply totals_positive; rewrite <- Ly; apply rows_of_year_below).
  assert (Fp : Forall (fun t => (1 <= d_fires t)%Z)
                 (totals_by_district ds fires (map CInt d) (map CInt i)
                    (rows_of_year years (y - 1))))
    by (apply totals_positive; rewrite <- Ly; apply rows_of_year_below).
  assert (Empty : rows_of_year years (y - 1) = [] ->
                  totals_by_district ds fires (map CInt d) (map CInt i)
                    (rows_of_year years (y - 1)) = [])
    by (intros ->; reflexivity).
  destruct (totals_by_district ds fires (map CInt d) (map CInt i)
              (rows_of_year years y)) as [|c0 cur] eqn:Ec.
  { eexists; split; [reflexivity|]; split; [reflexivity|].
    intros; discriminate. }
  destruct (totals_by_district ds fires (map CInt d) (map CInt i)
              (rows_of_year years (y - 1))) as [|p0 prev] eqn:Ep.
  { eexists; split; [reflexivity|]; split; [reflexivity|].
    intros; discriminate. }
  eexists; split; [reflexivity|]; split.
  - intros years' y' Gy' M' E; exfalso.
    inversion Gy'; subst years'.
    pose proof (eq_trans (eq_sym M) M') as Em; inversion Em; subst y'.
    specialize (Empty E); discriminate.
  - intros y' rows r E Hr Z0; inversion E; subst y' rows; clear E.
    apply in_map_iff in Hr as (k & <- & Hk).
    now apply compare_district_zero_prior.
Qed.

Lemma comparison_zero_prior_year_witness :
  exists report,
    analyze_comparison (processed two_years) = Ok report /\
    (forall years y,
        get_col Col.year (processed two_years) = Some years ->
        col_max years = Some y ->
        rows_of_year years (y - 1) = [] ->
        report = ComparisonInsufficient) /\
    (forall y rows r,
        report = ComparisonTable y rows ->
        In r rows ->
        prev_fires r = 0%Z ->
        (1 <= cur_fires r)%Z /\ change_fires_pct r = XInf false).
Proof.
  apply (comparison_zero_prior_year only_timestamps two_years
           (processed two_years)).
  - repeat constructor.
  - exact two_years_processed.
Defined.

(** ** Rankings *)

Lemma map_nth_seq_offset {A} (l : list A) (d : A) (s : nat) :
  map (fun i => nth (i - s) l d) (seq s (List.length l)) = l.
Proof.
  revert s; induction l as [|a l IH]; intro s; cbn [List.length seq map];
    [reflexivity|].
  rewrite Nat.sub_diag; change (nth 0 (a :: l) d) with a; f_equal.
  transitivity (map (fun i => nth (i - S s) l d) (seq (S s) (List.length l)));
    [|apply IH].
  apply map_ext_in; intros i Hi; apply in_seq in Hi.
  replace (i - s)%nat with (S (i - S s)) by lia; reflexivity.
Qed.

Lemma map_nth_seq {A} (l : list A) (d : A) :
  map (fun i => nth i l d) (seq 0 (List.length l)) = l.
Proof.
  transitivity (map (fun i => nth (i - 0) l d) (seq 0 (List.length l)));
    [|apply map_nth_seq_offset].
  apply map_ext; intro i; now rewrite Nat.sub_0_r.
Qed.

Lemma take_rows_nth {A} (t : list A) (d : A) (indexer : list nat) :
  Forall (fun i => (i < List.length t)%nat) indexer ->
  take_rows t indexer = map (fun i => nth i t d) indexer.
Proof.
  induction 1 as [|i l Hi F IH]; [reflexivity|].
  unfold take_rows in *; cbn [flat_map map]; rewrite IH.
  destruct (nth_error t i) as [x|] eqn:E.
  - now rewrite (nth_error_nth _ _ d E).
  - apply nth_error_None in E; lia.
Qed.

Lemma perm_seq_below (l : list nat) (n : nat) :
  Permutation l (seq 0 n) -> Forall (fun i => (i < n)%nat) l.
Proof.
  intro P; apply Forall_forall; intros i Hi.
  apply (Permutation_in _ P), in_seq in Hi; lia.
Qed.

Lemma take_rows_perm {A} (t : list A) (indexer : list nat) :
  Permutation indexer (seq 0 (List.length t)) ->
  Permutation (take_rows t indexer) t.
Proof.
  intro P; destruct t as [|d t'] eqn:E.
  - apply Permutation_sym, Permutation_nil in P; subst; constructor.
  - rewrite <- E in *.
    rewrite (take_rows_nth t d indexer (perm_seq_below _ _ P)).
    apply (Permutation_map (fun i => nth i t d)) in P.
    now rewrite map_nth_seq in P.
Qed.

Lemma strongly_sorted_snoc {A} (R : A -> A -> Prop) (l : list A) (a : A) :
  StronglySorted R l -> Forall (fun x => R x a) l ->
  StronglySorted R (l ++ [a]).
Proof.
  induction 1 as [|x l S IH F]; intro Fa; simpl.
  - repeat constructor.
  - inversion Fa; subst; constructor; [auto|].
    apply Forall_app; split; [exact F | repeat constructor; assumption].
Qed.

Lemma strongly_sorted_rev {A} (R : A -> A -> Prop) (l : list A) :
  StronglySorted R l -> StronglySorted (fun x y => R y x) (rev l).
Proof.
  induction 1 as [|x l S IH F]; simpl; [constructor|].
  apply strongly_sorted_snoc; [exact IH | now apply Forall_rev].
Qed.

(** Each item is at least every later one. *)
Definition descending (l : list Z) : Prop :=
  StronglySorted (fun a b => (b <= a)%Z) l.

(** [nargsort] with [ascending=False] returns a permutation of the
    positions that puts the items in descending order, whatever the sort
    does with equal items. *)
Lemma nargsort_desc_spec (argsort : list Z -> list nat) (items : list Z) :
  argsort_ok argsort ->
  Permutation (nargsort_desc argsort items) (seq 0 (List.length items)) /\
  descending (map (fun i => nth i items 0%Z) (nargsort_desc argsort items)).
Proof.
  intro Ok; destruct (Ok (rev items)) as [P S]; rewrite length_rev in P.
  unfold nargsort_desc; cbv zeta.
  set (n := List.length items) in *.
  set (g := fun j => nth j (rev (seq 0 n)) 0%nat).
  assert (B : Forall (fun j => (j < n)%nat) (argsort (rev items)))
    by now apply perm_seq_below.
  split.
  - rewrite <- Permutation_rev.
    transitivity (map g (seq 0 n)); [now apply Permutation_map|].
    pose proof (map_nth_seq (rev (seq 0 n)) 0%nat) as M.
    rewrite length_rev, length_seq in M; fold g in M; rewrite M.
    apply Permutation_sym, Permutation_rev.
  - rewrite map_rev, map_map.
    apply (strongly_sorted_rev Z.le).
    apply Sorted_StronglySorted; [intros x y z; apply Z.le_trans|].
    erewrite map_ext_in; [exact S|].
    intros j Hj; rewrite Forall_forall in B; specialize (B j Hj).
    unfold g; rewrite rev_nth, length_seq, seq_nth by (rewrite ?length_seq; lia).
    rewrite rev_nth by (fold n; lia); fold n; simpl.
    f_equal; lia.
Qed.

Lemma map_take_rows {A B} (g : A -> B) (t : list A) (db : B)
  (indexer : list nat) :
  Forall (fun i => (i < List.length t)%nat) indexer ->
  map g (take_rows t indexer) = map (fun i => nth i (map g t) db) indexer.
Proof.
  induction 1 as [|i l Hi F IH]; [reflexivity|].
  unfold take_rows in *; cbn [flat_map map]; rewrite map_app, IH.
  destruct (nth_error t i) as [x|] eqn:E.
  - now rewrite (nth_error_nth _ _ db (map_nth_error g _ _ E)).
  - apply nth_error_None in E; lia.
Qed.

Lemma sort_values_desc_spec (argsort : list Z -> list nat)
  (t : list group_stats) :
  argsort_ok argsort ->
  Permutation t (sort_values_desc argsort t) /\
  descending (map g_fires (sort_values_desc argsort t)).
Proof.
  intro Ok; unfold sort_values_desc.
  destruct (nargsort_desc_spec argsort (map g_fires t) Ok) as [P S].
  rewrite length_map in P; split.
  - now apply Permutation_sym, take_rows_perm.
  - now rewrite (map_take_rows g_fires t 0%Z _ (perm_seq_below _ _ P)).
Qed.

(** *** The two insertion sorts keep the promise of [argsort] *)

Section InsertionSorts.

Variable before : Z -> Z -> bool.
Hypothesis before_le : forall a b, before a b = true -> (a <= b)%Z.
Hypothesis not_before_ge : forall a b, before a b = false -> (b <= a)%Z.

Definition by_value (p q : nat * Z) : Prop := (snd p <= snd q)%Z.

Lemma insert_by_perm (x : nat * Z) (l : list (nat * Z)) :
  Permutation (insert_by before x l) (x :: l).
Proof.
  induction l as [|y l IH]; simpl; [reflexivity|].
  destruct (before (snd x) (snd y)); [reflexivity|].
  rewrite IH; apply perm_swap.
Qed.

Lemma insert_by_sorted (x : nat * Z) (l : list (nat * Z)) :
  Sorted by_value l -> Sorted by_value (insert_by before x l).
Proof.
  induction 1 as [|y l S IH Hd]; simpl; [repeat constructor|].
  destruct (before (snd x) (snd y)) eqn:E.
  - constructor; [now constructor|].
    constructor; now apply before_le.
  - constructor; [exact IH|].
    apply not_before_ge in E.
    destruct Hd as [|z l' L]; simpl; [now constructor|].
    destruct (before (snd x) (snd z)); now constructor.
Qed.

Lemma sort_pairs_spec (l : list (nat * Z)) :
  Permutation (fold_right (insert_by before) [] l) l /\
  Sorted by_value (fold_right (insert_by before) [] l).
Proof.
  induction l as [|x l [P S]]; simpl; [split; constructor|].
  split; [|now apply insert_by_sorted].
  rewrite insert_by_perm; now constructor.
Qed.

Lemma indexed_fst (items : list Z) :
  map fst (indexed items) = seq 0 (List.length items).
Proof.
  unfold indexed; generalize 0%nat.
  induction items as [|a items IH]; intro s; simpl; [reflexivity|].
  now rewrite IH.
Qed.

Lemma indexed_values (items : list Z) :
  Forall (fun p => nth (fst p) items 0%Z = snd p) (indexed items).
Proof.
  unfold indexed.
  assert (G : forall s,
            Forall (fun p => nth (fst p - s) items 0%Z = snd p)
              (combine (seq s (List.length items)) items)).
  { induction items as [|a items IH]; intro s; simpl; constructor.
    - simpl; now rewrite Nat.sub_diag.
    - specialize (IH (S s)); rewrite Forall_forall in *.
      intros [i v] H; specialize (IH _ H); simpl in *.
      apply in_combine_l, in_seq in H.
      replace (i - s)%nat with (S (i - S s)) by lia; exact IH. }
  specialize (G 0%nat); eapply Forall_impl; [|exact G].
  intros [i v]; simpl; now rewrite Nat.sub_0_r.
Qed.

Lemma sorted_map_snd (l : list (nat * Z)) :
  Sorted by_value l -> Sorted Z.le (map snd l).
Proof.
  induction 1 as [|y l S IH Hd]; simpl; constructor; [exact IH|].
  destruct Hd; simpl; now constructor.
Qed.

Lemma argsort_by_ok : argsort_ok (argsort_by before).
Proof.
  intro items; unfold argsort_by.
  destruct (sort_pairs_spec (indexed items)) as [P S]; split.
  - rewrite <- indexed_fst; now apply Permutation_map.
  - rewrite map_map.
    erewrite map_ext_in; [apply sorted_map_snd, S|].
    intros p Hp; pose proof (indexed_values items) as V.
    rewrite Forall_forall in V; apply V.
    now apply (Permutation_in _ P).
Qed.

End InsertionSorts.

Lemma argsort_stable_ok : argsort_ok argsort_stable.
Proof.
  apply argsort_by_ok; intros a b H.
  - now apply Z.leb_le.
  - apply Z.leb_gt in H; lia.
Qed.

Lemma argsort_ties_reversed_ok : argsort_ok argsort_ties_reversed.
Proof.
  apply argsort_by_ok; intros a b H.
  - apply Z.ltb_lt in H; lia.
  - now apply Z.ltb_ge.
Qed.

(** One incident in each of two districts. *)
Definition two_districts : frame :=
  Frame 2
    [ (py "район", [CStr (py "Алданский"); CStr (py "Вилюйский")]) ].

(** With a sort that keeps equal items in order, the two districts stay
    in key order. *)
Example ranking_with_stable_sort :
  exists ranking,
    analyze_district_distribution argsort_stable (processed two_districts)
    = Ok (Some ranking) /\
    map g_key ranking = [CStr (py "Алданский"); CStr (py "Вилюйский")].
Proof. eexists; split; vm_compute; reflexivity. Qed.

(** Six incidents in four districts: one each in the first two, two each
    in the last two. *)
Definition tied_districts : frame :=
  Frame 6
    [ (py "район",
       [CStr (py "a"); CStr (py "b"); CStr (py "c"); CStr (py "c");
        CStr (py "d"); CStr (py "d")]) ].

(** C8, as stated, fails: [sort_values] is called without [kind], and the
    promise NumPy makes for the default kind is kept by a sort that ranks
    these four districts d, c, b, a, which is the ranking pandas gives
    for this table: the two districts with two incidents, and the two
    with one, each come out in the opposite of their group-key order. *)
Lemma ranking_ties_not_kept :
  argsort_ok argsort_ties_reversed /\
  exists groups ranking,
    agg_stats Col.district (processed tied_districts) = Ok groups /\
    analyze_district_distribution argsort_ties_reversed
      (processed tied_districts) = Ok (Some ranking) /\
    map g_key groups
    = [CStr (py "a"); CStr (py "b"); CStr (py "c"); CStr (py "d")] /\
    map g_fires groups = [1%Z; 1%Z; 2%Z; 2%Z] /\
    map g_key ranking
    = [CStr (py "d"); CStr (py "c"); CStr (py "b"); CStr (py "a")].
Proof.
  split; [exact argsort_ties_reversed_ok|].
  eexists _, _; split; [vm_compute; reflexivity|].
  split; [vm_compute; reflexivity|].
  repeat split; vm_compute; reflexivity.
Qed.

(** C8 (amended).  The rankings by district and by cause sort the groups
    in descending order of their count: the ranking is a rearrangement of
    the groups in which every group counts at least as much as each later
    one.  This holds for every sort that keeps the promise of [argsort];
    the order of groups with equal counts is not fixed by it. *)
Theorem rankings_descending :
  forall argsort,
    argsort_ok argsort ->
    (forall df ranking,
        analyze_district_distribution argsort df = Ok (Some ranking) ->
        exists groups,
          agg_stats Col.district df = Ok groups /\
          Permutation groups ranking /\
          descending (map g_fires ranking)) /\
    (forall df ranking,
        analyze_causes argsort df = Ok (Some ranking) ->
        exists groups,
          agg_stats Col.cause_clean df = Ok groups /\
          Permutation groups ranking /\
          descending (map g_fires ranking)).
Proof.
  intros argsort A; split; intros df ranking H;
    [unfold analyze_district_distribution in H
    |unfold analyze_causes in H];
    (match type of H with
     | (if ?b then _ else _) = _ => destruct b; [|discriminate]
     end;
     apply rbind_Ok in H as (groups & E & H);
     inversion H; subst ranking; clear H;
     exists groups; split; [exact E|];
     now apply sort_values_desc_spec).
Qed.

Definition ranking_of (r : result (option (list group_stats)))
  : list group_stats :=
  match r with
  | Ok (Some t) => t
  | _ => []
  end.

Lemma rankings_descending_witness :
  exists groups,
    agg_stats Col.district (processed incidents) = Ok groups /\
    Permutation groups
      (ranking_of (analyze_district_distribution argsort_stable
                     (processed incidents))) /\
    descending
      (map g_fires
         (ranking_of (analyze_district_distribution argsort_stable
                        (processed incidents)))).
Proof.
  apply (proj1 (rankings_descending argsort_stable argsort_stable_ok)
           (processed incidents)).
  vm_compute; reflexivity.
Defined.

Example ranking_of_incidents :
  map (fun g => (g_key g, g_fires g))
    (ranking_of (analyze_district_distribution argsort_stable
                   (processed incidents)))
  = [(CStr (py "Вилюйский"), 2%Z); (CStr (py "Алданский"), 1%Z)].
Proof. vm_compute; reflexivity. Qed.

(** ** The caller's frame *)

Lemma update_length (r : Store.ref) (f : frame) (h : Store.heap) :
  List.length (Store.update r f h) = List.length h.
Proof.
  revert r; induction h as [|g h IH]; intros [|r]; simpl; auto.
Qed.

Lemma nth_update_same (r : Store.ref) (f : frame) (h : Store.heap) :
  (r < List.length h)%nat -> nth_error (Store.update r f h) r = Some f.
Proof.
  revert r; induction h as [|g h IH]; intros [|r]; simpl; intro L;
    try lia; [reflexivity|].
  apply IH; lia.
Qed.

Lemma nth_update_other (r r' : Store.ref) (f : frame) (h : Store.heap) :
  r' <> r -> nth_error (Store.update r f h) r' = nth_error h r'.
Proof.
  revert r r'; induction h as [|g h IH]; intros [|r] [|r'] D; simpl;
    try reflexivity; try congruence.
  apply IH; congruence.
Qed.

Lemma bind_modify {A} (r : Store.ref) (g : frame -> result frame)
  (k : unit -> Store.M A) (h : Store.heap) (f : frame) :
  nth_error h r = Some f ->
  Store.bind (Store.modify r g) k h
  = match g f with
    | Ok f' => k tt (Store.update r f' h)
    | Raise e => (Raise e, h)
    end.
Proof.
  intro H; unfold Store.modify, Store.bind, Store.load, Store.store,
    Store.raise; rewrite H.
  destruct (g f); reflexivity.
Qed.

Lemma bind_assoc {A B C} (m : Store.M A) (k1 : A -> Store.M B)
  (k2 : B -> Store.M C) (h : Store.heap) :
  Store.bind (Store.bind m k1) k2 h
  = Store.bind m (fun a => Store.bind (k1 a) k2) h.
Proof. unfold Store.bind; destruct (m h) as [[a|e] h']; reflexivity. Qed.

Lemma bind_copy {A} (r : Store.ref) (k : Store.ref -> Store.M A)
  (h : Store.heap) (f : frame) :
  nth_error h r = Some f ->
  Store.bind (Store.copy r) k h = k (List.length h) (h ++ [f]).
Proof.
  intro H; unfold Store.copy, Store.bind, Store.load, Store.alloc.
  now rewrite H.
Qed.

Section CallerFrame.

Variable to_datetime : cell -> option timestamp.
Variable df : Store.ref.
Variable h : Store.heap.
Variable f : frame.
Hypothesis df_holds_f : nth_error h df = Some f.

Let renamed : frame := rename_columns normalize_header f.
Let copy_ref : Store.ref := List.length h.

(** The store while the pipeline works on its copy, which holds [cur]. *)
Definition working (h' : Store.heap) (cur : frame) : Prop :=
  nth_error h' copy_ref = Some cur /\
  nth_error h' df = Some renamed /\
  forall r, r <> df -> (r < List.length h)%nat ->
            nth_error h' r = nth_error h r.

Lemma df_in_heap : (df < List.length h)%nat.
Proof. apply nth_error_Some; rewrite df_holds_f; discriminate. Qed.

Lemma working_start :
  working (Store.update df renamed h ++ [renamed]) renamed.
Proof.
  pose proof df_in_heap as L; unfold working, copy_ref.
  split; [|split].
  - rewrite nth_error_app2; rewrite update_length; [|lia].
    now rewrite Nat.sub_diag.
  - rewrite nth_error_app1 by (rewrite update_length; lia).
    now apply nth_update_same.
  - intros r D Lr.
    rewrite nth_error_app1 by (rewrite update_length; lia).
    now apply nth_update_other.
Qed.

Lemma working_update (h' : Store.heap) (cur next : frame) :
  working h' cur -> working (Store.update copy_ref next h') next.
Proof.
  pose proof df_in_heap as L; intros (C & D & O).
  assert (Lc : (copy_ref < List.length h')%nat)
    by (apply nth_error_Some; rewrite C; discriminate).
  split; [|split].
  - now apply nth_update_same.
  - rewrite nth_update_other; [exact D | unfold copy_ref; lia].
  - intros r Dr Lr; rewrite nth_update_other; [auto | unfold copy_ref; lia].
Qed.

(** What [preprocess_data] does to the store: the caller's object keeps
    its cells and gets the normalized header, every other object is left
    alone, and the result, when there is one, is a new object holding the
    normalized frame.  This holds whether or not an exception is raised. *)
Lemma preprocess_data_effect :
  exists r h',
    preprocess_data to_datetime df h = (r, h') /\
    nth_error h' df = Some renamed /\
    (forall r', r' <> df -> (r' < List.length h)%nat ->
                nth_error h' r' = nth_error h r') /\
    (forall p, r = Ok p ->
               p = copy_ref /\
               exists fp, nth_error h' p = Some fp /\
                          preprocess_frame to_datetime renamed = Ok fp).
Proof.
  unfold preprocess_data, process_numeric_data, process_geodata,
    improve_cause_analysis, preprocess_frame.
  rewrite (bind_modify _ _ _ _ _ df_holds_f); cbv iota beta; fold renamed.
  rewrite (bind_copy _ _ _ _ (nth_update_same _ _ _ df_in_heap)).
  rewrite update_length; fold copy_ref.
  pose proof working_start as Wk.
  set (h0 := Store.update df renamed h ++ [renamed]) in *.
  rewrite (bind_modify _ _ _ _ _ (proj1 Wk)); cbv iota beta.
  apply (working_update _ _ (set_scalar Col.fires (CInt 1) renamed)) in Wk.
  set (f0 := set_scalar Col.fires (CInt 1) renamed) in *.
  set (h1 := Store.update copy_ref f0 h0) in *.
  assert (Fail : forall e hh cur, working hh cur ->
            exists r h',
              (@Raise Store.ref e, hh) = (r, h') /\
              nth_error h' df = Some renamed /\
              (forall r', r' <> df -> (r' < List.length h)%nat ->
                          nth_error h' r' = nth_error h r') /\
              (forall p, r = Ok p ->
                         p = copy_ref /\
                         exists fp, nth_error h' p = Some fp /\
                                    rbind (Raise e) (fun x => Ok x) = Ok fp)).
  { intros e hh cur (_ & D & O); exists (Raise e), hh.
    split; [reflexivity|]; split; [exact D|]; split; [exact O|].
    intros p Hp; discriminate. }
  rewrite (bind_modify _ _ _ _ _ (proj1 Wk)).
  destruct (process_dates to_datetime f0) as [f1|e] eqn:E1;
    [|destruct (Fail e _ _ Wk) as (r & h' & Eq & D & O & _);
      exists r, h'; repeat split; auto; inversion Eq; subst; discriminate].
  apply (working_update _ _ f1) in Wk; cbn [rbind].
  rewrite (bind_modify _ _ _ _ _ (proj1 Wk)).
  destruct (apply_column_mapping column_mapping f1) as [f2|e] eqn:E2;
    [|destruct (Fail e _ _ Wk) as (r & h' & Eq & D & O & _);
      exists r, h'; repeat split; auto; inversion Eq; subst; discriminate].
  apply (working_update _ _ f2) in Wk; cbn [rbind].
  rewrite bind_assoc, (bind_modify _ _ _ _ _ (proj1 Wk)).
  destruct (process_numeric_frame f2) as [f3|e] eqn:E3;
    [|destruct (Fail e _ _ Wk) as (r & h' & Eq & D & O & _);
      exists r, h'; repeat split; auto; inversion Eq; subst; discriminate].
  apply (working_update _ _ f3) in Wk; cbn [rbind].
  change (Store.bind (Store.ret copy_ref) ?k ?hh) with (k copy_ref hh).
  cbv beta.
  rewrite bind_assoc, (bind_modify _ _ _ _ _ (proj1 Wk)); cbv iota beta.
  apply (working_update _ _ (process_geodata_frame f3)) in Wk.
  change (Store.bind (Store.ret copy_ref) ?k ?hh) with (k copy_ref hh).
  cbv beta.
  rewrite bind_assoc, (bind_modify _ _ _ _ _ (proj1 Wk)).
  destruct (improve_cause_frame (process_geodata_frame f3)) as [f5|e] eqn:E5;
    [|destruct (Fail e _ _ Wk) as (r & h' & Eq & D & O & _);
      exists r, h'; repeat split; auto; inversion Eq; subst; discriminate].
  apply (working_update _ _ f5) in Wk; cbn [rbind].
  change (Store.bind (Store.ret copy_ref) ?k ?hh) with (k copy_ref hh).
  cbv beta.
  rewrite (bind_modify _ _ _ _ _ (proj1 Wk)).
  destruct (for_each text_columns fill_text_column f5) as [fp|e] eqn:E6;
    [|destruct (Fail e _ _ Wk) as (r & h' & Eq & D & O & _);
      exists r, h'; repeat split; auto; inversion Eq; subst; discriminate].
  apply (working_update _ _ fp) in Wk.
  destruct Wk as (C & D & O).
  eexists _, _; split; [reflexivity|]; split; [exact D|]; split; [exact O|].
  intros p Hp; inversion Hp; subst p; split; [reflexivity|].
  exists fp; split; [exact C | reflexivity].
Qed.

End CallerFrame.

(** An uploaded table whose headers are not yet normalized. *)
Definition upload : frame :=
  Frame 2
    [ (py " Дата ", [day 2021 3 "2021-03-01 00:00:00"; CNull]);
      (py "Район", [CStr (py "Алданский"); CNull]) ].

(** The caller's object after [preprocess_data], in any store: the same
    rows and cells under the normalized header. *)
Lemma caller_frame_after_preprocess :
  forall to_datetime df h f,
    nth_error h df = Some f ->
    exists r h' f',
      preprocess_data to_datetime df h = (r, h') /\
      nth_error h' df = Some f' /\
      nrows f' = nrows f /\
      map snd (cols f') = map snd (cols f) /\
      columns f' = map normalize_header (columns f).
Proof.
  intros td df h f H.
  destruct (preprocess_data_effect td df h f H) as (r & h' & E & D & _).
  exists r, h', (rename_columns normalize_header f).
  split; [exact E|]; split; [exact D|]; split; [reflexivity|].
  unfold rename_columns, columns; simpl; rewrite !map_map; split; reflexivity.
Qed.

(** C9: the code at the failing input.  [preprocess_data] rewrites the
    header of the frame it is given before it takes its copy: after the
    call the caller's object carries the lowercased, trimmed column names
    and is no longer the table that was passed in. *)
Theorem caller_header_rewritten :
  exists p h' f',
    preprocess_data only_timestamps 0%nat [upload] = (Ok p, h') /\
    nth_error h' 0%nat = Some f' /\
    columns upload = [py " Дата "; py "Район"] /\
    columns f' = [py "дата"; py "район"] /\
    f' <> upload.
Proof.
  eexists _, _, _; split; [vm_compute; reflexivity|].
  split; [reflexivity|].
  split; [reflexivity|].
  split; [vm_compute; reflexivity|].
  vm_compute; discriminate.
Qed.

(** ** When preprocessing returns a frame *)


(** The columns the numeric normalizer can read: the six fields and the
    spreadsheet headers mapped onto them. *)
Definition numeric_sources : list str :=
  numeric_columns ++
  [py "погибло людей: всего"; py "в  т.ч. погибло детей";
   py "получили травмы: всего"; py "в  т.ч. получили травмы: детей";
   py "спасено на пожаре людей"; py "эвакуировано на пожаре людей"].






Section Success.

Variable to_datetime : cell -> option timestamp.






Lemma in_numeric_sources (n : str) (P : Prop) :
  In n numeric_sources ->
  (forall m, In m numeric_sources -> Text.eqb m n = true -> P) -> P.
Proof. intros H K; apply (K n H), Text.eqb_refl. Qed.





End Success.

(** * Further properties of the code *)

(** ** [load_data] *)

(** [try: ... except Exception: ...] *)
Definition try_except {A} (body : Store.M A) (handler : exn -> Store.M A)
  : Store.M A :=
  fun h =>
    match body h with
    | (Ok a, h') => (Ok a, h')
    | (Raise e, h') => handler e h'
    end.

Section Loading.

Variable to_datetime : cell -> option timestamp.

(** [load_data(uploaded_file)].  [read] is the outcome of
    [pd.read_excel]: the frame it built, or the exception it raised.  The
    handler shows the error and returns [None]. *)
Definition load_data (read : result frame) : Store.M (option Store.ref) :=
  try_except
    (match read with
     | Ok table =>
         (df <- Store.alloc table ;;
          df <- preprocess_data to_datetime df ;;
          Store.ret (Some df))%store
     | Raise e => Store.raise e
     end)
    (fun _ => Store.ret None).

(** The outcome of [preprocess_data] is the outcome of the stages on the
    copy. *)
Lemma preprocess_data_result (df : Store.ref) (h : Store.heap) (f : frame) :
  nth_error h df = Some f ->
  fst (preprocess_data to_datetime df h)
  = match preprocess_frame to_datetime (rename_columns normalize_header f) with
    | Ok _ => Ok (List.length h)
    | Raise e => Raise e
    end.
Proof.
  intro Hf.
  pose proof (df_in_heap df h f Hf) as Ldf.
  unfold preprocess_data, process_numeric_data, process_geodata,
    improve_cause_analysis, preprocess_frame.
  rewrite (bind_modify _ _ _ _ _ Hf); cbv iota beta.
  set (renamed := rename_columns normalize_header f).
  rewrite (bind_copy _ _ _ _ (nth_update_same _ _ _ Ldf)).
  rewrite update_length.
  pose proof (working_start df h f Hf) as Wk; fold renamed in Wk.
  set (h0 := Store.update df renamed h ++ [renamed]) in *.
  rewrite (bind_modify _ _ _ _ _ (proj1 Wk)); cbv iota beta.
  apply (working_update df h f Hf _ _ (set_scalar Col.fires (CInt 1) renamed))
    in Wk.
  set (f0 := set_scalar Col.fires (CInt 1) renamed) in *.
  rewrite (bind_modify _ _ _ _ _ (proj1 Wk)).
  destruct (process_dates to_datetime f0) as [f1|e]; [|reflexivity].
  apply (working_update df h f Hf _ _ f1) in Wk; cbn [rbind].
  rewrite (bind_modify _ _ _ _ _ (proj1 Wk)).
  destruct (apply_column_mapping column_mapping f1) as [f2|e]; [|reflexivity].
  apply (working_update df h f Hf _ _ f2) in Wk; cbn [rbind].
  rewrite bind_assoc, (bind_modify _ _ _ _ _ (proj1 Wk)).
  destruct (process_numeric_frame f2) as [f3|e]; [|reflexivity].
  apply (working_update df h f Hf _ _ f3) in Wk; cbn [rbind].
  change (Store.bind (Store.ret (List.length h)) ?k ?hh)
    with (k (List.length h) hh).
  cbv beta.
  rewrite bind_assoc, (bind_modify _ _ _ _ _ (proj1 Wk)); cbv iota beta.
  apply (working_update df h f Hf _ _ (process_geodata_frame f3)) in Wk.
  change (Store.bind (Store.ret (List.length h)) ?k ?hh)
    with (k (List.length h) hh).
  cbv beta.
  rewrite bind_assoc, (bind_modify _ _ _ _ _ (proj1 Wk)).
  destruct (improve_cause_frame (process_geodata_frame f3)) as [f5|e];
    [|reflexivity].
  apply (working_update df h f Hf _ _ f5) in Wk; cbn [rbind].
  change (Store.bind (Store.ret (List.length h)) ?k ?hh)
    with (k (List.length h) hh).
  cbv beta.
  rewrite (bind_modify _ _ _ _ _ (proj1 Wk)).
  destruct (for_each text_columns fill_text_column f5) as [fp|e];
    reflexivity.
Qed.

Lemma load_data_run (table : frame) (h : Store.heap) :
  exists r h',
    load_data (Ok table) h = (Ok r, h') /\
    match preprocess_frame to_datetime
            (rename_columns normalize_header table) with
    | Ok fp => r = Some (S (List.length h)) /\
               nth_error h' (S (List.length h)) = Some fp
    | Raise _ => r = None
    end.
Proof.
  assert (Ht : nth_error (h ++ [table]) (List.length h) = Some table)
    by (rewrite nth_error_app2, Nat.sub_diag by lia; reflexivity).
  pose proof (preprocess_data_result (List.length h) (h ++ [table]) table Ht)
    as R.
  destruct (preprocess_data_effect to_datetime (List.length h) (h ++ [table])
              table Ht) as (r & h' & E & _ & _ & OkCase).
  unfold load_data, try_except, Store.bind, Store.alloc, Store.ret.
  rewrite E in *; simpl in R.
  rewrite length_app in R, OkCase; simpl in R, OkCase.
  rewrite Nat.add_1_r in R, OkCase.
  destruct (preprocess_frame to_datetime
              (rename_columns normalize_header table)) as [fp|e] eqn:P.
  - subst r; destruct (OkCase _ eq_refl) as (_ & fp' & N & Efp).
    inversion Efp; subst fp'.
    eexists _, _; split; [reflexivity|]; auto.
  - subst r; eexists _, _; split; reflexivity.
Qed.

End Loading.

(** A table with a casualty cell that reads as an infinity. *)
Definition infinite_casualties : frame :=
  Frame 1 [(py "Погибло", [CStr (py "inf")])].

(** X1.  [load_data] never lets an exception escape: it returns a
    reference to the normalized frame when the file was read and
    preprocessing returned, and [None] when reading or preprocessing
    raised, with no frame handed out. *)
Theorem load_data_all_or_nothing :
  forall to_datetime read h,
    exists r h',
      load_data to_datetime read h = (Ok r, h') /\
      match read with
      | Raise _ => r = None
      | Ok table =>
          match preprocess_frame to_datetime
                  (rename_columns normalize_header table) with
          | Ok fp => exists p, r = Some p /\ nth_error h' p = Some fp
          | Raise _ => r = None
          end
      end.
Proof.
  intros td [table|e] h.
  - destruct (load_data_run td table h) as (r & h' & E & M).
    exists r, h'; split; [exact E|].
    destruct (preprocess_frame td (rename_columns normalize_header table));
      [destruct M; eauto | exact M].
  - eexists _, _; split; reflexivity.
Qed.

Example load_data_infinite :
  fst (load_data only_timestamps (Ok infinite_casualties) []) = Ok None.
Proof. vm_compute; reflexivity. Qed.






(** A number too large for a float reads as an infinity: the table is
    outside the theorem, and [load_data] returns nothing for it. *)
Example load_data_too_large :
  fst (load_data only_timestamps
         (Ok (Frame 1 [(py "Погибло", [CStr (py "1e400")])])) [])
  = Ok None.
Proof. vm_compute; reflexivity. Qed.

(** ** The alias table of [preprocess_data] *)

Lemma map_column_absent (on : str * str) (n : str) (f f' : frame) :
  snd on <> n ->
  map_column on f = Ok f' ->
  has_col n f = false -> has_col n f' = false.
Proof.
  destruct on as [old_col new_col]; simpl; intros D; unfold map_column.
  destruct (has_col old_col f && negb (has_col new_col f));
    [|intro H; inversion H; subst; auto].
  unfold getitem; destruct (get_col old_col f); simpl; [|discriminate].
  intro H; inversion H; subst f'; clear H.
  intro A; rewrite has_set_other; [exact A|].
  apply text_eqb_neq; congruence.
Qed.

Lemma mapping_first_alias (pre post : list (str * str)) (old new : str)
  (f f' : frame) (c : column) :
  (forall on, In on pre -> snd on <> new) ->
  has_col new f = false ->
  get_col old f = Some c ->
  apply_column_mapping (pre ++ (old, new) :: post) f = Ok f' ->
  get_col new f' = Some c.
Proof.
  revert f; induction pre as [|on pre IH]; intros f D A G H;
    cbn [app apply_column_mapping] in H; apply rbind_Ok in H as (f0 & E & H).
  - unfold map_column, getitem in E.
    rewrite (has_col_assoc old), G, A in E; cbn [andb negb rbind] in E.
    inversion E; subst f0; clear E.
    destruct (apply_column_mapping_spec _ _ _ H) as (_ & _ & K).
    apply K, get_set_same.
  - destruct (map_column_spec _ _ _ E) as (_ & _ & K).
    apply (IH f0); auto.
    + intros on' Hon; apply D; now right.
    + apply (map_column_absent on new f f0); auto.
      apply D; now left.
Qed.

(** A table that carries both headers for the burning object. *)
Definition two_object_headers : frame :=
  Frame 1
    [ (py "объект пожара", [CStr (py "сарай")]);
      (py "объект пожара (загорания)", [CStr (py "жилой дом")]) ].

(** A table that carries only the second header for the burning
    object. *)
Definition second_object_header : frame :=
  Frame 1 [ (py "объект пожара", [CStr (py "сарай")]) ].

Lemma map_column_unchanged (on : str * str) (f f' : frame) :
  has_col (fst on) f = false -> map_column on f = Ok f' -> f' = f.
Proof.
  destruct on as [old_col new_col]; cbn [fst]; intro A; unfold map_column.
  rewrite A; cbn [andb]; intro H; now injection H.
Qed.

(** No entry of an alias table writes to a name that another entry reads
    under a different target. *)
Definition targets_apart (m : list (str * str)) : Prop :=
  forall on on', In on m -> In on' m -> snd on = fst on' -> snd on' = snd on.

Lemma targets_apart_tail (on : str * str) (m : list (str * str)) :
  targets_apart (on :: m) -> targets_apart m.
Proof. intros T a b Ia Ib; apply T; now right. Qed.

(** One step of the table keeps a target absent, and its aliases absent,
    as long as the step does not read one of these aliases. *)
Lemma map_column_aliases (on : str * str) (m : list (str * str)) (new : str)
  (f f0 : frame) :
  targets_apart (on :: m) ->
  (forall old', In (old', new) (on :: m) -> has_col old' f = false) ->
  has_col new f = false ->
  map_column on f = Ok f0 ->
  has_col new f0 = false /\
  (forall old', In (old', new) m -> has_col old' f0 = false).
Proof.
  intros T Ab A E.
  destruct (has_col (fst on) f) eqn:Ho.
  - assert (Dn : snd on <> new).
    { intro D; destruct on as [o n]; cbn [fst snd] in *; subst n.
      rewrite (Ab o (or_introl eq_refl)) in Ho; discriminate. }
    split; [exact (map_column_absent on new f f0 Dn E A)|].
    intros old' I.
    apply (map_column_absent on old' f f0); [|exact E|].
    + intro D; apply Dn.
      symmetry; apply (T on (old', new) (or_introl eq_refl) (or_intror I) D).
    + apply Ab; now right.
  - apply (map_column_unchanged on f f0 Ho) in E; subst f0.
    split; [exact A|]; intros old' I; apply Ab; now right.
Qed.

Lemma targets_apart_app (pre post : list (str * str)) :
  targets_apart (pre ++ post) -> targets_apart pre.
Proof. intros T a b Ia Ib; apply T; apply in_or_app; now left. Qed.

Lemma mapping_first_present (pre post : list (str * str)) (old new : str)
  (f f' : frame) (c : column) :
  targets_apart pre ->
  has_col new f = false ->
  get_col old f = Some c ->
  (forall old', In (old', new) pre -> has_col old' f = false) ->
  apply_column_mapping (pre ++ (old, new) :: post) f = Ok f' ->
  get_col new f' = Some c.
Proof.
  revert f; induction pre as [|on pre IH]; intros f T A G Ab H;
    cbn [app apply_column_mapping] in H; apply rbind_Ok in H as (f0 & E & H).
  - unfold map_column, getitem in E.
    rewrite (has_col_assoc old), G, A in E; cbn [andb negb rbind] in E.
    inversion E; subst f0; clear E.
    destruct (apply_column_mapping_spec _ _ _ H) as (_ & _ & K).
    apply K, get_set_same.
  - destruct (map_column_aliases on pre new f f0 T Ab A E) as [A0 Ab0].
    destruct (map_column_spec _ _ _ E) as (_ & _ & K).
    apply (IH f0 (targets_apart_tail _ _ T) A0 (K _ _ G) Ab0 H).
Qed.

Lemma mapping_none_present (m : list (str * str)) (new : str) (f f' : frame) :
  targets_apart m ->
  has_col new f = false ->
  (forall old, In (old, new) m -> has_col old f = false) ->
  apply_column_mapping m f = Ok f' ->
  has_col new f' = false.
Proof.
  revert f; induction m as [|on m IH]; intros f T A Ab H;
    cbn [apply_column_mapping] in H.
  - now injection H as <-.
  - apply rbind_Ok in H as (f0 & E & H).
    destruct (map_column_aliases on m new f f0 T Ab A E) as [A0 Ab0].
    apply (IH f0 (targets_apart_tail _ _ T) A0 Ab0 H).
Qed.

Lemma column_mapping_apart : targets_apart column_mapping.
Proof.
  assert (B : forallb
                (fun on : str * str =>
                   forallb (fun on' : str * str =>
                              negb (Text.eqb (snd on) (fst on'))
                              || Text.eqb (snd on') (snd on))
                     column_mapping)
                column_mapping = true) by (vm_compute; reflexivity).
  intros on on' I I' E.
  rewrite forallb_forall in B; specialize (B on I).
  rewrite forallb_forall in B; specialize (B on' I').
  cbv beta in B; rewrite E, Text.eqb_refl in B; cbn [negb orb] in B.
  apply Text.eqb_eq in B; congruence.
Qed.

(** X3.  The alias table never overwrites a column that exists: every
    column of the frame is still there with the same cells.  A canonical
    column that is absent is created from the first alias listed for it
    that is present in the table, whichever that is, so of the two
    headers for the burning object the one listed first wins when both
    are present and the second is used when it is alone.  A canonical
    column none of whose aliases is present is not created. *)
Theorem alias_mapping_first_wins :
  forall f f',
    apply_column_mapping column_mapping f = Ok f' ->
    (forall n c, get_col n f = Some c -> get_col n f' = Some c) /\
    (forall pre old new post c,
        column_mapping = pre ++ (old, new) :: post ->
        has_col new f = false ->
        get_col old f = Some c ->
        (forall old', In (old', new) pre -> has_col old' f = false) ->
        get_col new f' = Some c) /\
    (forall new,
        has_col new f = false ->
        (forall old, In (old, new) column_mapping -> has_col old f = false) ->
        has_col new f' = false).
Proof.
  intros f f' H; split; [|split].
  - apply (apply_column_mapping_spec _ _ _ H).
  - intros pre old new post c E A G Ab.
    pose proof column_mapping_apart as T.
    rewrite E in H, T.
    exact (mapping_first_present pre post old new f f' c
             (targets_apart_app _ _ T) A G Ab H).
  - intros new A Ab.
    exact (mapping_none_present _ new f f' column_mapping_apart A Ab H).
Qed.

Ltac other_target E :=
  apply pair_equal_spec in E as [? E];
  first [ exfalso; revert E; apply (proj1 (text_eqb_neq _ _)); names_differ
        | subst; vm_compute; reflexivity ].

Lemma alias_mapping_first_wins_witness :
  get_col Col.object
    (result_frame (apply_column_mapping column_mapping two_object_headers))
  = Some [CStr (py "жилой дом")] /\
  get_col Col.object
    (result_frame (apply_column_mapping column_mapping second_object_header))
  = Some [CStr (py "сарай")].
Proof.
  split.
  - apply (proj1 (proj2 (alias_mapping_first_wins two_object_headers
                    (result_frame
                       (apply_column_mapping column_mapping two_object_headers))
                    ltac:(vm_compute; reflexivity)))
             (firstn 6 column_mapping) (py "объект пожара (загорания)")
             Col.object (skipn 7 column_mapping)).
    + reflexivity.
    + vm_compute; reflexivity.
    + vm_compute; reflexivity.
    + intros old' I; cbn [firstn column_mapping In] in I.
      repeat (destruct I as [E|I]; [other_target E|]).
      destruct I.
  - apply (proj1 (proj2 (alias_mapping_first_wins second_object_header
                    (result_frame
                       (apply_column_mapping column_mapping
                          second_object_header))
                    ltac:(vm_compute; reflexivity)))
             (firstn 7 column_mapping) (py "объект пожара")
             Col.object (skipn 8 column_mapping)).
    + reflexivity.
    + vm_compute; reflexivity.
    + vm_compute; reflexivity.
    + intros old' I; cbn [firstn column_mapping In] in I.
      repeat (destruct I as [E|I]; [other_target E|]).
      destruct I.
Defined.

(** ** What preprocessing leaves of the table it is given *)

(** The names [preprocess_data] assigns to, whatever the table. *)
Definition written_columns : list str :=
  [Col.fires; Col.date; Col.year; Col.month; Col.month_name]
  ++ (Col.total_deaths :: Col.total_injuries :: numeric_columns)
  ++ [Col.lat; Col.lon; Col.cause_merged; Col.cause_clean]
  ++ text_columns.

Lemma has_set_mono (n m : str) (c : column) (f : frame) :
  has_col n f = true -> has_col n (set_col m c f) = true.
Proof.
  intro H; destruct (Text.eqb n m) eqn:E.
  - apply Text.eqb_eq in E; subst; apply has_set_same.
  - now rewrite has_set_other.
Qed.

Definition keeps_columns (f f' : frame) : Prop :=
  forall n, has_col n f = true -> has_col n f' = true.

Lemma keeps_set_col (m : str) (c : column) (f : frame) :
  keeps_columns f (set_col m c f).
Proof. intros n; apply has_set_mono. Qed.

Lemma keeps_trans (f g h : frame) :
  keeps_columns f g -> keeps_columns g h -> keeps_columns f h.
Proof. unfold keeps_columns; auto. Qed.

Lemma keeps_refl (f : frame) : keeps_columns f f.
Proof. intros n H; exact H. Qed.

Lemma keeps_by_get (f f' : frame) :
  (forall n c, get_col n f = Some c -> get_col n f' = Some c) ->
  keeps_columns f f'.
Proof.
  intros K n; rewrite !has_col_assoc.
  destruct (get_col n f) as [c|] eqn:G; [|discriminate].
  now rewrite (K n c G).
Qed.

Lemma process_dates_keeps (td : cell -> option timestamp) (f f' : frame) :
  process_dates td f = Ok f' -> keeps_columns f f'.
Proof.
  unfold process_dates; destruct (find_date_column f).
  - intro H; apply rbind_Ok in H as (c & _ & H).
    apply rbind_Ok in H as (d & _ & H); inversion H; subst f'.
    repeat (eapply keeps_trans; [|apply keeps_set_col]); apply keeps_refl.
  - intro H; inversion H; subst f'; unfold set_scalar.
    repeat (eapply keeps_trans; [|apply keeps_set_col]); apply keeps_refl.
Qed.

Lemma normalize_columns_keep (names : list str) (f f' : frame) :
  for_each names normalize_column f = Ok f' -> keeps_columns f f'.
Proof.
  revert f; induction names as [|m names IH]; intros f H;
    cbn [for_each] in H.
  - inversion H; subst; apply keeps_refl.
  - apply rbind_Ok in H as (f0 & E & H).
    destruct (normalize_column_spec _ _ _ E) as (zs & _ & ->).
    eapply keeps_trans; [apply keeps_set_col | apply IH, H].
Qed.

Lemma process_numeric_keeps (f f' : frame) :
  process_numeric_frame f = Ok f' -> keeps_columns f f'.
Proof.
  unfold process_numeric_frame; intro H.
  apply rbind_Ok in H as (f1 & E1 & H).
  apply rbind_Ok in H as (d & _ & H).
  apply rbind_Ok in H as (dc & _ & H).
  apply rbind_Ok in H as (i & _ & H).
  apply rbind_Ok in H as (ic & _ & H).
  inversion H; subst f'.
  eapply keeps_trans; [apply (normalize_columns_keep _ _ _ E1)|].
  eapply keeps_trans; apply keeps_set_col.
Qed.

Lemma process_geodata_keeps (f : frame) :
  keeps_columns f (process_geodata_frame f).
Proof.
  unfold process_geodata_frame.
  destruct (get_col Col.geopoint f); [|apply keeps_refl].
  destruct (2 <=? coords_width c)%nat; [|apply keeps_refl].
  eapply keeps_trans; apply keeps_set_col.
Qed.

Lemma improve_cause_keeps (f f' : frame) :
  improve_cause_frame f = Ok f' -> keeps_columns f f'.
Proof.
  unfold improve_cause_frame; intro H.
  apply rbind_Ok in H as (m & _ & H); inversion H; subst f'.
  eapply keeps_trans; [|apply keeps_set_col].
  destruct (cause_columns f); unfold set_scalar; apply keeps_set_col.
Qed.

Lemma not_in_app {A} (x : A) (a b : list A) :
  ~ In x (a ++ b) -> ~ In x a /\ ~ In x b.
Proof. intro H; split; intro I; apply H, in_or_app; tauto. Qed.

(** X4.  Preprocessing neither adds nor drops a row and removes no
    column: every column of the table it works on is in the result, and a
    column whose name is not one the pipeline assigns to has the same
    cells as before. *)
Theorem preprocessing_keeps_the_table :
  forall to_datetime f p,
    preprocess_frame to_datetime f = Ok p ->
    nrows p = nrows f /\
    (wf_frame f -> wf_frame p) /\
    (forall n, has_col n f = true -> has_col n p = true) /\
    (forall n c,
        get_col n f = Some c -> ~ In n written_columns ->
        get_col n p = Some c).
Proof.
  intros td f p P.
  pose proof (preprocess_frame_spec td f p P) as PP.
  split; [apply (pp_rows _ _ _ PP)|]. split; [apply (pp_wf _ _ _ PP)|].
  unfold preprocess_frame in P.
  set (f0 := set_scalar Col.fires (CInt 1) f) in P.
  apply rbind_Ok in P as (f1 & E1 & P).
  apply rbind_Ok in P as (f2 & E2 & P).
  apply rbind_Ok in P as (f3 & E3 & P).
  apply rbind_Ok in P as (f5 & E5 & P).
  split.
  - intros n Hn.
    apply (fill_text_has _ _ _ _ P); right.
    apply (improve_cause_keeps _ _ E5), process_geodata_keeps.
    apply (process_numeric_keeps _ _ E3).
    apply (keeps_by_get _ _ (proj2 (proj2 (apply_column_mapping_spec _ _ _ E2)))).
    apply (process_dates_keeps _ _ _ E1).
    unfold f0, set_scalar; now apply has_set_mono.
  - intros n c G N; unfold written_columns in N.
    apply not_in_app in N as [N1 N]; apply not_in_app in N as [N2 N].
    apply not_in_app in N as [N3 N4].
    destruct (process_dates_spec td _ _ E1) as ((_ & _ & K1) & _).
    destruct (apply_column_mapping_spec _ _ _ E2) as (_ & _ & K2).
    destruct (process_numeric_frame_spec _ _ E3) as [_ _ _ _ _ K3].
    destruct (process_geodata_spec f3) as (_ & _ & K4).
    destruct (improve_cause_spec _ _ E5) as (_ & _ & K5).
    destruct (fill_text_spec _ _ _ P) as (_ & _ & K6).
    rewrite (K6 n N4).
    rewrite K5 by (intro I; apply N3; right; right; exact I).
    rewrite K4
      by (intro I; apply N3; destruct I as [I|[I|[]]];
          [left | right; left]; exact I).
    rewrite (K3 n N2).
    apply K2; rewrite K1 by (intro I; apply N1; now right).
    unfold f0, set_scalar; rewrite get_set_other; [exact G|].
    apply text_eqb_neq; intros ->; apply N1; now left.
Qed.

Lemma preprocessing_keeps_the_table_witness :
  nrows (processed incidents) = nrows incidents /\
  (wf_frame incidents -> wf_frame (processed incidents)) /\
  (forall n, has_col n incidents = true ->
             has_col n (processed incidents) = true) /\
  (forall n c,
      get_col n incidents = Some c -> ~ In n written_columns ->
      get_col n (processed incidents) = Some c).
Proof.
  apply (preprocessing_keeps_the_table only_timestamps incidents
           (processed incidents)).
  exact incidents_processed.
Defined.

(** ** Rankings count every record *)

Definition no_null (c : column) : Prop := Forall (fun x => isna x = false) c.

(** The column [n] is present and has no missing cell. *)
Definition filled (n : str) (f : frame) : Prop :=
  exists c, get_col n f = Some c /\ no_null c.

Lemma fillna_no_null (v : str) (c : column) : no_null (map (fillna_text v) c).
Proof.
  unfold no_null; induction c as [|x c IH]; simpl; constructor; auto.
  now destruct x.
Qed.

Lemma repeat_no_null (x : cell) (n : nat) :
  isna x = false -> no_null (repeat x n).
Proof. intro H; induction n; simpl; constructor; auto. Qed.

Lemma fill_text_column_filled (col n : str) (f f' : frame) :
  fill_text_column col f = Ok f' ->
  n = col \/ filled n f -> filled n f'.
Proof.
  intros H Hn.
  destruct (Text.eqb n col) eqn:E.
  - apply Text.eqb_eq in E; subst n; revert H.
    unfold fill_text_column; rewrite has_col_assoc; unfold getitem.
    destruct (get_col col f) as [c|]; simpl; intro H; inversion H; subst f'.
    + eexists; split; [apply get_set_same | apply fillna_no_null].
    + eexists; split; [apply get_set_same | now apply repeat_no_null].
  - destruct Hn as [->|(c & G & N)];
      [rewrite Text.eqb_refl in E; discriminate|].
    destruct (fill_text_column_spec _ _ _ H) as (_ & _ & K).
    exists c; split; [|exact N].
    rewrite K; [exact G|].
    intros [<-|[]]; rewrite Text.eqb_refl in E; discriminate.
Qed.

Lemma fill_text_filled (names : list str) (n : str) (f f' : frame) :
  for_each names fill_text_column f = Ok f' ->
  In n names \/ filled n f -> filled n f'.
Proof.
  revert f; induction names as [|m names IH]; intros f H;
    cbn [for_each] in H.
  - inversion H; subst; intros [[]|Hn]; exact Hn.
  - apply rbind_Ok in H as (f0 & E & H).
    intros [[->|Hn]|Hn]; apply (IH _ H); auto; right;
      apply (fill_text_column_filled _ _ _ _ E); auto.
Qed.

Lemma improve_cause_filled (f f' : frame) :
  improve_cause_frame f = Ok f' -> filled Col.cause_clean f'.
Proof.
  unfold improve_cause_frame; intro H.
  apply rbind_Ok in H as (m & _ & H); inversion H; subst f'.
  eexists; split; [apply get_set_same|].
  unfold no_null; apply Forall_map, Forall_forall; reflexivity.
Qed.

(** The text columns and the category column of a normalized frame have no
    missing cell. *)
Lemma preprocess_filled (td : cell -> option timestamp) (f p : frame) :
  preprocess_frame td f = Ok p ->
  filled Col.district p /\ filled Col.object p /\ filled Col.cause_clean p.
Proof.
  unfold preprocess_frame; intro P.
  apply rbind_Ok in P as (f1 & E1 & P).
  apply rbind_Ok in P as (f2 & E2 & P).
  apply rbind_Ok in P as (f3 & E3 & P).
  apply rbind_Ok in P as (f5 & E5 & P).
  split; [|split].
  - apply (fill_text_filled _ _ _ _ P); left; in_names.
  - apply (fill_text_filled _ _ _ _ P); left; in_names.
  - apply (fill_text_filled _ _ _ _ P); right.
    exact (improve_cause_filled _ _ E5).
Qed.

Lemma no_null_count (c : column) :
  no_null c -> List.length (filter notna c) = List.length c.
Proof.
  induction 1 as [|x c H F IH]; simpl; [reflexivity|].
  unfold notna at 1; rewrite H; simpl; now rewrite IH.
Qed.

(** On a normalized frame the counts of the groups of a filled column add
    up to the number of rows. *)
Lemma agg_stats_counts_all (td : cell -> option timestamp) (f p : frame)
  (key : str) :
  wf_frame f -> preprocess_frame td f = Ok p -> filled key p ->
  exists keys stats,
    get_col key p = Some keys /\
    agg_stats key p = Ok stats /\
    sum_fires stats = Z.of_nat (nrows p).
Proof.
  intros W P (keys & G & N).
  pose proof (preprocess_frame_spec td f p P) as PP.
  destruct (agg_stats_preprocessed td f p key keys PP G) as (mk & A & Mk).
  assert (L : List.length keys = nrows p)
    by (eapply wf_get; [apply (pp_wf _ _ _ PP W) | eauto]).
  exists keys, (map mk (groupby keys)); split; [exact G|]; split; [exact A|].
  rewrite (sum_fires_map mk (repeat (CInt 1) (nrows f)))
    by (intro g; apply Mk).
  rewrite (sum_counts_groups (nrows f))
    by (apply groupby_inv; rewrite <- (pp_rows _ _ _ PP); exact L).
  unfold groupby.
  now rewrite groupby_rows_total, filter_rows_length, (no_null_count _ N), L.
Qed.

Lemma sum_fires_perm (a b : list group_stats) :
  Permutation a b -> sum_fires a = sum_fires b.
Proof.
  induction 1; simpl; try lia.
Qed.

Section Locations.

Variable argsort : list Z -> list nat.

(** [t.sort_values('количество_пожаров', ascending=False)] on a table of
    keys and counts. *)
Definition sort_counts_desc (t : list (cell * Z)) : list (cell * Z) :=
  take_rows t (nargsort_desc argsort (map snd t)).

(** The table [locations_data] of [analyze_locations]. *)
Definition analyze_locations (df : frame)
  : result (option (list (cell * Z))) :=
  if has_col Col.object df then
    (keys <- getitem Col.object df ;;
     fires <- getitem Col.fires df ;;
     Ok (Some (sort_counts_desc
                 (map (fun g : group => (fst g, agg_count fires (snd g)))
                    (groupby keys)))))%result
  else Ok None.

End Locations.

Definition sum_counts (t : list (cell * Z)) : Z :=
  fold_right (fun kc acc => (snd kc + acc)%Z) 0%Z t.

Lemma sum_counts_perm (a b : list (cell * Z)) :
  Permutation a b -> sum_counts a = sum_counts b.
Proof. induction 1; simpl; try lia. Qed.

Lemma sort_counts_desc_spec (argsort : list Z -> list nat)
  (t : list (cell * Z)) :
  argsort_ok argsort ->
  Permutation t (sort_counts_desc argsort t) /\
  descending (map snd (sort_counts_desc argsort t)).
Proof.
  intro A; unfold sort_counts_desc.
  destruct (nargsort_desc_spec argsort (map snd t) A) as [P S].
  rewrite length_map in P; split.
  - now apply Permutation_sym, take_rows_perm.
  - now rewrite (map_take_rows snd t 0%Z _ (perm_seq_below _ _ P)).
Qed.

(** X5.  On a normalized frame the rankings by district, by cause and by
    object leave no record out and count none twice: for every sort that
    keeps the promise of [argsort], the counts of each ranking add up to
    the number of records, since the text columns and the category column
    have no missing cell. *)
Theorem rankings_count_every_record :
  forall argsort to_datetime f p,
    argsort_ok argsort ->
    wf_frame f ->
    preprocess_frame to_datetime f = Ok p ->
    (exists ranking,
        analyze_district_distribution argsort p = Ok (Some ranking) /\
        sum_fires ranking = Z.of_nat (nrows p)) /\
    (exists ranking,
        analyze_causes argsort p = Ok (Some ranking) /\
        sum_fires ranking = Z.of_nat (nrows p)) /\
    (exists ranking,
        analyze_locations argsort p = Ok (Some ranking) /\
        sum_counts ranking = Z.of_nat (nrows p) /\
        descending (map snd ranking)).
Proof.
  intros argsort td f p A W P.
  destruct (preprocess_filled td f p P) as (Fd & Fo & Fc).
  pose proof (preprocess_frame_spec td f p P) as PP.
  split; [|split].
  - destruct (agg_stats_counts_all td f p _ W P Fd) as (keys & st & G & E & S).
    exists (sort_values_desc argsort st); split.
    + unfold analyze_district_distribution.
      rewrite has_col_assoc, G, E; reflexivity.
    + rewrite <- S; symmetry.
      apply sum_fires_perm, (sort_values_desc_spec argsort st A).
  - destruct (agg_stats_counts_all td f p _ W P Fc) as (keys & st & G & E & S).
    exists (sort_values_desc argsort st); split.
    + unfold analyze_causes.
      rewrite has_col_assoc, G, E; reflexivity.
    + rewrite <- S; symmetry.
      apply sum_fires_perm, (sort_values_desc_spec argsort st A).
  - destruct Fo as (keys & G & N).
    assert (L : List.length keys = nrows p)
      by (eapply wf_get; [apply (pp_wf _ _ _ PP W) | eauto]).
    eexists; split; [|split].
    + unfold analyze_locations, getitem.
      rewrite has_col_assoc, G, (pp_fires _ _ _ PP); reflexivity.
    + rewrite <- (sum_counts_perm _ _
                    (proj1 (sort_counts_desc_spec argsort _ A))).
      transitivity
        (fold_right
           (fun g acc => (agg_count (repeat (CInt 1) (nrows f)) (snd g) + acc)%Z)
           0%Z (groupby keys)).
      { unfold sum_counts; induction (groupby keys) as [|g gs IH]; simpl;
          [reflexivity | now rewrite IH]. }
      rewrite (sum_counts_groups (nrows f))
        by (apply groupby_inv; rewrite <- (pp_rows _ _ _ PP); exact L).
      unfold groupby.
      now rewrite groupby_rows_total, filter_rows_length,
        (no_null_count _ N), L.
    + apply (sort_counts_desc_spec argsort _ A).
Qed.

Lemma rankings_count_every_record_witness :
  (exists ranking,
      analyze_district_distribution argsort_stable (processed incidents)
      = Ok (Some ranking) /\
      sum_fires ranking = Z.of_nat (nrows (processed incidents))) /\
  (exists ranking,
      analyze_causes argsort_stable (processed incidents)
      = Ok (Some ranking) /\
      sum_fires ranking = Z.of_nat (nrows (processed incidents))) /\
  (exists ranking,
      analyze_locations argsort_stable (processed incidents)
      = Ok (Some ranking) /\
      sum_counts ranking = Z.of_nat (nrows (processed incidents)) /\
      descending (map snd ranking)).
Proof.
  apply (rankings_count_every_record argsort_stable only_timestamps incidents
           (processed incidents)).
  - exact argsort_stable_ok.
  - exact incidents_wf.
  - exact incidents_processed.
Defined.

(** ** Coordinates after preprocessing, and the points of the map *)

(** Whatever the two numbers, the loop body leaves either no coordinates
    or a latitude and a longitude in range. *)
Lemma resolve_valid (n1 n2 : num) :
  resolve n1 n2 = (CNull, CNull) \/
  exists a b, resolve n1 n2 = (CFloat a, CFloat b) /\ valid_pair a b.
Proof.
  unfold resolve.
  destruct (num_isna n1 || num_isna n2); [now left|].
  destruct (between (-90) 90 n1 && between (-180) 180 n2) eqn:V1.
  - pose proof V1 as V; apply andb_true_iff in V as [A B].
    destruct n1 as [|a|], n2 as [|b|]; cbn [between] in A, B;
      try discriminate.
    right; exists a, b; split; [reflexivity|].
    now apply valid_pair_between.
  - destruct (between (-90) 90 n2 && between (-180) 180 n1) eqn:V2;
      [|now left].
    pose proof V2 as V; apply andb_true_iff in V as [A B].
    destruct n1 as [|a|], n2 as [|b|]; cbn [between] in A, B;
      try discriminate.
    right; exists b, a; split; [reflexivity|].
    now apply valid_pair_between.
Qed.

(** The coordinate columns of a normalized frame are the ones the resolver
    wrote: no later stage assigns to them. *)
Lemma preprocess_coordinates (td : cell -> option timestamp) (f p : frame)
  (c : column) :
  preprocess_frame td f = Ok p ->
  get_col Col.geopoint f = Some c ->
  (2 <= coords_width c)%nat ->
  get_col Col.lat p = Some (map fst (map resolve_cell c)) /\
  get_col Col.lon p = Some (map snd (map resolve_cell c)).
Proof.
  intros P G W; unfold preprocess_frame in P.
  set (f0 := set_scalar Col.fires (CInt 1) f) in P.
  apply rbind_Ok in P as (f1 & E1 & P).
  apply rbind_Ok in P as (f2 & E2 & P).
  apply rbind_Ok in P as (f3 & E3 & P).
  apply rbind_Ok in P as (f5 & E5 & P).
  destruct (process_dates_spec td _ _ E1) as ((_ & _ & K1) & _).
  destruct (apply_column_mapping_spec _ _ _ E2) as (_ & _ & K2).
  destruct (process_numeric_frame_spec _ _ E3) as [_ _ _ _ _ K3].
  destruct (improve_cause_spec _ _ E5) as (_ & _ & K5).
  destruct (fill_text_spec _ _ _ P) as (_ & _ & K6).
  assert (G3 : get_col Col.geopoint f3 = Some c).
  { rewrite K3 by not_in_names.
    apply K2; rewrite K1 by not_in_names.
    unfold f0, set_scalar; rewrite get_set_other by names_differ; exact G. }
  apply Nat.leb_le in W.
  split.
  - rewrite K6 by not_in_names; rewrite K5 by not_in_names.
    unfold process_geodata_frame; rewrite G3, W.
    rewrite get_set_other by names_differ; apply get_set_same.
  - rewrite K6 by not_in_names; rewrite K5 by not_in_names.
    unfold process_geodata_frame; rewrite G3, W.
    apply get_set_same.
Qed.

(** [map_data[col] >= lo] and [map_data[col] <= hi] on one cell: [None]
    when Python refuses to compare the cell with a number. *)
Definition cell_between (lo hi : Z) (x : cell) : option bool :=
  match x with
  | CFloat d => Some (between lo hi (Fin d))
  | CInt z => Some ((lo <=? z)%Z && (z <=? hi)%Z)
  | CNull => Some false
  | CStr _ | CDate _ => None
  end.

(** What [analyze_district_map] draws: nothing when a coordinate column is
    missing, an error when a coordinate cannot be compared with a number,
    and otherwise the rows it keeps. *)
Inductive map_selection :=
| NoCoordinates
| ComparisonError
| Points (rows : list nat).

Fixpoint select_points (lat lon : column) (rows : list nat)
  : option (list nat) :=
  match rows with
  | [] => Some []
  | i :: rest =>
      match cell_between (-90) 90 (nth i lat CNull),
            cell_between (-180) 180 (nth i lon CNull),
            select_points lat lon rest with
      | Some a, Some b, Some kept =>
          Some (if a && b then i :: kept else kept)
      | _, _, _ => None
      end
  end.

(** [df.dropna(subset=['lat', 'lon'])]: the rows with both cells present. *)
Definition dropna_rows (lat lon : column) (n : nat) : list nat :=
  filter (fun i => notna (nth i lat CNull) && notna (nth i lon CNull))
    (seq 0 n).

Definition map_points (df : frame) : map_selection :=
  if has_col Col.lat df && has_col Col.lon df then
    match get_col Col.lat df, get_col Col.lon df with
    | Some lat, Some lon =>
        match select_points lat lon (dropna_rows lat lon (nrows df)) with
        | Some rows => Points rows
        | None => ComparisonError
        end
    | _, _ => NoCoordinates
    end
  else NoCoordinates.

Lemma select_points_all (lat lon : column) (rows : list nat) :
  (forall i, In i rows ->
     exists a b, nth i lat CNull = CFloat a /\ nth i lon CNull = CFloat b /\
                 valid_pair a b) ->
  select_points lat lon rows = Some rows.
Proof.
  induction rows as [|i rows IH]; intro H; [reflexivity|].
  cbn [select_points].
  destruct (H i (or_introl eq_refl)) as (a & b & -> & -> & V).
  apply valid_pair_between in V.
  rewrite IH by (intros j Hj; apply H; now right).
  cbn [cell_between]; now rewrite V.
Qed.

Lemma filter_ext_in_seq (p q : nat -> bool) (n : nat) :
  (forall i, (i < n)%nat -> p i = q i) ->
  filter p (seq 0 n) = filter q (seq 0 n).
Proof.
  intro H; apply filter_ext_in; intros i Hi.
  apply in_seq in Hi; apply H; lia.
Qed.

(** X6.  After preprocessing a table whose coordinate strings split into
    two parts somewhere, every record has either no coordinates at all or
    a latitude within [-90, 90] together with a longitude within
    [-180, 180], whatever the text of its coordinate string; hence the map
    never fails on them, and the range check it repeats removes nothing:
    it draws exactly the records that have a latitude. *)
Theorem map_draws_every_resolved_record :
  forall to_datetime f p c,
    wf_frame f ->
    preprocess_frame to_datetime f = Ok p ->
    get_col Col.geopoint f = Some c ->
    (2 <= coords_width c)%nat ->
    (forall row, (row < nrows p)%nat ->
       (cell_at Col.lat row p = CNull /\ cell_at Col.lon row p = CNull) \/
       (exists a b,
           cell_at Col.lat row p = CFloat a /\
           cell_at Col.lon row p = CFloat b /\
           valid_pair a b)) /\
    map_points p
    = Points (filter (fun row => notna (cell_at Col.lat row p))
                (seq 0 (nrows p))).
Proof.
  intros td f p c Wf P G W.
  destruct (preprocess_coordinates td f p c P G W) as [Gla Glo].
  pose proof (preprocess_frame_spec td f p P) as PP.
  assert (L : List.length c = nrows p).
  { rewrite (pp_rows _ _ _ PP); eapply wf_get; eauto. }
  assert (R : forall row, (row < nrows p)%nat ->
    (nth row (map fst (map resolve_cell c)) CNull = CNull /\
     nth row (map snd (map resolve_cell c)) CNull = CNull) \/
    (exists a b,
        nth row (map fst (map resolve_cell c)) CNull = CFloat a /\
        nth row (map snd (map resolve_cell c)) CNull = CFloat b /\
        valid_pair a b)).
  { intros row Hr; rewrite <- L in Hr.
    destruct (nth_error c row) as [x|] eqn:E;
      [|apply nth_error_None in E; lia].
    rewrite !map_map, !(nth_map_error _ _ _ _ _ E).
    unfold resolve_cell.
    destruct (resolve_valid (token_num 0 (geo_tokens x))
                (token_num 1 (geo_tokens x))) as [->|(a & b & -> & V)];
      [now left | right; now exists a, b]. }
  split.
  - intros row Hr; unfold cell_at; rewrite Gla, Glo; now apply R.
  - unfold map_points; rewrite !has_col_assoc, Gla, Glo.
    cbn [andb]; unfold cell_at; rewrite Gla.
    assert (D : dropna_rows (map fst (map resolve_cell c))
                  (map snd (map resolve_cell c)) (nrows p)
                = filter (fun row =>
                            notna (nth row (map fst (map resolve_cell c)) CNull))
                    (seq 0 (nrows p))).
    { apply filter_ext_in_seq; intros i Hi.
      destruct (R i Hi) as [[-> ->]|(a & b & -> & -> & _)]; reflexivity. }
    rewrite D, select_points_all; [reflexivity|].
    intros i Hi; apply filter_In in Hi as [Hi N].
    apply in_seq in Hi.
    destruct (R i) as [[E _]|H]; [lia | | exact H].
    rewrite E in N; discriminate.
Qed.

Lemma map_draws_every_resolved_record_witness :
  (forall row, (row < nrows (processed incidents))%nat ->
     (cell_at Col.lat row (processed incidents) = CNull /\
      cell_at Col.lon row (processed incidents) = CNull) \/
     (exists a b,
         cell_at Col.lat row (processed incidents) = CFloat a /\
         cell_at Col.lon row (processed incidents) = CFloat b /\
         valid_pair a b)) /\
  map_points (processed incidents)
  = Points (filter (fun row => notna (cell_at Col.lat row (processed incidents)))
              (seq 0 (nrows (processed incidents)))).
Proof.
  apply (map_draws_every_resolved_record only_timestamps incidents
           (processed incidents)
           [CStr (py "131.090314 60.465566"); CStr (py "45.0 45.0"); CNull]).
  - exact incidents_wf.
  - exact incidents_processed.
  - vm_compute; reflexivity.
  - apply Nat.leb_le; vm_compute; reflexivity.
Defined.

(** The map of the sample table shows its first two records. *)
Example map_points_incidents :
  map_points (processed incidents) = Points [0%nat; 1%nat].
Proof. vm_compute; reflexivity. Qed.

(** ** The classifier: the first category mentioned wins *)

(** [pattern] occurs in [text] as a substring. *)
Definition mentions (text pattern : str) : Prop :=
  exists pre post, text = pre ++ pattern ++ post.

Lemma prefix_spec (p s : str) :
  Text.prefix p s = true <-> exists post, s = p ++ post.
Proof.
  revert s; induction p as [|a p IH]; intros s; simpl.
  - split; [exists s; reflexivity | reflexivity].
  - destruct s as [|b s].
    + split; [discriminate | intros (post & H); discriminate].
    + rewrite andb_true_iff, N.eqb_eq, IH; split.
      * intros [-> (post & ->)]; now exists post.
      * intros (post & H); inversion H; subst; split; [reflexivity|].
        now exists post.
Qed.

Lemma contains_spec (p s : str) :
  Text.contains p s = true <-> mentions s p.
Proof.
  unfold mentions; induction s as [|c s IH]; simpl.
  - rewrite orb_false_r, prefix_spec; split.
    + intros (post & H); now exists [], post.
    + intros ([|x pre] & post & H); [now exists post|discriminate].
  - rewrite orb_true_iff, prefix_spec, IH; split.
    + intros [(post & H)|(pre & post & ->)];
        [now exists [], post | now exists (c :: pre), post].
    + intros ([|x pre] & post & H).
      * left; now exists post.
      * right; inversion H; subst; now exists pre, post.
Qed.

Lemma lstrip_suffix (s : str) : exists sp, s = sp ++ Text.lstrip s.
Proof.
  induction s as [|c s (sp & IH)]; simpl; [now exists []|].
  destruct (Text.is_space c); [|now exists []].
  exists (c :: sp); simpl; now rewrite <- IH.
Qed.

Lemma strip_infix (s : str) : exists a b, s = a ++ Text.strip s ++ b.
Proof.
  unfold Text.strip, Text.rstrip.
  destruct (lstrip_suffix s) as (a & Ha).
  destruct (lstrip_suffix (rev (Text.lstrip s))) as (b & Hb).
  exists a, (rev b).
  rewrite <- rev_app_distr, <- Hb, rev_involutive; exact Ha.
Qed.

Lemma mentions_strip (s p : str) : mentions (Text.strip s) p -> mentions s p.
Proof.
  intros (pre & post & H).
  destruct (strip_infix s) as (a & b & E).
  exists (a ++ pre), (post ++ b).
  rewrite E at 1; rewrite H, <- !app_assoc; reflexivity.
Qed.

(** A word that starts with a visible character survives [lstrip]. *)
Lemma lstrip_keeps (pre rest : str) (c : N) :
  Text.is_space c = false ->
  exists pre', Text.lstrip (pre ++ c :: rest) = pre' ++ c :: rest.
Proof.
  intro H; induction pre as [|x pre (pre' & IH)]; simpl.
  - rewrite H; now exists [].
  - destruct (Text.is_space x); [now exists pre'|].
    now exists (x :: pre).
Qed.

(** The pattern neither starts nor ends with white space. *)
Definition solid (p : str) : bool :=
  match p, rev p with
  | a :: _, z :: _ => negb (Text.is_space a) && negb (Text.is_space z)
  | _, _ => false
  end.

Lemma strip_keeps (s p : str) :
  solid p = true -> mentions s p -> mentions (Text.strip s) p.
Proof.
  unfold solid; intros S (pre & post & ->).
  destruct p as [|a p]; [discriminate|].
  destruct (rev (a :: p)) as [|z q] eqn:R; [discriminate|].
  apply andb_true_iff in S as [Sa Sz].
  apply negb_true_iff in Sa, Sz.
  unfold Text.strip, Text.rstrip.
  cbn [app].
  destruct (lstrip_keeps pre (p ++ post) a Sa) as (pre' & ->).
  change (pre' ++ a :: p ++ post) with (pre' ++ (a :: p) ++ post).
  rewrite !rev_app_distr, R; cbn [app].
  rewrite <- app_assoc; cbn [app].
  destruct (lstrip_keeps (rev post) (q ++ rev pre') z Sz) as (post' & ->).
  exists pre', (rev post').
  change (post' ++ z :: q ++ rev pre') with (post' ++ (z :: q) ++ rev pre').
  rewrite <- R, !rev_app_distr, !rev_involutive, <- app_assoc; reflexivity.
Qed.

Lemma first_category_none (ps : list (category * list str)) (text : str) :
  first_category ps text = None ->
  forall cat patterns pattern,
    In (cat, patterns) ps -> In pattern patterns ->
    Text.contains pattern text = false.
Proof.
  induction ps as [|[c l] ps IH]; cbn [first_category];
    [intros _ ? ? ? []|].
  destruct (existsb (fun pattern => Text.contains pattern text) l) eqn:E;
    [discriminate|].
  intros H cat patterns pattern [I|I] Hp.
  - inversion I; subst.
    destruct (Text.contains pattern text) eqn:C; [|reflexivity].
    rewrite <- E; symmetry; apply existsb_exists; now exists pattern.
  - eapply IH; eauto.
Qed.

Lemma first_category_split (before after : list (category * list str))
  (cat : category) (patterns : list str) (pattern text : str) :
  (forall cat' ps' p', In (cat', ps') before -> In p' ps' ->
                       Text.contains p' text = false) ->
  In pattern patterns ->
  Text.contains pattern text = true ->
  first_category (before ++ (cat, patterns) :: after) text = Some cat.
Proof.
  intros B Hp C; induction before as [|[c l] before IH];
    cbn [app first_category].
  - replace (existsb (fun pattern => Text.contains pattern text) patterns)
      with true; [reflexivity|].
    symmetry; apply existsb_exists; now exists pattern.
  - replace (existsb (fun pattern => Text.contains pattern text) l)
      with false.
    + apply IH; intros cat' ps' p' I; apply (B cat' ps' p'); now right.
    + symmetry; apply not_true_is_false; intro E.
      apply existsb_exists in E as (p' & I & E).
      rewrite (B c l p') in E; [discriminate | now left | exact I].
Qed.

Lemma patterns_solid :
  forallb (fun entry => forallb solid (snd entry)) cause_patterns = true.
Proof. vm_compute; reflexivity. Qed.

(** No pattern occurs in one of the texts the first test sends to
    "not specified". *)
Lemma unspecified_texts_no_pattern :
  forallb (fun s =>
             match first_category cause_patterns (Text.lower s) with
             | None => true
             | Some _ => false
             end)
    [py ""; py "nan"; py "None"; py "Не указана"] = true.
Proof. vm_compute; reflexivity. Qed.

(** X7.  The classifier ignores letter case and surrounding white space,
    and the order of the dictionary decides between categories: a text
    that mentions a pattern of a category, and no pattern of the
    categories listed before it, is put in that category whatever else it
    mentions. *)
Theorem first_category_mentioned_wins :
  forall s before cat patterns after pattern,
    cause_patterns = before ++ (cat, patterns) :: after ->
    In pattern patterns ->
    mentions (Text.lower s) pattern ->
    (forall cat' patterns' pattern',
        In (cat', patterns') before -> In pattern' patterns' ->
        ~ mentions (Text.lower s) pattern') ->
    clean_and_categorize_cause (CStr s) = cat.
Proof.
  intros s before cat patterns after pattern D Hp M B.
  assert (Ic : In (cat, patterns) cause_patterns)
    by (rewrite D; apply in_or_app; right; now left).
  assert (S : solid pattern = true).
  { pose proof patterns_solid as PS.
    rewrite forallb_forall in PS; specialize (PS _ Ic); cbn [snd] in PS.
    rewrite forallb_forall in PS; now apply PS. }
  unfold clean_and_categorize_cause.
  replace (isna (CStr s) || cell_in (CStr s) _) with false.
  - cbn [astype_str]; rewrite D.
    rewrite (first_category_split before after cat patterns pattern);
      [reflexivity | | exact Hp |].
    + intros cat' ps' p' I I'.
      apply not_true_is_false; intro C; apply contains_spec in C.
      apply (B cat' ps' p' I I'), mentions_strip, C.
    + apply contains_spec, strip_keeps; assumption.
  - symmetry; cbn [isna orb cell_in].
    apply not_true_is_false; intro E.
    unfold Text.mem in E; apply existsb_exists in E as (s0 & I & E).
    apply Text.eqb_eq in E; subst s0.
    pose proof unspecified_texts_no_pattern as U.
    rewrite forallb_forall in U; specialize (U s I).
    destruct (first_category cause_patterns (Text.lower s)) eqn:F;
      [discriminate|].
    apply contains_spec in M.
    rewrite (first_category_none _ _ F cat patterns pattern Ic Hp) in M.
    discriminate.
Qed.

Lemma first_category_mentioned_wins_witness :
  clean_and_categorize_cause (CStr (py "  КУРЕНИЕ в гараже, газ ")) = CarelessFire.
Proof.
  apply (first_category_mentioned_wins (py "  КУРЕНИЕ в гараже, газ ")
           (firstn 1 cause_patterns) CarelessFire
           (snd (nth 1 cause_patterns (Unspecified, [])))
           (skipn 2 cause_patterns) (py "курение")).
  - reflexivity.
  - right; left; reflexivity.
  - exists (py "  "), (py " в гараже, газ "); vm_compute; reflexivity.
  - intros cat' patterns' pattern' [I|[]] Hp M.
    apply contains_spec in M.
    inversion I; subst patterns'.
    assert (F : forallb
                  (fun p => negb (Text.contains p
                                    (Text.lower (py "  КУРЕНИЕ в гараже, газ "))))
                  (snd (nth 0 cause_patterns (Unspecified, []))) = true)
      by (vm_compute; reflexivity).
    rewrite forallb_forall in F; specialize (F _ Hp).
    rewrite M in F; discriminate.
Defined.

(** ** A table without a date column *)

Lemma find_date_column_none (f : frame) :
  (forall col, In col date_columns -> has_col col f = false) ->
  find_date_column f = None.
Proof.
  intro H; unfold find_date_column, date_columns; cbn [find].
  rewrite (H _ (or_introl eq_refl)).
  rewrite (H _ (or_intror (or_introl eq_refl))); reflexivity.
Qed.

Lemma sorted_lt_constant (a : Z) (ks : list Z) :
  Sorted Z.lt ks -> (forall z, In z ks -> z = a) ->
  (List.length ks <= 1)%nat.
Proof.
  intros S H; destruct ks as [|x [|y ks]]; simpl; try lia.
  exfalso.
  pose proof (H x (or_introl eq_refl)).
  pose proof (H y (or_intror (or_introl eq_refl))).
  inversion S as [|? ? _ Hd]; subst.
  inversion Hd; subst; lia.
Qed.

Lemma col_max_repeat (z : Z) (n : nat) :
  col_max (repeat (CInt z) (S n)) = Some z.
Proof.
  induction n as [|n IH]; [reflexivity|].
  change (repeat (CInt z) (S (S n))) with (CInt z :: repeat (CInt z) (S n)).
  cbn [col_max fold_right] in *; unfold col_max in IH; rewrite IH.
  cbn [int_cell]; now rewrite Z.max_id.
Qed.

Lemma filter_none {A} (p : A -> bool) (l : list A) :
  (forall x, In x l -> p x = false) -> filter p l = [].
Proof.
  induction l as [|a l IH]; intro H; simpl; [reflexivity|].
  rewrite (H a (or_introl eq_refl)); apply IH; intros x I; apply H; now right.
Qed.

Lemma rows_of_year_repeat (z y : Z) (n : nat) :
  y <> z -> rows_of_year (repeat (CInt z) n) y = [].
Proof.
  intro N; unfold rows_of_year; apply filter_none; intros i Hi.
  apply in_seq in Hi; rewrite repeat_length in Hi.
  rewrite nth_repeat_lt by lia; cbn [int_cell].
  apply Z.eqb_neq; congruence.
Qed.

(** X8.  When the table has neither of the two date columns, every record
    is put in the year 2023; the forecast and the comparison with the
    previous year then always answer that the data are insufficient,
    however many records there are. *)
Theorem undated_table_gets_one_year :
  forall to_datetime f p,
    wf_frame f ->
    preprocess_frame to_datetime f = Ok p ->
    (forall col, In col date_columns -> has_col col f = false) ->
    get_col Col.year p = Some (repeat (CInt 2023) (nrows p)) /\
    predict_fire_trend p = Ok TrendInsufficient /\
    analyze_comparison p = Ok ComparisonInsufficient.
Proof.
  intros td f p W P Hd.
  pose proof (preprocess_frame_spec td f p P) as PP.
  apply find_date_column_none in Hd.
  destruct (pp_year _ _ _ PP) as (years & Gy & Yc).
  unfold year_column_of in Yc; rewrite Hd in Yc.
  rewrite <- (pp_rows _ _ _ PP) in Yc; subst years.
  split; [exact Gy|]; split.
  - destruct (predict_preprocessed td f p W PP) as (years & Gy' & Fy & _ & ->).
    rewrite Gy in Gy'; inversion Gy'; subst years; clear Gy'.
    destruct (groupby_years _ Fy) as (ks & E & S & I).
    assert (L : (List.length ks <= 1)%nat).
    { apply (sorted_lt_constant 2023 ks S); intros z Hz.
      apply I, repeat_spec in Hz; now inversion Hz. }
    assert (Lg : List.length
                   (yearly_counts (repeat (CInt 2023) (nrows p))
                      (repeat (CInt 1) (nrows p)))
                 = List.length ks).
    { unfold yearly_counts; rewrite length_map.
      transitivity (List.length (map fst (groupby (repeat (CInt 2023) (nrows p)))));
        [symmetry; apply length_map | rewrite E; apply length_map]. }
    unfold trend_of_counts; rewrite Lg.
    replace (1 <? List.length ks)%nat with false; [reflexivity|].
    symmetry; apply Nat.ltb_ge; exact L.
  - destruct (getitem_has _ _ (pp_district _ _ _ PP)) as (ds & _ & Gd).
    destruct (pp_numeric _ _ _ PP)
      as (d & dc & i & ic & Gde & _ & Gi & _ & _ & _ & _).
    unfold analyze_comparison, getitem.
    rewrite (pp_district _ _ _ PP), has_col_assoc, Gy, Gd, Gde, Gi.
    rewrite (pp_fires _ _ _ PP); cbn [andb rbind].
    destruct (nrows p) as [|n]; [reflexivity|].
    rewrite col_max_repeat; cbv zeta.
    rewrite (rows_of_year_repeat 2023 (2023 - 1)) by lia.
    unfold totals_by_district at 2; cbn [groupby_rows fold_left map].
    now destruct (totals_by_district _ _ _ _ _).
Qed.

Lemma two_districts_processed :
  preprocess_frame only_timestamps two_districts
  = Ok (processed two_districts).
Proof. vm_compute; reflexivity. Qed.

Lemma two_districts_wf : wf_frame two_districts.
Proof. repeat constructor. Qed.

Lemma undated_table_gets_one_year_witness :
  get_col Col.year (processed two_districts)
  = Some (repeat (CInt 2023) (nrows (processed two_districts))) /\
  predict_fire_trend (processed two_districts) = Ok TrendInsufficient /\
  analyze_comparison (processed two_districts) = Ok ComparisonInsufficient.
Proof.
  apply (undated_table_gets_one_year only_timestamps two_districts
           (processed two_districts)).
  - exact two_districts_wf.
  - exact two_districts_processed.
  - intros col [<-|[<-|[]]]; vm_compute; reflexivity.
Defined.

(** ** The cause text of a record is merged with its own copy *)

Lemma columns_set_col (n : str) (c : column) (f : frame) :
  columns (set_col n c f)
  = if has_col n f then columns f else columns f ++ [n].
Proof.
  unfold columns, set_col, has_col, columns, Text.mem; cbn [cols].
  induction (cols f) as [|[m c0] l IH]; cbn [assoc_set map existsb app fst];
    [reflexivity|].
  destruct (Text.eqb n m); cbn [map orb fst]; [reflexivity|].
  rewrite IH; now destruct (existsb (Text.eqb n) (map fst l)).
Qed.

Lemma cause_columns_set_col (n : str) (c : column) (f : frame) :
  is_cause_column n = false ->
  cause_columns (set_col n c f) = cause_columns f.
Proof.
  intro H; unfold cause_columns; rewrite columns_set_col.
  destruct (has_col n f); [reflexivity|].
  rewrite filter_app; cbn [filter]; rewrite H; apply app_nil_r.
Qed.

Lemma cause_columns_add (n : str) (c : column) (f : frame) :
  has_col n f = false -> is_cause_column n = true ->
  cause_columns (set_col n c f) = cause_columns f ++ [n].
Proof.
  intros A H; unfold cause_columns; rewrite columns_set_col, A.
  rewrite filter_app; cbn [filter]; now rewrite H.
Qed.

Ltac not_a_cause := vm_compute; reflexivity.

Lemma process_dates_causes (td : cell -> option timestamp) (f f' : frame) :
  process_dates td f = Ok f' -> cause_columns f' = cause_columns f.
Proof.
  unfold process_dates; destruct (find_date_column f).
  - intro H; apply rbind_Ok in H as (c & _ & H).
    apply rbind_Ok in H as (d & _ & H); injection H as <-.
    now rewrite !cause_columns_set_col by not_a_cause.
  - intro H; injection H as <-; unfold set_scalar.
    now rewrite !cause_columns_set_col by not_a_cause.
Qed.

Lemma map_column_causes (on : str * str) (f f' : frame) :
  is_cause_column (snd on) = false ->
  map_column on f = Ok f' -> cause_columns f' = cause_columns f.
Proof.
  destruct on as [old_col new_col]; cbn [snd]; intro N; unfold map_column.
  destruct (has_col old_col f && negb (has_col new_col f));
    [|intro H; now injection H as <-].
  intro H; apply rbind_Ok in H as (c & _ & H); injection H as <-.
  now apply cause_columns_set_col.
Qed.

Lemma mapping_causes (m : list (str * str)) (f f' : frame) :
  (forall on, In on m -> is_cause_column (snd on) = false) ->
  apply_column_mapping m f = Ok f' -> cause_columns f' = cause_columns f.
Proof.
  revert f; induction m as [|on m IH]; intros f N H;
    cbn [apply_column_mapping] in H.
  - now injection H as <-.
  - apply rbind_Ok in H as (f0 & E & H).
    rewrite (IH f0) by (auto; intros on' I; apply N; now right).
    apply (map_column_causes on); [apply N; now left | exact E].
Qed.

Lemma mapping_adds_cause (pre post : list (str * str)) (old : str)
  (f f' : frame) :
  (forall on, In on pre -> is_cause_column (snd on) = false) ->
  (forall on, In on post -> is_cause_column (snd on) = false) ->
  has_col old f = true -> has_col Col.cause f = false ->
  apply_column_mapping (pre ++ (old, Col.cause) :: post) f = Ok f' ->
  cause_columns f' = cause_columns f ++ [Col.cause].
Proof.
  intros Npre Npost; revert f; induction pre as [|on pre IH];
    intros f Ho Hc H; cbn [app apply_column_mapping] in H;
    apply rbind_Ok in H as (f0 & E & H).
  - unfold map_column in E; rewrite Ho, Hc in E; cbn [andb negb] in E.
    apply rbind_Ok in E as (c & _ & E); injection E as <-.
    rewrite (mapping_causes post _ _ Npost H).
    apply cause_columns_add; [exact Hc | not_a_cause].
  - rewrite (IH (fun on' I => Npre on' (or_intror I)) f0); [| | |exact H].
    + f_equal; apply (map_column_causes on); [|exact E].
      apply Npre; now left.
    + destruct (map_column_spec _ _ _ E) as (_ & _ & K).
      rewrite has_col_assoc in Ho |- *.
      destruct (get_col old f) as [c|] eqn:G; [|discriminate].
      now rewrite (K old c G).
    + apply (map_column_absent on Col.cause f f0); [|exact E|exact Hc].
      intro D; pose proof (Npre on (or_introl eq_refl)) as N.
      rewrite D in N; revert N; vm_compute; discriminate.
Qed.

Lemma normalize_column_causes (col : str) (f f' : frame) :
  is_cause_column col = false ->
  normalize_column col f = Ok f' -> cause_columns f' = cause_columns f.
Proof.
  intro N; unfold normalize_column; destruct (has_col col f).
  - intro H; apply rbind_Ok in H as (c & _ & H).
    apply rbind_Ok in H as (zs & _ & H); injection H as <-.
    now apply cause_columns_set_col.
  - intro H; injection H as <-; now apply cause_columns_set_col.
Qed.

Lemma normalize_columns_causes (names : list str) (f f' : frame) :
  forallb (fun n => negb (is_cause_column n)) names = true ->
  for_each names normalize_column f = Ok f' ->
  cause_columns f' = cause_columns f.
Proof.
  revert f; induction names as [|n names IH]; intros f N H;
    cbn [for_each] in H.
  - now injection H as <-.
  - cbn [forallb] in N; apply andb_true_iff in N as [N1 N2].
    apply negb_true_iff in N1.
    apply rbind_Ok in H as (f0 & E & H).
    rewrite (IH f0 N2 H); now apply (normalize_column_causes n).
Qed.

Lemma process_numeric_causes (f f' : frame) :
  process_numeric_frame f = Ok f' -> cause_columns f' = cause_columns f.
Proof.
  unfold process_numeric_frame; intro H.
  apply rbind_Ok in H as (f1 & E1 & H).
  apply rbind_Ok in H as (d & _ & H).
  apply rbind_Ok in H as (dc & _ & H).
  apply rbind_Ok in H as (i & _ & H).
  apply rbind_Ok in H as (ic & _ & H); injection H as <-.
  rewrite !cause_columns_set_col by not_a_cause.
  apply (normalize_columns_causes numeric_columns); [not_a_cause | exact E1].
Qed.

Lemma process_geodata_causes (f : frame) :
  cause_columns (process_geodata_frame f) = cause_columns f.
Proof.
  unfold process_geodata_frame.
  destruct (get_col Col.geopoint f); [|reflexivity].
  destruct (2 <=? coords_width c)%nat; [|reflexivity].
  now rewrite !cause_columns_set_col by not_a_cause.
Qed.

(** The merged cause of a record whose cause appears in two columns with
    the same cell: the text, a separator and the text again. *)
Definition merged_twice (x : cell) : cell :=
  let text := Text.strip (astype_str x) in
  if notna x && negb (Text.mem text [py ""; py "nan"; py "None"])
  then CStr (text ++ py "; " ++ text)
  else CStr (py "Не указана").

Lemma merge_causes_twice (x : cell) : merge_causes [x; x] = merged_twice x.
Proof.
  unfold merge_causes, merged_twice; cbn [filter].
  destruct (notna x
            && negb (Text.mem (Text.strip (astype_str x))
                       [py ""; py "nan"; py "None"]));
    reflexivity.
Qed.

Lemma mapping_to_cause :
  column_mapping
  = firstn 8 column_mapping
    ++ (py "причина пожара", Col.cause) :: skipn 9 column_mapping.
Proof. reflexivity. Qed.

Lemma mapping_other_targets :
  forallb (fun on => negb (is_cause_column (snd on)))
    (firstn 8 column_mapping ++ skipn 9 column_mapping) = true.
Proof. vm_compute; reflexivity. Qed.

(** X9.  When the only header of the table that mentions a cause is
    "причина пожара", the alias table copies that column to "причина" and
    the cause analysis then merges both: the merged cause of every record
    that has a cause text is the text, "; " and the same text again. *)
Theorem cause_text_merged_twice :
  forall to_datetime f p c,
    wf_frame f ->
    preprocess_frame to_datetime f = Ok p ->
    cause_columns f = [py "причина пожара"] ->
    get_col (py "причина пожара") f = Some c ->
    get_col Col.cause_merged p = Some (map merged_twice c).
Proof.
  intros td f p c W P CC G.
  assert (Ho : has_col (py "причина пожара") f = true)
    by (now rewrite has_col_assoc, G).
  assert (Hc : has_col Col.cause f = false).
  { destruct (has_col Col.cause f) eqn:E; [exfalso|reflexivity].
    unfold has_col, Text.mem in E; apply existsb_exists in E as (x & I & E).
    apply Text.eqb_eq in E; subst x.
    assert (I' : In Col.cause (cause_columns f))
      by (apply filter_In; split; [exact I | not_a_cause]).
    rewrite CC in I'; destruct I' as [I'|[]].
    apply (proj1 (text_eqb_neq (py "причина пожара") Col.cause));
      [names_differ | exact I']. }
  pose proof mapping_other_targets as T.
  rewrite forallb_app in T; apply andb_true_iff in T as [Tpre Tpost].
  rewrite forallb_forall in Tpre, Tpost.
  assert (Dpre : forall on, In on (firstn 8 column_mapping) ->
                            snd on <> Col.cause).
  { intros on I D; specialize (Tpre on I); rewrite D in Tpre.
    revert Tpre; vm_compute; discriminate. }
  unfold preprocess_frame in P.
  set (f0 := set_scalar Col.fires (CInt 1) f) in P.
  apply rbind_Ok in P as (f1 & E1 & P).
  apply rbind_Ok in P as (f2 & E2 & P).
  apply rbind_Ok in P as (f3 & E3 & P).
  apply rbind_Ok in P as (f5 & E5 & P).
  destruct (process_dates_spec td _ _ E1) as ((R1 & _ & K1) & _).
  destruct (apply_column_mapping_spec _ _ _ E2) as (R2 & _ & K2).
  destruct (process_numeric_frame_spec _ _ E3) as [R3 _ _ _ _ K3].
  destruct (process_geodata_spec f3) as (R4 & _ & K4).
  destruct (fill_text_spec _ _ _ P) as (_ & _ & K6).
  assert (G1 : get_col (py "причина пожара") f1 = Some c).
  { rewrite K1 by not_in_names.
    unfold f0, set_scalar; rewrite get_set_other by names_differ; exact G. }
  assert (Ho1 : has_col (py "причина пожара") f1 = true)
    by (now rewrite has_col_assoc, G1).
  assert (H1 : has_col Col.cause f1 = false).
  { rewrite has_col_assoc, K1 by not_in_names.
    unfold f0, set_scalar; rewrite get_set_other by names_differ.
    now rewrite <- has_col_assoc. }
  assert (C1 : cause_columns f1 = [py "причина пожара"]).
  { rewrite (process_dates_causes td _ _ E1).
    unfold f0, set_scalar; rewrite cause_columns_set_col by not_a_cause.
    exact CC. }
  assert (G2 : get_col Col.cause f2 = Some c).
  { rewrite mapping_to_cause in E2.
    apply (mapping_first_alias _ _ _ _ _ _ _ Dpre H1 G1 E2). }
  assert (C4 : cause_columns (process_geodata_frame f3)
               = [py "причина пожара"; Col.cause]).
  { rewrite process_geodata_causes, (process_numeric_causes _ _ E3).
    rewrite mapping_to_cause in E2.
    rewrite (mapping_adds_cause _ _ _ _ _
               (fun on I => proj1 (negb_true_iff _) (Tpre on I))
               (fun on I => proj1 (negb_true_iff _) (Tpost on I))
               Ho1 H1 E2).
    now rewrite C1. }
  assert (Go : get_col (py "причина пожара") (process_geodata_frame f3)
               = Some c).
  { rewrite K4 by not_in_names; rewrite K3 by not_in_names.
    apply K2; exact G1. }
  assert (Gc : get_col Col.cause (process_geodata_frame f3) = Some c).
  { rewrite K4 by not_in_names; rewrite K3 by not_in_names; exact G2. }
  assert (L : nrows (process_geodata_frame f3) = List.length c).
  { rewrite R4, R3, R2, R1; unfold f0, set_scalar; cbn [nrows set_col].
    symmetry; eapply wf_get; eauto. }
  unfold improve_cause_frame in E5; rewrite C4, L in E5.
  cbv beta iota zeta in E5.
  apply rbind_Ok in E5 as (m & _ & E5); injection E5 as <-.
  rewrite K6 by not_in_names.
  rewrite get_set_other by names_differ; rewrite get_set_same.
  f_equal.
  transitivity (map (fun i => merged_twice (nth i c CNull))
                  (seq 0 (List.length c))).
  - apply map_ext; intro i; cbn [map]; unfold cell_at.
    rewrite Go, Gc; apply merge_causes_twice.
  - rewrite <- (map_map (fun i => nth i c CNull) merged_twice).
    now rewrite map_nth_seq.
Qed.

Lemma cause_text_merged_twice_witness :
  get_col Col.cause_merged (processed incidents)
  = Some (map merged_twice
            [CStr (py "короткое замыкание в проводке");
             CStr (py "дети играли со спичками"); CNull]).
Proof.
  apply (cause_text_merged_twice only_timestamps incidents).
  - exact incidents_wf.
  - exact incidents_processed.
  - vm_compute; reflexivity.
  - vm_compute; reflexivity.
Defined.

(** A table with one record whose cause is a short word. *)
Definition one_cause : frame :=
  Frame 1 [ (py "причина пожара", [CStr (py "взрыв")]) ].

(** The classifier alone leaves a short text without a pattern
    unspecified; in the pipeline the doubled text is longer than ten
    characters, and the record is counted under "other causes". *)
Example short_cause_counted_as_other :
  clean_and_categorize_cause (CStr (py "взрыв")) = Unspecified /\
  get_col Col.cause_merged (processed one_cause)
  = Some [CStr (py "взрыв; взрыв")] /\
  get_col Col.cause_clean (processed one_cause)
  = Some [CStr (category_label OtherCauses)].
Proof. repeat split; vm_compute; reflexivity. Qed.

(** ** Normalizing the casualty columns twice *)

Lemma set_col_same (n : str) (c : column) (f : frame) :
  get_col n f = Some c -> set_col n c f = f.
Proof.
  destruct f as [r l]; unfold get_col, set_col; cbn [cols nrows].
  intro G; f_equal.
  induction l as [|[m c0] l IH]; cbn [assoc assoc_set] in *; [discriminate|].
  destruct (Text.eqb n m).
  - now injection G as ->.
  - now rewrite IH.
Qed.

Lemma mapM_Forall {A B} (g : A -> result B) (P : B -> Prop) (l : list A)
  (bs : list B) :
  (forall a b, g a = Ok b -> P b) -> mapM g l = Ok bs -> Forall P bs.
Proof.
  intro H; revert bs; induction l as [|a l IH]; intros bs E;
    cbn [mapM] in E.
  - injection E as <-; constructor.
  - destruct (g a) as [b|] eqn:Ea; [|discriminate].
    destruct (mapM g l) as [bs'|]; [|discriminate].
    injection E as <-; constructor; [exact (H a b Ea) | now apply IH].
Qed.

(** The integers the normalizer leaves in a column are 64-bit. *)
Lemma normalized_of_range (f : frame) (col : str) (zs : list Z) :
  normalized_of f col zs -> Forall (fun z => in_int64 z = true) zs.
Proof.
  unfold normalized_of; destruct (get_col col f) as [c|].
  - apply mapM_Forall, normalize_cell_range.
  - intros ->; apply Forall_forall; intros z H.
    apply repeat_spec in H; subst; reflexivity.
Qed.

Lemma mapM_normalize_ints (zs : list Z) :
  Forall (fun z => in_int64 z = true) zs ->
  mapM normalize_cell (map CInt zs) = Ok zs.
Proof.
  induction 1 as [|z zs R F IH]; cbn [map mapM]; [reflexivity|].
  now rewrite (normalize_cell_int z R), IH.
Qed.

Lemma normalize_column_ints (col : str) (zs : list Z) (f : frame) :
  Forall (fun z => in_int64 z = true) zs ->
  get_col col f = Some (map CInt zs) -> normalize_column col f = Ok f.
Proof.
  intros R G; unfold normalize_column, getitem.
  rewrite has_col_assoc, G; cbn [rbind].
  rewrite (mapM_normalize_ints zs R); cbn [rbind].
  now rewrite (set_col_same _ _ _ G).
Qed.

Lemma for_each_fixed (names : list str) (body : str -> frame -> result frame)
  (f : frame) :
  (forall n, In n names -> body n f = Ok f) -> for_each names body f = Ok f.
Proof.
  induction names as [|n names IH]; intro H; cbn [for_each]; [reflexivity|].
  rewrite (H n (or_introl eq_refl)); cbn [rbind].
  apply IH; intros m I; apply H; now right.
Qed.

(** X10.  Normalizing the casualty columns is idempotent: applied to its
    own result it raises nothing and returns the same frame, since a
    64-bit integer cell survives the passage through text and float, and
    the two totals are computed from the same columns. *)
Theorem numeric_normalization_idempotent :
  forall f f',
    process_numeric_frame f = Ok f' ->
    process_numeric_frame f' = Ok f'.
Proof.
  intros f f' H.
  destruct (process_numeric_frame_spec f f' H) as [_ _ Fld Td Ti _].
  destruct (Fld Col.deaths) as (d & _ & Gd); [in_names|].
  destruct (Fld Col.deaths_child) as (dc & _ & Gdc); [in_names|].
  destruct (Fld Col.injuries) as (i & _ & Gi); [in_names|].
  destruct (Fld Col.injuries_child) as (ic & _ & Gic); [in_names|].
  unfold process_numeric_frame.
  rewrite for_each_fixed.
  - cbn [rbind]; unfold getitem; rewrite Gd, Gdc; cbn [rbind].
    rewrite series_add_ints, (set_col_same _ _ _ (Td d dc Gd Gdc)).
    rewrite Gi, Gic; cbn [rbind].
    now rewrite series_add_ints, (set_col_same _ _ _ (Ti i ic Gi Gic)).
  - intros n I; destruct (Fld n I) as (zs & N & G).
    exact (normalize_column_ints n zs f' (normalized_of_range _ _ _ N) G).
Qed.

Lemma numeric_normalization_idempotent_witness :
  process_numeric_frame (result_frame (process_numeric_frame casualties))
  = Ok (result_frame (process_numeric_frame casualties)).
Proof.
  apply (numeric_normalization_idempotent casualties).
  vm_compute; reflexivity.
Defined.

(** ** The percentages of the comparison table *)

(** The rows of a comparison table are computed from two tables of
    district totals in which every district has at least one incident. *)
Lemma comparison_table_rows (td : cell -> option timestamp) (f p : frame)
  (y : Z) (rows : list comparison_row) :
  wf_frame f ->
  preprocess_frame td f = Ok p ->
  analyze_comparison p = Ok (ComparisonTable y rows) ->
  exists current_data previous_data,
    Forall (fun d => (1 <= d_fires d)%Z) current_data /\
    Forall (fun d => (1 <= d_fires d)%Z) previous_data /\
    rows = map (compare_district current_data previous_data)
             (union_keys (map d_key current_data)
                (map d_key previous_data)).
Proof.
  intros W P.
  pose proof (preprocess_frame_spec td f p P) as PP.
  destruct (pp_year _ _ _ PP) as (years & Gy & Yc).
  destruct (getitem_has _ _ (pp_district _ _ _ PP)) as (ds & _ & Gd).
  destruct (pp_numeric _ _ _ PP)
    as (d & dc & i & ic & Gde & _ & Gi & _ & _ & _ & _).
  pose proof (year_column_length td f years W Yc) as Ly.
  rewrite <- (pp_rows _ _ _ PP) in Ly.
  unfold analyze_comparison, getitem.
  rewrite (pp_district _ _ _ PP), has_col_assoc, Gy, Gd, Gde, Gi.
  rewrite (pp_fires _ _ _ PP), <- (pp_rows _ _ _ PP); cbn [andb rbind].
  destruct (col_max years) as [y0|]; [|discriminate].
  cbv zeta.
  set (fires := repeat (CInt 1) (nrows p)).
  assert (Fc : Forall (fun t => (1 <= d_fires t)%Z)
                 (totals_by_district ds fires (map CInt d) (map CInt i)
                    (rows_of_year years y0)))
    by (apply totals_positive; rewrite <- Ly; apply rows_of_year_below).
  assert (Fp : Forall (fun t => (1 <= d_fires t)%Z)
                 (totals_by_district ds fires (map CInt d) (map CInt i)
                    (rows_of_year years (y0 - 1))))
    by (apply totals_positive; rewrite <- Ly; apply rows_of_year_below).
  destruct (totals_by_district ds fires (map CInt d) (map CInt i)
              (rows_of_year years y0)) as [|c0 cur]; [discriminate|].
  destruct (totals_by_district ds fires (map CInt d) (map CInt i)
              (rows_of_year years (y0 - 1))) as [|p0 prev]; [discriminate|].
  intro H; injection H as _ <-.
  exists (c0 :: cur), (p0 :: prev); auto.
Qed.

Lemma aligned_fires (k : cell) (t : list district_totals) :
  Forall (fun d => (1 <= d_fires d)%Z) t ->
  (0 <= aligned d_fires k t)%Z /\
  (In k (map d_key t) -> (1 <= aligned d_fires k t)%Z).
Proof.
  intro F; rewrite Forall_forall in F; unfold aligned; split.
  - destruct (lookup_totals k t) as [d|] eqn:E; [|lia].
    unfold lookup_totals in E; apply find_some in E as [I _].
    specialize (F d I); lia.
  - intro I; destruct (lookup_totals_found _ _ I) as (d & -> & Id).
    exact (F d Id).
Qed.

Lemma rint_comp (q q' : Q) : (q == q')%Q -> X.rint q = X.rint q'.
Proof.
  intro E; unfold X.rint.
  rewrite (Qfloor_comp _ _ E).
  replace ((q - inject_Z (Qfloor q')) ?= 1 # 2)%Q
    with ((q' - inject_Z (Qfloor q')) ?= 1 # 2)%Q; [reflexivity|].
  apply Qcompare_comp; [now rewrite E | reflexivity].
Qed.

(** The percentage of a district with [cf] incidents in the last year and
    [pf >= 1] in the year before is a number, and it is -100 when
    [cf = 0]. *)
Lemma pct_of_positive_prior (cf pf : Z) :
  (1 <= pf)%Z ->
  exists q,
    X.round1 (X.mul (X.div (X.of_Z (cf - pf)) (X.of_Z pf)) (X.of_Z 100))
    = XFin q /\
    (cf = 0%Z -> (q == inject_Z (-100))%Q).
Proof.
  intro H; unfold X.div, X.of_Z.
  rewrite is_zero_inject.
  destruct (Z.eqb_spec pf 0); [lia|].
  cbn [X.mul X.round1]; eexists; split; [reflexivity|].
  intros ->.
  assert (E : (inject_Z (0 - pf) / inject_Z pf * inject_Z 100 * 10
               == inject_Z (-1000))%Q).
  { unfold Z.sub; cbn [Z.add].
    rewrite inject_Z_opp.
    assert (N : ~ (inject_Z pf == 0)%Q).
    { intro Z0; apply n; unfold Qeq in Z0; simpl in Z0; lia. }
    field; exact N. }
  rewrite (rint_comp _ _ E); reflexivity.
Qed.

(** X11.  In a comparison table no district has zero incidents in both
    years, so a percentage is never the undefined 0/0; it is a number
    whenever the district had an incident in the year before, and that
    number is -100 when it has none in the last year. *)
Theorem comparison_percentages :
  forall to_datetime f p y rows r,
    wf_frame f ->
    preprocess_frame to_datetime f = Ok p ->
    analyze_comparison p = Ok (ComparisonTable y rows) ->
    In r rows ->
    (0 <= cur_fires r)%Z /\ (0 <= prev_fires r)%Z /\
    (1 <= cur_fires r + prev_fires r)%Z /\
    change_fires_pct r <> XNaN /\
    ((1 <= prev_fires r)%Z -> exists q, change_fires_pct r = XFin q) /\
    (cur_fires r = 0%Z ->
     X.eq (change_fires_pct r) (X.of_Z (-100))).
Proof.
  intros td f p y rows r W P A I.
  destruct (comparison_table_rows td f p y rows W P A)
    as (cur & prev & Fc & Fp & ->).
  apply in_map_iff in I as (k & <- & Hk).
  unfold compare_district;
    cbn [cur_fires prev_fires change_fires_pct].
  destruct (aligned_fires k cur Fc) as [C0 C1].
  destruct (aligned_fires k prev Fp) as [P0 P1].
  assert (S : (1 <= aligned d_fires k cur + aligned d_fires k prev)%Z).
  { apply union_keys_In in Hk as [Hk|Hk];
      [specialize (C1 Hk) | specialize (P1 Hk)]; lia. }
  split; [exact C0|]; split; [exact P0|]; split; [exact S|].
  destruct (Z.eq_dec (aligned d_fires k prev) 0) as [Z0|NZ].
  - rewrite Z0 in *.
    rewrite pct_of_zero_prior by lia.
    split; [discriminate|]; split; intro H; exfalso; lia.
  - destruct (pct_of_positive_prior (aligned d_fires k cur)
                (aligned d_fires k prev)) as (q & -> & Q100); [lia|].
    split; [discriminate|]; split; [intros _; now exists q|].
    intro Z0; exact (Q100 Z0).
Qed.

Lemma comparison_percentages_witness :
  exists y rows,
    analyze_comparison (processed two_years) = Ok (ComparisonTable y rows) /\
    forall r, In r rows ->
      (0 <= cur_fires r)%Z /\ (0 <= prev_fires r)%Z /\
      (1 <= cur_fires r + prev_fires r)%Z /\
      change_fires_pct r <> XNaN /\
      ((1 <= prev_fires r)%Z -> exists q, change_fires_pct r = XFin q) /\
      (cur_fires r = 0%Z ->
       X.eq (change_fires_pct r) (X.of_Z (-100))).
Proof.
  eexists _, _; split; [vm_compute; reflexivity|].
  intros r I.
  eapply (comparison_percentages only_timestamps two_years
            (processed two_years)).
  - repeat constructor.
  - exact two_years_processed.
  - vm_compute; reflexivity.
  - exact I.
Defined.

(** One incident in 2021 and two in 2020, the second of them in a district
    with none in 2021. *)
Definition vanished_district : frame :=
  Frame 3
    [ (py "дата",
       [day 2021 3 "2021-03-01 00:00:00"; day 2020 5 "2020-05-02 00:00:00";
        day 2020 6 "2020-06-03 00:00:00"]);
      (py "район",
       [CStr (py "Алданский"); CStr (py "Алданский");
        CStr (py "Вилюйский")]) ].

Example vanished_district_minus_100 :
  exists rows r,
    analyze_comparison (processed vanished_district)
    = Ok (ComparisonTable 2021 rows) /\
    In r rows /\
    c_key r = CStr (py "Вилюйский") /\
    cur_fires r = 0%Z /\ prev_fires r = 1%Z /\
    X.eq (change_fires_pct r) (X.of_Z (-100)).
Proof.
  eexists _, _; split; [vm_compute; reflexivity|].
  split; [right; left; reflexivity|].
  repeat split.
Qed.
